(** * TeleWrapper: the routing core of [src/index.ts]

    A shallow embedding of the class [TeleWrapper] and the properties of
    its dispatcher, authorization gate, registry and outbox.

    Conventions of the embedding.
    - JavaScript numbers that hold identifiers, timestamps and capacities
      are integers ([Z]); the arithmetic of [botRunningTime], which
      divides them, is that of binary64 numbers, see [Binary64].
    - Strings are [string]; the character class [\w] is ASCII only, as in
      a JavaScript regular expression without the [u] and [i] flags.
    - The two objects used as dictionaries ([commandList], [buttonList])
      are finite maps for their own properties; a property read
      [obj[key]] also sees the properties inherited through the
      prototype chain, and a write under ["__proto__"] replaces the
      prototype, see [js_get].
    - A method of the class is a computation [M A] that threads the
      object state, records the observable calls it makes (calls of user
      callbacks, of the platform client and of the logger) and may end
      with a thrown exception.
    - A user callback is opaque: it has a name, under which its calls are
      recorded, and a behaviour that says whether it returns or throws
      (and what it returns). It is taken not to act on the wrapper while
      it runs: it registers nothing and changes no field.
    - Besides the calls of user callbacks, of the client and of the
      logger, the trace records the calls the dispatcher makes of the
      [callback] stored in a command or pattern descriptor
      ([InvokeCommand], [InvokePattern]): that stored callback is the
      bound [commandBase] or [regexBase], which goes through the gate
      before it calls the user callback. *)

From Stdlib Require Import ZArith List String Ascii Bool Lia.
From Stdlib Require DecimalString DecimalZ DecimalPos.
From Stdlib Require QArith Qround Qpower Qabs Lqa.
From stdpp Require Import base gmap list strings.

Local Open Scope string_scope.
Local Open Scope list_scope.
Local Open Scope Z_scope.

(** ** Strings and the command token *)

Module Js.

(** [\w]: the class [A-Za-z0-9_]. *)
Definition is_word (c : ascii) : bool :=
  let n := nat_of_ascii c in
  ((65 <=? n) && (n <=? 90) || (97 <=? n) && (n <=? 122)
   || (48 <=? n) && (n <=? 57) || (n =? 95))%nat.

(** The longest prefix of word characters: what a greedy [\w*] consumes. *)
Fixpoint take_word (s : string) : string :=
  match s with
  | String c r => if is_word c then String c (take_word r) else EmptyString
  | EmptyString => EmptyString
  end.

(** [s] is matched by [^\w+$]. *)
Fixpoint all_word (s : string) : bool :=
  match s with
  | String c r => is_word c && all_word r
  | EmptyString => true
  end.

Definition word_token (s : string) : bool :=
  match s with
  | EmptyString => false
  | _ => all_word s
  end.

(** [s] has a character outside [\w]: [s.match('\\W+')] is not null. *)
Definition has_non_word (s : string) : bool := negb (all_word s).

(** [new RegExp('^/\\w+').exec(text)]: the matched text [res[0]], if any. *)
Definition exec_command_regex (text : string) : option string :=
  match text with
  | String "/"%char r =>
      match take_word r with
      | EmptyString => None
      | w => Some (String "/"%char w)
      end
  | _ => None
  end.

(** [s.substring(1)]. *)
Definition substring_from_1 (s : string) : string :=
  match s with
  | String _ r => r
  | EmptyString => EmptyString
  end.

Definition lower_char (c : ascii) : ascii :=
  let n := nat_of_ascii c in
  if ((65 <=? n) && (n <=? 90))%nat then ascii_of_nat (n + 32) else c.

(** [s.toLocaleLowerCase()] on the ASCII range (the only letters a command
    token can hold), in a locale without special casing rules. *)
Fixpoint toLocaleLowerCase (s : string) : string :=
  match s with
  | String c r => String (lower_char c) (toLocaleLowerCase r)
  | EmptyString => EmptyString
  end.

(** [s.startsWith(p)]. *)
Fixpoint starts_with (p s : string) : bool :=
  match p, s with
  | EmptyString, _ => true
  | String a p', String b s' => if Ascii.eqb a b then starts_with p' s' else false
  | String _ _, EmptyString => false
  end.

(** [s.includes(p)]. *)
Fixpoint includes (p s : string) : bool :=
  starts_with p s ||
  match s with
  | String _ s' => includes p s'
  | EmptyString => false
  end.

(** Property read [obj[key]] and property write [obj[key] = v] on an
    object literal used as a dictionary.

    A write creates or replaces an own property, for every key but one.
    [obj['__proto__'] = v], for an object [v], goes to the setter that
    [obj] inherits from [Object.prototype]: it creates no own property
    and makes [v] the prototype of [obj]. A later read [obj['__proto__']]
    goes to the getter and answers [v].

    The dictionary is a finite map. Its entry under ["__proto__"], when
    there is one, is not an own property: it is the object that such a
    write has made the prototype. A write is an insertion in the map, for
    every key.

    A read answers an entry of the map when there is one. Otherwise it
    continues in the prototype chain: in the own properties of the object
    that was made the prototype, then in [Object.prototype]. What it
    finds there is not a value of the dictionary: it is [Inherited] when
    it is truthy. *)
Definition object_prototype_keys : list string :=
  [ "constructor"; "toString"; "toLocaleString"; "valueOf";
    "hasOwnProperty"; "isPrototypeOf"; "propertyIsEnumerable";
    "__proto__"; "__defineGetter__"; "__defineSetter__";
    "__lookupGetter__"; "__lookupSetter__" ].

Inductive Property (V : Type) : Type :=
  | Own (v : V)
  | Inherited
  | Undefined.
Arguments Own {V} v.
Arguments Inherited {V}.
Arguments Undefined {V}.

(** The names of the own properties of a stored object whose value is
    truthy: what a read finds in it when it stands in the prototype
    chain. *)
Class Fields (V : Type) : Type := truthy_fields : V -> list string.

(** The truthy properties a read finds in the object that was made the
    prototype, if one was. *)
Definition prototype_fields {V : Type} `{Fields V} (obj : gmap string V) : list string :=
  match obj !! "__proto__" with
  | Some v => truthy_fields v
  | None => []
  end.

Definition js_get {V : Type} `{Fields V} (obj : gmap string V) (key : string) : Property V :=
  match obj !! key with
  | Some v => Own v
  | None =>
      if bool_decide (key ∈ prototype_fields obj) || bool_decide (key ∈ object_prototype_keys)
      then Inherited else Undefined
  end.

(** Truthiness of a property read: a value stored here is an object, and
    [Inherited] stands for a truthy value. *)
Definition truthy {V : Type} (p : Property V) : bool :=
  match p with
  | Undefined => false
  | _ => true
  end.

(** [arr.slice(start, end)] for integer arguments. *)
Definition slice {A : Type} (l : list A) (start end_ : Z) : list A :=
  let len := Z.of_nat (length l) in
  let from := if start <? 0 then Z.max (len + start) 0 else Z.min start len in
  let final := if end_ <? 0 then Z.max (len + end_) 0 else Z.min end_ len in
  take (Z.to_nat (final - from)) (drop (Z.to_nat from) l).

(** [arr.includes(x)] on numbers. *)
Definition includes_num (l : list Z) (x : Z) : bool := bool_decide (x ∈ l).

End Js.

(** * Numbers outside the integers

    [botRunningTime] divides, so its numbers leave the integers. A finite
    binary64 value is a rational here, and an arithmetic operation of the
    code is the exact operation followed by [round]: the rounding of
    IEEE 754 to 53 significant bits, to nearest, ties to even. The
    remainder [%] is exact in binary64 and is not rounded. Overflow and
    subnormal numbers are left out: the differences and quotients of
    time values, which are integers of at most 8.64e15 in magnitude, do
    not reach them. A negative zero is the rational zero; both print as
    ["0"]. *)

Module Binary64.

Import QArith Qround Qpower Qabs.
Local Open Scope Q_scope.

(** The exponent of a positive rational: the [e] with
    [2^e <= x < 2^(e+1)]. The difference of the bit lengths of numerator
    and denominator is [e] or [e + 1]. *)
Definition binade (x : Q) : Z :=
  let e := (Z.log2 (Qnum x) - Z.log2 (Zpos (Qden x)))%Z in
  if Qle_bool (2 ^ e) x then e else (e - 1)%Z.

(** The nearest integer; of two equally near, the even one. *)
Definition round_half_even (z : Q) : Z :=
  let f := Qfloor z in
  match Qcompare (z - inject_Z f) (1 # 2) with
  | Lt => f
  | Gt => (f + 1)%Z
  | Eq => if Z.even f then f else (f + 1)%Z
  end.

(** The nearest binary64 value: the nearest multiple of the unit in the
    last place of [x], which is [2^(e - 52)] in the binade [e]. *)
Definition round (x : Q) : Q :=
  if Qeq_bool x 0 then 0
  else
    let ulp := 2 ^ (binade (Qabs x) - 52) in
    inject_Z (round_half_even (x / ulp)) * ulp.

(** The integer part, toward zero. *)
Definition trunc (x : Q) : Z := if Qle_bool 0 x then Qfloor x else Qceiling x.

(** [x % y]: the remainder with the sign of the dividend. *)
Definition rem (x y : Q) : Q := x - y * inject_Z (trunc (x / y)).

End Binary64.

(** [extractCommand], lines 234-239. A fresh [RegExp] is built at every
    call, the function reads no field of the object: it is a function of
    its argument alone. *)
Definition extractCommand (text : string) : string :=
  match Js.exec_command_regex text with
  | Some res0 => Js.substring_from_1 res0
  | None => EmptyString
  end.

(** ** Data model *)

(** The fields of [TelegramBot.Message] the wrapper reads. *)
Record Message : Type := {
  msg_chat_id : Z;                       (* msg.chat.id *)
  msg_message_id : Z;                    (* msg.message_id *)
  msg_date : Z;                          (* msg.date, in seconds *)
  msg_text : option string;              (* msg.text *)
  msg_voice : bool;                      (* msg.voice is present *)
  msg_audio : bool;                      (* msg.audio is present *)
  msg_reply_to_username : option string  (* msg.reply_to_message?.from?.username *)
}.

Record CallbackQuery : Type := {
  query_id : string;                     (* query.id *)
  query_data : string;                   (* query.data *)
  query_message : option Message         (* query.message *)
}.

Definition RegExpExecArray : Type := list string.

(** A compiled pattern, by what [regex.exec(text)] answers. The pattern is
    taken without the [g] and [y] flags, so [exec] keeps no position
    between calls. *)
Record RegExp : Type := { exec : string -> option RegExpExecArray }.

(** The argument [chatIDs: number[] | number] of the registration calls. *)
Inductive ChatIDs : Type :=
  | OneChat (id : Z)
  | ChatList (ids : list Z).

(** [typeof chatIDs === 'object' ? chatIDs : [chatIDs]]. *)
Definition to_ids (chatIDs : ChatIDs) : list Z :=
  match chatIDs with
  | OneChat id => [id]
  | ChatList ids => ids
  end.

(** How a call ends: with a value, or with a thrown exception. For a
    promise: fulfilled with a value, or rejected. *)
Inductive Outcome (A : Type) : Type :=
  | Returns (a : A)
  | Throws (error : string).
Arguments Returns {A} a.
Arguments Throws {A} error.

Definition Promise (A : Type) : Type := Outcome A.

(** What a button callback hands back: [string | void | Promise<void>]. *)
Inductive ButtonResult : Type :=
  | ResString (s : string)
  | ResVoid
  | ResPromise.

(** User callbacks: a name for the trace and a behaviour. *)
Record CommandCallback : Type := {
  cc_name : string;
  cc_run : Message -> string -> Outcome unit
}.

Record RegexCallback : Type := {
  rc_name : string;
  rc_run : Message -> bool -> RegExpExecArray -> Outcome unit
}.

Record AnyCallback : Type := {
  ac_name : string;
  ac_run : Message -> bool -> Outcome unit
}.

Record InvalidCallback : Type := {
  ic_name : string;
  ic_run : Message -> bool -> Outcome bool
}.

Record ButtonCallback : Type := {
  bc_name : string;
  bc_run : CallbackQuery -> Outcome ButtonResult
}.

(** The descriptors. The [callback] field of [ICommand] and of [IRegexCmd]
    is, in the source, [commandBase.bind(this, ids, callback)] and
    [regexBase.bind(this, chatIDs, callback)]: the record keeps the two
    bound arguments (the scope is the [chatIDs] field itself) and the call
    of the bound function is [ICommand_callback], [IRegexCmd_callback]. *)
Record ICommand : Type := {
  command : string;
  cmd_chatIDs : list Z;
  cmd_desc : string;
  cmd_callback : CommandCallback
}.

Record IRegexCmd : Type := {
  regex : RegExp;
  rx_chatIDs : list Z;
  rx_desc : string;
  rx_callback : RegexCallback
}.

Record IAnyCmd : Type := {
  any_chatIDs : list Z;
  any_callback : AnyCallback
}.

Record IInvalidCmd : Type := { inv_callback : InvalidCallback }.

Record IButtonCmd : Type := {
  btn_name : string;
  btn_callback : ButtonCallback
}.

(** The properties of a descriptor that are truthy: an array and a
    function always are, a string is unless it is empty. *)
#[global] Instance ICommand_fields : Js.Fields ICommand := fun c =>
  (if String.eqb (command c) EmptyString then [] else ["command"]) ++
  (if String.eqb (cmd_desc c) EmptyString then [] else ["desc"]) ++
  ["chatIDs"; "callback"].

#[global] Instance IButtonCmd_fields : Js.Fields IButtonCmd := fun b =>
  (if String.eqb (btn_name b) EmptyString then [] else ["name"]) ++ ["callback"].

(** Texts handed to the logger and to [core.sendMessage]. The two reports
    of [reportInvalidCommand] are kept symbolic: which of the two, and for
    which message. *)
Inductive Text : Type :=
  | Literal (s : string)
  | ErrorText (text : string) (error : option string)   (* 'Error: ' + text (+ stack) *)
  | UnsupportedChatReport (msg : Message)               (* 'Received command from a chat that doesn't support it: ' ... *)
  | UnregisteredChatReport (msg : Message).             (* 'Received message from unregistered chat: ' ... *)

(** The platform client [core], by how its promises settle. *)
Record TelegramBot : Type := {
  sendMessage_settles : Z -> Text -> Promise Message;
  deleteMessage_settles : Z -> Z -> Promise unit
}.

(** The fields of the class, lines 41-55. *)
Record TeleWrapper : Type := {
  validChats : list Z;
  core : TelegramBot;
  botInfo : option string;               (* botInfo.username, once getMe has answered *)
  startTime : Z;                         (* startTime.getTime(), in milliseconds *)
  messageListLength : Z;
  debugChat : Z;
  commandList : gmap string ICommand;
  buttonList : gmap string IButtonCmd;
  regexList : list IRegexCmd;
  anyList : list IAnyCmd;
  audioList : list IAnyCmd;
  invalidList : list IInvalidCmd;
  messageList : list Message
}.

(** Observable calls, in program order. *)
Inductive Effect : Type :=
  | CallCommand (name : string) (msg : Message) (content : string)
  | CallRegex (name : string) (msg : Message) (handled : bool) (result : RegExpExecArray)
  | CallAudio (name : string) (msg : Message) (handled : bool)
  | CallAny (name : string) (msg : Message) (handled : bool)
  | CallInvalid (name : string) (msg : Message) (handled : bool)
  | CallButton (name : string) (query : CallbackQuery)
  | InvokeCommand (key : string) (msg : Message)
      (* this.commandList[key].callback(msg) *)
  | InvokePattern (index : nat) (msg : Message) (handled : bool) (result : RegExpExecArray)
      (* value.callback(msg, handled, result) for regexList[index] *)
  | LoggerLog (text : Text)
  | CoreSendMessage (chat : Z) (text : Text)
  | CoreDeleteMessage (chat : Z) (message_id : Z)
  | CoreAnswerCallbackQuery (id : string) (text : option string) (show_alert : option bool)
  | Timer (ms : Z).

(** ** The computation monad: state, trace, exceptions *)

Record Run (A : Type) : Type := {
  outcome : Outcome A;
  final : TeleWrapper;
  trace : list Effect
}.
Arguments outcome {A} _.
Arguments final {A} _.
Arguments trace {A} _.

Definition M (A : Type) : Type := TeleWrapper -> Run A.

Definition ret {A : Type} (a : A) : M A :=
  fun this => {| outcome := Returns a; final := this; trace := [] |}.

Definition bind {A B : Type} (m : M A) (k : A -> M B) : M B :=
  fun this =>
    let r := m this in
    match outcome r with
    | Returns a =>
        let r' := k a (final r) in
        {| outcome := outcome r'; final := final r'; trace := trace r ++ trace r' |}
    | Throws e => {| outcome := Throws e; final := final r; trace := trace r |}
    end.

#[global] Instance M_ret : MRet M := @ret.
#[global] Instance M_bind : MBind M := fun A B k m => bind m k.

Definition throw {A : Type} (e : string) : M A :=
  fun this => {| outcome := Throws e; final := this; trace := [] |}.

(** [try { m } catch (error) { h error }]. *)
Definition try_catch {A : Type} (m : M A) (h : string -> M A) : M A :=
  fun this =>
    let r := m this in
    match outcome r with
    | Returns _ => r
    | Throws e =>
        let r' := h e (final r) in
        {| outcome := outcome r'; final := final r'; trace := trace r ++ trace r' |}
    end.

Definition emit (e : Effect) : M unit :=
  fun this => {| outcome := Returns tt; final := this; trace := [e] |}.

Definition get : M TeleWrapper :=
  fun this => {| outcome := Returns this; final := this; trace := [] |}.

Definition put (this' : TeleWrapper) : M unit :=
  fun _ => {| outcome := Returns tt; final := this'; trace := [] |}.

(** The end of a call made elsewhere (a callback, a settled promise). *)
Definition lift {A : Type} (o : Outcome A) : M A :=
  fun this => {| outcome := o; final := this; trace := [] |}.

(** An [async] method: an exception of the body rejects the promise it
    returns. The model runs the body to its end at the call; it does not
    interleave the continuation after an [await] with other events. *)
Definition async {A : Type} (body : M A) : M (Promise A) :=
  fun this =>
    let r := body this in
    {| outcome := Returns (outcome r); final := final r; trace := trace r |}.

Definition await {A : Type} (p : Promise A) : M A := lift p.

(** [list.forEach(f)] and [for (const x of list) f(x)]. *)
Fixpoint forEach {A : Type} (l : list A) (f : A -> M unit) : M unit :=
  match l with
  | [] => ret tt
  | x :: l' => f x ;; forEach l' f
  end.

(** A loop that carries a local variable. *)
Fixpoint foldM {A S : Type} (l : list A) (f : S -> A -> M S) (s : S) : M S :=
  match l with
  | [] => ret s
  | x :: l' => s' ← f s x; foldM l' f s'
  end.

(** [Promise.all(promises)]: rejected as soon as one of them is. *)
Fixpoint Promise_all {A : Type} (promises : list (Promise A)) : Promise (list A) :=
  match promises with
  | [] => Returns []
  | Returns a :: ps =>
      match Promise_all ps with
      | Returns l => Returns (a :: l)
      | Throws e => Throws e
      end
  | Throws e :: _ => Throws e
  end.

(** ** Field updates *)

Definition set_validChats (v : list Z) (this : TeleWrapper) : TeleWrapper :=
  {| validChats := v; core := core this; botInfo := botInfo this;
     startTime := startTime this; messageListLength := messageListLength this;
     debugChat := debugChat this; commandList := commandList this;
     buttonList := buttonList this; regexList := regexList this;
     anyList := anyList this; audioList := audioList this;
     invalidList := invalidList this; messageList := messageList this |}.

Definition set_debugChat (v : Z) (this : TeleWrapper) : TeleWrapper :=
  {| validChats := validChats this; core := core this; botInfo := botInfo this;
     startTime := startTime this; messageListLength := messageListLength this;
     debugChat := v; commandList := commandList this;
     buttonList := buttonList this; regexList := regexList this;
     anyList := anyList this; audioList := audioList this;
     invalidList := invalidList this; messageList := messageList this |}.

Definition set_commandList (v : gmap string ICommand) (this : TeleWrapper) : TeleWrapper :=
  {| validChats := validChats this; core := core this; botInfo := botInfo this;
     startTime := startTime this; messageListLength := messageListLength this;
     debugChat := debugChat this; commandList := v;
     buttonList := buttonList this; regexList := regexList this;
     anyList := anyList this; audioList := audioList this;
     invalidList := invalidList this; messageList := messageList this |}.

Definition set_buttonList (v : gmap string IButtonCmd) (this : TeleWrapper) : TeleWrapper :=
  {| validChats := validChats this; core := core this; botInfo := botInfo this;
     startTime := startTime this; messageListLength := messageListLength this;
     debugChat := debugChat this; commandList := commandList this;
     buttonList := v; regexList := regexList this;
     anyList := anyList this; audioList := audioList this;
     invalidList := invalidList this; messageList := messageList this |}.

Definition set_regexList (v : list IRegexCmd) (this : TeleWrapper) : TeleWrapper :=
  {| validChats := validChats this; core := core this; botInfo := botInfo this;
     startTime := startTime this; messageListLength := messageListLength this;
     debugChat := debugChat this; commandList := commandList this;
     buttonList := buttonList this; regexList := v;
     anyList := anyList this; audioList := audioList this;
     invalidList := invalidList this; messageList := messageList this |}.

Definition set_anyList (v : list IAnyCmd) (this : TeleWrapper) : TeleWrapper :=
  {| validChats := validChats this; core := core this; botInfo := botInfo this;
     startTime := startTime this; messageListLength := messageListLength this;
     debugChat := debugChat this; commandList := commandList this;
     buttonList := buttonList this; regexList := regexList this;
     anyList := v; audioList := audioList this;
     invalidList := invalidList this; messageList := messageList this |}.

Definition set_audioList (v : list IAnyCmd) (this : TeleWrapper) : TeleWrapper :=
  {| validChats := validChats this; core := core this; botInfo := botInfo this;
     startTime := startTime this; messageListLength := messageListLength this;
     debugChat := debugChat this; commandList := commandList this;
     buttonList := buttonList this; regexList := regexList this;
     anyList := anyList this; audioList := v;
     invalidList := invalidList this; messageList := messageList this |}.

Definition set_invalidList (v : list IInvalidCmd) (this : TeleWrapper) : TeleWrapper :=
  {| validChats := validChats this; core := core this; botInfo := botInfo this;
     startTime := startTime this; messageListLength := messageListLength this;
     debugChat := debugChat this; commandList := commandList this;
     buttonList := buttonList this; regexList := regexList this;
     anyList := anyList this; audioList := audioList this;
     invalidList := v; messageList := messageList this |}.

Definition set_messageList (v : list Message) (this : TeleWrapper) : TeleWrapper :=
  {| validChats := validChats this; core := core this; botInfo := botInfo this;
     startTime := startTime this; messageListLength := messageListLength this;
     debugChat := debugChat this; commandList := commandList this;
     buttonList := buttonList this; regexList := regexList this;
     anyList := anyList this; audioList := audioList this;
     invalidList := invalidList this; messageList := v |}.

Definition set_messageListLength (v : Z) (this : TeleWrapper) : TeleWrapper :=
  {| validChats := validChats this; core := core this; botInfo := botInfo this;
     startTime := startTime this; messageListLength := v;
     debugChat := debugChat this; commandList := commandList this;
     buttonList := buttonList this; regexList := regexList this;
     anyList := anyList this; audioList := audioList this;
     invalidList := invalidList this; messageList := messageList this |}.

(** The object the constructor builds (lines 57-66), before [getMe] has
    answered. *)
Definition new_TeleWrapper (client : TelegramBot) (now : Z) : TeleWrapper :=
  {| validChats := []; core := client; botInfo := None; startTime := now;
     messageListLength := 1000; debugChat := 0; commandList := ∅;
     buttonList := ∅; regexList := []; anyList := []; audioList := [];
     invalidList := []; messageList := [] |}.

(** ** Tools, lines 529-559 *)

(** [getValidChats]. With no debug chat the array returned is
    [this.validChats] itself; otherwise it is a fresh copy. *)
Definition getValidChats (this : TeleWrapper) : list Z :=
  if debugChat this =? 0 then validChats this
  else debugChat this :: validChats this.

(** The capacity the outbox is cut down to: [slice] truncates its first
    argument [length - messageListLength / 10], the rational
    [(10 * length - messageListLength) / 10], toward zero. *)
Definition slice_start (len capacity : Z) : Z := Z.quot (10 * len - capacity) 10.

(** The array after [messageListAppend(msg)]. *)
Definition appended (capacity : Z) (entries : list Message) (msg : Message) : list Message :=
  let pushed := entries ++ [msg] in
  let len := Z.of_nat (length pushed) in
  if capacity <=? len then Js.slice pushed (slice_start len capacity) len
  else pushed.

Definition messageListAppend (msg : Message) : M unit :=
  this ← get;
  put (set_messageList (appended (messageListLength this) (messageList this) msg) this).

(** ** Messaging, lines 269-295 and 441-452 *)

Definition sendError (text : string) (error : option string) : M (Promise (option Message)) :=
  async (
    emit (LoggerLog (ErrorText text error));;
    this ← get;
    if debugChat this =? 0 then ret None
    else
      emit (CoreSendMessage (debugChat this) (ErrorText text error));;
      msg ← await (sendMessage_settles (core this) (debugChat this) (ErrorText text error));
      messageListAppend msg;;
      ret (Some msg)).

Definition sendMessageBase (text : Text) (chatID : Z) : M (Promise Message) :=
  async (
    this ← get;
    if Js.includes_num (getValidChats this) chatID then
      emit (CoreSendMessage chatID text);;
      msg ← await (sendMessage_settles (core this) chatID text);
      messageListAppend msg;;
      ret msg
    else
      sendError "trying to send a message to an invalid chat id" (Some "stack");;
      throw "Invalid chat id when sending message").

Definition sendMessage (text : Text) (chatID : Z) : M (Promise Message) :=
  async (p ← sendMessageBase text chatID; await p).

(** The argument of [deleteMessage]: one message, an array, or [undefined]. *)
Inductive DeleteArg : Type :=
  | OneMessage (single : Message)
  | MessageArray (msgs : list Message)
  | NoMessage.

Definition deleteMessage_single (single : Message) : M (Promise unit) :=
  async (
    this ← get;
    emit (CoreDeleteMessage (msg_chat_id single) (msg_message_id single));;
    await (deleteMessage_settles (core this) (msg_chat_id single) (msg_message_id single))).

Definition deleteMessage (msg : DeleteArg) : M (Promise unit) :=
  match msg with
  | MessageArray msgs =>
      async (
        promises ← foldM msgs
          (fun promises value => p ← deleteMessage_single value; ret (promises ++ [p])) [];
        await (Promise_all promises);;
        ret tt)
  | OneMessage single => deleteMessage_single single
  | NoMessage => async (throw "TypeError: Cannot read properties of undefined (reading 'length')")
  end.

Definition messageEqual (msg1 msg2 : Message) : bool :=
  (msg_chat_id msg1 =? msg_chat_id msg2) && (msg_message_id msg1 =? msg_message_id msg2).

(** ** The authorization gate, lines 480-525 *)

Definition reportInvalidCommand (msg : Message) (validChat : bool) : M unit :=
  this ← get;
  let report := if validChat then UnsupportedChatReport msg else UnregisteredChatReport msg in
  (if negb (debugChat this =? 0)
   then sendMessage report (debugChat this);; ret tt
   else ret tt);;
  emit (LoggerLog report).

Definition call_invalid (c : IInvalidCmd) (msg : Message) (handled : bool) : M bool :=
  emit (CallInvalid (ic_name (inv_callback c)) msg handled);;
  lift (ic_run (inv_callback c) msg handled).

(** The body of the [forEach] of lines 499-501:
    [handled = c.callback(msg, handled) || handled]. *)
Definition invalid_step (msg : Message) (handled : bool) (c : IInvalidCmd) : M bool :=
  r ← call_invalid c msg handled;
  ret (r || handled).

Definition validCommand (msg : Message) (chatIDs : ChatIDs) (regex : bool) : M bool :=
  this ← get;
  if msg_date msg * 1000 <? startTime this then
    emit (LoggerLog (Literal "Not executing queued up command"));;
    ret false
  else
    let ids := to_ids chatIDs in
    let valid := Js.includes_num (getValidChats this) (msg_chat_id msg) in
    if Js.includes_num ids (msg_chat_id msg) then ret true
    else if valid && (length ids =? 0)%nat then ret true
    else if valid && regex then ret false
    else
      handled ←
        (if negb valid then
           foldM (invalidList this) (invalid_step msg) false
         else ret false);
      (if negb handled then reportInvalidCommand msg valid else ret tt);;
      ret false.

(** ** Registration and the bound callbacks, lines 164-232 *)

Definition addValidChat (chatID : Z) : M unit :=
  this ← get;
  if chatID =? 0 then ret tt
  else if negb (Js.includes_num (validChats this) chatID) then
    put (set_validChats (validChats this ++ [chatID]) this)
  else sendError "tried to add duplicate valid chat" None;; ret tt.

(** [indexOf] and [splice(index, 1)]: the first occurrence goes. *)
Fixpoint remove_first (x : Z) (l : list Z) : list Z :=
  match l with
  | [] => []
  | y :: l' => if x =? y then l' else y :: remove_first x l'
  end.

Definition removeValidChat (chatID : Z) : M unit :=
  this ← get;
  if Js.includes_num (validChats this) chatID then
    put (set_validChats (remove_first chatID (validChats this)) this)
  else sendError "tried to remove non-existing valid chat" None;; ret tt.

Definition setDebugChat (chatID : Z) : M unit :=
  this ← get; put (set_debugChat chatID this).

(** [onBase]. [valids] is read once: it aliases [this.validChats] when no
    debug chat is set, and is a copy taken before the loop otherwise. *)
Definition onBase (chatIDs : ChatIDs) : M unit :=
  this0 ← get;
  let copy := getValidChats this0 in
  forEach (to_ids chatIDs) (fun id =>
    this ← get;
    let valids := if debugChat this0 =? 0 then validChats this else copy in
    if negb (Js.includes_num valids id) then addValidChat id else ret tt).

(** [msg.text?.replace(/[^ ]+ ?/, '') ?? '']: the first run of non-space
    characters goes, with one space after it. *)
Fixpoint drop_non_space (s : string) : string :=
  match s with
  | String c r => if Ascii.eqb c " " then s else drop_non_space r
  | EmptyString => EmptyString
  end.

Definition drop_one_space (s : string) : string :=
  match s with
  | String c r => if Ascii.eqb c " " then r else s
  | EmptyString => EmptyString
  end.

Fixpoint remove_first_token (s : string) : string :=
  match s with
  | String c r =>
      if Ascii.eqb c " " then String c (remove_first_token r)
      else drop_one_space (drop_non_space r)
  | EmptyString => EmptyString
  end.

Definition call_command (callback : CommandCallback) (msg : Message) (content : string) : M unit :=
  emit (CallCommand (cc_name callback) msg content);;
  lift (cc_run callback msg content).

Definition commandBase (chatIDs : ChatIDs) (callback : CommandCallback) (msg : Message) : M unit :=
  ok ← validCommand msg chatIDs false;
  if negb ok then ret tt
  else
    let content := match msg_text msg with
                   | Some text => remove_first_token text
                   | None => EmptyString
                   end in
    call_command callback msg content.

Definition call_regex (callback : RegexCallback) (msg : Message) (handled : bool)
    (result : RegExpExecArray) : M unit :=
  emit (CallRegex (rc_name callback) msg handled result);;
  lift (rc_run callback msg handled result).

Definition regexBase (chatIDs : ChatIDs) (callback : RegexCallback) (msg : Message)
    (handled : bool) (result : RegExpExecArray) : M unit :=
  ok ← validCommand msg chatIDs true;
  if negb ok then ret tt else call_regex callback msg handled result.

(** The stored [callback] of a descriptor: the bound function. *)
Definition ICommand_callback (c : ICommand) (msg : Message) : M unit :=
  commandBase (ChatList (cmd_chatIDs c)) (cmd_callback c) msg.

Definition IRegexCmd_callback (c : IRegexCmd) (msg : Message) (handled : bool)
    (result : RegExpExecArray) : M unit :=
  regexBase (ChatList (rx_chatIDs c)) (rx_callback c) msg handled result.

Definition onCommand (command : string) (chatIDs : ChatIDs) (callback : CommandCallback)
    (desc : option string) : M unit :=
  onBase chatIDs;;
  this ← get;
  if Js.has_non_word command then
    emit (LoggerLog (Literal ("Command '" +:+ command +:+ "' has illegal characters")))
  else if Js.truthy (Js.js_get (commandList this) command) then
    emit (LoggerLog (Literal ("Command '" +:+ command +:+ "' already exists")))
  else
    let ids := to_ids chatIDs in
    put (set_commandList
           (<[Js.toLocaleLowerCase command :=
                {| command := command; cmd_desc := default "(empty)" desc;
                   cmd_chatIDs := ids; cmd_callback := callback |}]> (commandList this))
           this).

Definition onRegex (regex : RegExp) (chatIDs : ChatIDs) (callback : RegexCallback)
    (desc : string) : M unit :=
  onBase chatIDs;;
  this ← get;
  let ids := to_ids chatIDs in
  put (set_regexList
         (regexList this ++
            [{| regex := regex; rx_desc := desc; rx_chatIDs := ids; rx_callback := callback |}])
         this).

Definition onButton (name : string) (callback : ButtonCallback) : M unit :=
  this ← get;
  put (set_buttonList
         (<[name := {| btn_name := name; btn_callback := callback |}]> (buttonList this)) this).

Definition onAny (chatIDs : ChatIDs) (callback : AnyCallback) : M unit :=
  onBase chatIDs;;
  this ← get;
  let ids := to_ids chatIDs in
  put (set_anyList (anyList this ++ [{| any_chatIDs := ids; any_callback := callback |}]) this).

Definition onAudio (chatIDs : ChatIDs) (callback : AnyCallback) : M unit :=
  onBase chatIDs;;
  this ← get;
  let ids := to_ids chatIDs in
  put (set_audioList (audioList this ++ [{| any_chatIDs := ids; any_callback := callback |}]) this).

Definition onInvalid (callback : InvalidCallback) : M unit :=
  this ← get;
  put (set_invalidList (invalidList this ++ [{| inv_callback := callback |}]) this).

(** ** The dispatcher, lines 85-162 and 259-265 *)

(** [msg?.text ?? '']. *)
Definition text_of (msg : Message) : string := default EmptyString (msg_text msg).

(** [msg.text] is truthy: present and not empty. *)
Definition has_text (msg : Message) : bool :=
  match msg_text msg with
  | Some (String _ _) => true
  | _ => false
  end.

Definition deleteIfMentioned (msg : Message) : M unit :=
  this ← get;
  match botInfo this with
  | None => ret tt
  | Some username =>
      let mentioned := match msg_text msg with
                       | Some text => Js.includes ("@" +:+ username) text
                       | None => false
                       end in
      let replied := match msg_reply_to_username msg with
                     | Some u => String.eqb u username
                     | None => false
                     end in
      if mentioned || replied then deleteMessage (OneMessage msg);; ret tt else ret tt
  end.

(** [c.chatIDs.includes(msg.chat.id) || !c.chatIDs.length]. *)
Definition in_scope (c : IAnyCmd) (msg : Message) : bool :=
  Js.includes_num (any_chatIDs c) (msg_chat_id msg) || (length (any_chatIDs c) =? 0)%nat.

Definition call_audio (c : IAnyCmd) (msg : Message) (handled : bool) : M unit :=
  emit (CallAudio (ac_name (any_callback c)) msg handled);;
  lift (ac_run (any_callback c) msg handled).

Definition call_any (c : IAnyCmd) (msg : Message) (handled : bool) : M unit :=
  emit (CallAny (ac_name (any_callback c)) msg handled);;
  lift (ac_run (any_callback c) msg handled).

(** Stage 1, lines 90-96: the exact command. *)
Definition command_stage (msg : Message) : M bool :=
  this ← get;
  let command := Js.toLocaleLowerCase (extractCommand (text_of msg)) in
  if has_text msg && Js.truthy (Js.js_get (commandList this) command) then
    deleteIfMentioned msg;;
    match Js.js_get (commandList this) command with
    | Js.Own c => emit (InvokeCommand command msg);; ICommand_callback c msg
    | _ => throw "TypeError: this.commandList[command].callback is not a function"
    end;;
    ret true
  else ret false.

(** One turn of the loop of lines 100-107. *)
Definition regex_step (msg : Message) (handled : bool) (entry : nat * IRegexCmd) : M bool :=
  let '(key, value) := entry in
  match exec (regex value) (text_of msg) with
  | None => ret handled
  | Some result =>
      deleteIfMentioned msg;;
      emit (InvokePattern key msg handled result);;
      IRegexCmd_callback value msg handled result;;
      ret true
  end.

(** Stage 2, lines 98-108: the patterns, over [Object.entries(regexList)]. *)
Definition regex_stage (msg : Message) (handled : bool) : M bool :=
  this ← get;
  if has_text msg && negb handled then
    foldM (imap pair (regexList this)) (regex_step msg) handled
  else ret handled.

(** Stage 3, lines 110-117. *)
Definition audio_stage (msg : Message) (handled : bool) : M unit :=
  this ← get;
  if msg_voice msg || msg_audio msg then
    forEach (audioList this)
      (fun c => if in_scope c msg then call_audio c msg handled else ret tt)
  else ret tt.

(** Stage 4, lines 119-124. *)
Definition any_stage (msg : Message) (handled : bool) : M unit :=
  this ← get;
  forEach (anyList this)
    (fun c => if in_scope c msg then call_any c msg handled else ret tt).

(** The body of the [try] of the message listener. *)
Definition message_stages (msg : Message) : M unit :=
  handled ← command_stage msg;
  handled ← regex_stage msg handled;
  audio_stage msg handled;;
  any_stage msg handled.

(** The listener of ['message'], lines 86-129. *)
Definition on_message (msg : Message) : M unit :=
  try_catch (message_stages msg)
    (fun error => sendError "message error" (Some error);; ret tt).

(** [answer.replace(/^!/, '')]. *)
Definition strip_bang (answer : string) : string :=
  match answer with
  | String c r => if Ascii.eqb c "!" then r else answer
  | EmptyString => EmptyString
  end.

Definition answer_text (answer : string) : option string :=
  match answer with
  | EmptyString => None
  | _ => Some (strip_bang answer)
  end.

Definition answer_show_alert (answer : string) : option bool :=
  match answer with
  | String c _ => if Ascii.eqb c "!" then Some true else None
  | EmptyString => None
  end.

(** [let answer = ''; if (typeof res === 'string') answer = res]. *)
Definition answer_of (res : ButtonResult) : string :=
  match res with
  | ResString s => s
  | _ => EmptyString
  end.

(** The branch of lines 138-148: the identifier is not in [buttonList]. *)
Definition unknown_button (query : CallbackQuery) : M unit :=
  deleteMessage (match query_message query with
                 | Some m => OneMessage m
                 | None => NoMessage
                 end);;
  msg ← match query_message query with
        | Some m =>
            if negb (msg_chat_id m =? 0) then
              p ← sendMessage (Literal "Sorry, an error has occurred") (msg_chat_id m);
              sent ← await p;
              ret (Some sent)
            else
              p ← sendError "Sorry, an error has occurred in an unknown query" None;
              await p
        | None =>
            p ← sendError "Sorry, an error has occurred in an unknown query" None;
            await p
        end;
  match msg with
  | Some sent => emit (Timer 3000);; deleteMessage (OneMessage sent);; ret tt
  | None => ret tt
  end.

(** The listener of ['callback_query'], lines 131-161. The [return] of
    line 147 leaves the listener: [answerCallbackQuery] is reached from
    the first branch only. *)
Definition on_callback_query (query : CallbackQuery) : M (Promise unit) :=
  async (
    try_catch (
      this ← get;
      if Js.truthy (Js.js_get (buttonList this) (query_data query)) then
        res ← match Js.js_get (buttonList this) (query_data query) with
              | Js.Own b =>
                  emit (CallButton (bc_name (btn_callback b)) query);;
                  lift (bc_run (btn_callback b) query)
              | _ => throw "TypeError: this.buttonList[query.data].callback is not a function"
              end;
        let answer := answer_of res in
        emit (CoreAnswerCallbackQuery (query_id query) (answer_text answer)
                (answer_show_alert answer))
      else unknown_button query)
    (fun error =>
       sendError ("query error with button " +:+ query_data query) (Some error);; ret tt)).

(** ** Bulk retraction, lines 454-474 *)

(** [exclude_msgs?.find(msg => this.messageEqual(msg, value))] is truthy. *)
Definition excluded (exclude_msgs : option (list Message)) (value : Message) : bool :=
  match exclude_msgs with
  | Some l => existsb (fun msg => messageEqual msg value) l
  | None => false
  end.

(** One turn of the [forEach] of lines 459-467, on the two local arrays. *)
Definition clear_step (idList : list Z) (exclude_msgs : option (list Message))
    (acc : list Message * list (Promise unit)) (value : Message)
    : M (list Message * list (Promise unit)) :=
  let '(newList, actions) := acc in
  if Js.includes_num idList (msg_chat_id value) then
    if negb (excluded exclude_msgs value) then
      p ← deleteMessage (OneMessage value);
      ret (newList, actions ++ [p])
    else ret (newList ++ [value], actions)
  else ret (newList, actions).

Definition clearMessages (chatIDs : ChatIDs) (exclude_msgs : option (list Message))
    : M (Promise unit) :=
  async (
    this ← get;
    let idList := to_ids chatIDs in
    acc ← foldM (messageList this) (clear_step idList exclude_msgs) ([], []);
    try_catch (await (Promise_all (snd acc));; ret tt) (fun _ => ret tt);;
    this' ← get;
    put (set_messageList (fst acc) this')).

(** ** Introspection and helpers, lines 241-257, 387-393 and 561-568 *)

(** [isCommand]. *)
Definition isCommand (msg : Message) (this : TeleWrapper) : bool :=
  if has_text msg then
    Js.truthy (Js.js_get (commandList this)
                 (Js.toLocaleLowerCase (extractCommand (text_of msg))))
  else false.

(** The loop of [isRegex], over [Object.entries(regexList)]: it answers at
    the first pattern that matches. *)
Fixpoint first_match (text : string) (entries : list (nat * IRegexCmd)) : bool :=
  match entries with
  | [] => false
  | entry :: rest =>
      match exec (regex (snd entry)) text with
      | Some _ => true
      | None => first_match text rest
      end
  end.

(** [isRegex]. *)
Definition isRegex (msg : Message) (this : TeleWrapper) : bool :=
  if has_text msg then first_match (text_of msg) (imap pair (regexList this))
  else false.

(** [String(n)] for an integer [n]. *)
Definition decimal (n : Z) : string := DecimalString.NilZero.string_of_int (Z.to_int n).

(** [TelegramBot.InlineKeyboardButton], as [iButton] fills it. *)
Record InlineKeyboardButton : Type := {
  ikb_text : string;
  ikb_callback_data : string
}.

(** The identifier [`btn_${counter}_t${time}`]. *)
Definition button_data (counter time : Z) : string :=
  "btn_" +:+ decimal counter +:+ "_t" +:+ decimal time.

(** [iButton]. The counter is a property of the function object, outside
    the wrapper ([undefined], read as 0, before the first call): it comes
    in as an argument and goes out with the result. [now] is
    [new Date().getTime()]. *)
Definition iButton (counter now : Z) (name : string) (action : ButtonCallback)
    : M (InlineKeyboardButton * Z) :=
  let counter' := counter + 1 in
  let data := button_data counter' now in
  onButton data action;;
  ret ({| ikb_text := name; ikb_callback_data := data |}, counter').

(** [botRunningTime], at the instant [now]: [new Date().getTime()]. The
    difference of the two time values, its quotient by 1000 and the
    quotients by 3600 and by 60 are rounded as binary64 values;
    [Math.floor] and [%] are exact. The three numbers are whole and print
    as integers. *)
Section RunningTime.

Import QArith Qround.
Local Open Scope Q_scope.

Definition passed (now : Z) (this : TeleWrapper) : Q :=
  Binary64.round (Binary64.round (inject_Z (now - startTime this)) / 1000).

Definition running_hours (now : Z) (this : TeleWrapper) : Z :=
  Qfloor (Binary64.round (passed now this / 3600)).

Definition running_minutes (now : Z) (this : TeleWrapper) : Z :=
  Qfloor (Binary64.round (Binary64.rem (passed now this) 3600 / 60)).

Definition running_seconds (now : Z) (this : TeleWrapper) : Z :=
  Qfloor (Binary64.rem (passed now this) 60).

End RunningTime.

Definition botRunningTime (now : Z) (this : TeleWrapper) : string :=
  "Bot status:" +:+ String (ascii_of_nat 10) "Running time: " +:+
  decimal (running_hours now this) +:+ " hours " +:+
  decimal (running_minutes now this) +:+ " minutes " +:+
  decimal (running_seconds now this) +:+ " seconds".

(** ** Derived notions used by the statements *)

(** Several sends in a row. *)
Definition append_all (msgs : list Message) : M unit := forEach msgs messageListAppend.

(** The ceiling of [n / 10], for [n >= 0]. *)
Definition ceil_tenth (n : Z) : Z := (n + 9) / 10.

(** Entries that [clearMessages] keeps, and entries it deletes. *)
Definition kept (idList : list Z) (exclude_msgs : option (list Message)) (value : Message) : bool :=
  Js.includes_num idList (msg_chat_id value) && excluded exclude_msgs value.

Definition retracted (idList : list Z) (exclude_msgs : option (list Message)) (value : Message) : bool :=
  Js.includes_num idList (msg_chat_id value) && negb (excluded exclude_msgs value).

(** The call [core.deleteMessage(chat.id, String(message_id))] and how it settles. *)
Definition delete_call (value : Message) : Effect :=
  CoreDeleteMessage (msg_chat_id value) (msg_message_id value).

Definition delete_settles (this : TeleWrapper) (value : Message) : Promise unit :=
  deleteMessage_settles (core this) (msg_chat_id value) (msg_message_id value).

(** A specification of a computation: from a state that satisfies the
    invariant [I] it ends in such a state, every call it records satisfies
    [P], and a value it returns satisfies [Q]. *)
Definition triple {A : Type} (I : TeleWrapper -> Prop) (P : Effect -> Prop)
    (m : M A) (Q : A -> Prop) : Prop :=
  forall this, I this ->
    I (final (m this)) /\
    Forall P (trace (m this)) /\
    (forall a, outcome (m this) = Returns a -> Q a).

Definition anything {A : Type} : A -> Prop := fun _ => True.

(** Calls of the platform client, of the logger and of the timer. *)
Definition is_io (e : Effect) : Prop :=
  match e with
  | LoggerLog _ | CoreSendMessage _ _ | CoreDeleteMessage _ _ | Timer _ => True
  | _ => False
  end.

(** What the gate can record: client and logger calls, and calls of the
    Invalid-handlers. *)
Definition gate_effect (e : Effect) : Prop :=
  match e with
  | CallInvalid _ _ _ => True
  | _ => is_io e
  end.

(** What the command stage and the pattern stage can record. *)
Definition command_effect (e : Effect) : Prop :=
  match e with
  | CallCommand _ _ _ | InvokeCommand _ _ => True
  | _ => gate_effect e
  end.

Definition regex_effect (e : Effect) : Prop :=
  match e with
  | CallRegex _ _ _ _ | InvokePattern _ _ _ _ => True
  | _ => gate_effect e
  end.

(** The event is stale for the wrapper: line 481. *)
Definition stale (msg : Message) (this : TeleWrapper) : Prop :=
  msg_date msg * 1000 < startTime this.

(** Calls of the callbacks that sit behind the gate. *)
Definition gated_call (e : Effect) : Prop :=
  match e with
  | CallCommand _ _ _ | CallRegex _ _ _ _ | CallInvalid _ _ _ => True
  | _ => False
  end.

(** The calls of catch-all handlers in a trace. *)
Definition is_call_any (e : Effect) : bool :=
  match e with
  | CallAny _ _ _ => true
  | _ => false
  end.

Definition any_calls (t : list Effect) : list Effect := List.filter is_call_any t.

(** No exception cuts the processing of the event short. *)
Definition completes (msg : Message) (this : TeleWrapper) : Prop :=
  outcome (message_stages msg this) = Returns tt.

(** The report of [reportInvalidCommand]: mirrored to the debug chat when
    one is set, then logged. *)
Definition report_text (msg : Message) (validChat : bool) : Text :=
  if validChat then UnsupportedChatReport msg else UnregisteredChatReport msg.

Definition report_effects (this : TeleWrapper) (msg : Message) (validChat : bool) : list Effect :=
  (if debugChat this =? 0 then []
   else [CoreSendMessage (debugChat this) (report_text msg validChat)]) ++
  [LoggerLog (report_text msg validChat)].

(** One round over the Invalid-handlers: the calls made, each with the
    flag it receives, and the flag after the last of them. A handler that
    throws ends the round. *)
Fixpoint invalid_round (l : list IInvalidCmd) (msg : Message) (handled : bool)
    : list Effect * bool :=
  match l with
  | [] => ([], handled)
  | c :: l' =>
      let call := CallInvalid (ic_name (inv_callback c)) msg handled in
      match ic_run (inv_callback c) msg handled with
      | Returns r =>
          let '(calls, final_flag) := invalid_round l' msg (r || handled) in
          (call :: calls, final_flag)
      | Throws _ => ([call], handled)
      end
  end.

(** The handler returns, whatever flag it is given. *)
Definition returns_for (msg : Message) (c : IInvalidCmd) : Prop :=
  forall handled, exists r, ic_run (inv_callback c) msg handled = Returns r.

(** The name under which a call of a user callback is recorded. *)
Definition callee (e : Effect) : option string :=
  match e with
  | CallCommand n _ _ | CallRegex n _ _ _ | CallAudio n _ _ | CallAny n _ _
  | CallInvalid n _ _ | CallButton n _ => Some n
  | _ => None
  end.

(** An acknowledgement of a callback query. *)
Definition is_answer (e : Effect) : Prop :=
  match e with
  | CoreAnswerCallbackQuery _ _ _ => True
  | _ => False
  end.

(** The case-folded token of the event, line 91. *)
Definition token_of (msg : Message) : string :=
  Js.toLocaleLowerCase (extractCommand (text_of msg)).

(** The calls of pattern descriptors in a trace. *)
Definition is_invoke_pattern (e : Effect) : bool :=
  match e with
  | InvokePattern _ _ _ _ => true
  | _ => false
  end.

Definition pattern_calls (t : list Effect) : list Effect := List.filter is_invoke_pattern t.

(** Not the call of a pattern descriptor. *)
Definition quiet (e : Effect) : Prop := is_invoke_pattern e = false.

(** The registered patterns that match the text, in registration order,
    each with its position and its match result. *)
Definition matching (msg : Message) (entries : list (nat * IRegexCmd))
    : list (nat * RegExpExecArray) :=
  omap (fun entry => pair (fst entry) <$> exec (regex (snd entry)) (text_of msg)) entries.

(** The calls of the matching patterns: the first one receives the flag
    [handled], the later ones receive [true]. *)
Definition invocations (msg : Message) (handled : bool)
    (found : list (nat * RegExpExecArray)) : list Effect :=
  match found with
  | [] => []
  | first :: later =>
      InvokePattern (fst first) msg handled (snd first) ::
      map (fun m => InvokePattern (fst m) msg true (snd m)) later
  end.

(** The gate lets the event through for the scope [ids]: lines 489-492. *)
Definition allowed (msg : Message) (ids : list Z) (this : TeleWrapper) : Prop :=
  msg_chat_id msg ∈ ids \/ (ids = [] /\ msg_chat_id msg ∈ getValidChats this).

(** [msg.text?.replace(/[^ ]+ ?/, '') ?? '']. *)
Definition content_of (msg : Message) : string :=
  match msg_text msg with
  | Some text => remove_first_token text
  | None => EmptyString
  end.

(** The authorized list is well formed: no chat twice, and never chat 0. *)
Definition wf_chats (this : TeleWrapper) : Prop :=
  NoDup (validChats this) /\ 0 ∉ validChats this.

(** The calls of audio handlers in a trace. *)
Definition is_call_audio (e : Effect) : bool :=
  match e with
  | CallAudio _ _ _ => true
  | _ => false
  end.

Definition audio_calls (t : list Effect) : list Effect := List.filter is_call_audio t.

(** The flag the audio and catch-all handlers receive, as [isCommand] and
    [isRegex] answer it. *)
Definition handled_flag (msg : Message) (this : TeleWrapper) : bool :=
  isCommand msg this || isRegex msg this.

(** What the listener can record for an event without text: calls of
    audio and catch-all handlers for this event with the flag unset, and
    the report of an exception. *)
Definition textless_effect (msg : Message) (e : Effect) : Prop :=
  match e with
  | CallAudio _ m h | CallAny _ m h => m = msg /\ h = false
  | LoggerLog (ErrorText _ _) | CoreSendMessage _ (ErrorText _ _) => True
  | _ => False
  end.

(** The wrapper keeps its debug chat and its identity. *)
Definition same_identity (this s : TeleWrapper) : Prop :=
  debugChat s = debugChat this /\ botInfo s = botInfo this.

(** What the routing of the event [msg] may ask of the client: a send to
    the debug chat, and the deletion of [msg] itself by a wrapper that
    knows its user name. *)
Definition routing_io (this : TeleWrapper) (msg : Message) (e : Effect) : Prop :=
  match e with
  | CoreSendMessage chat _ => chat = debugChat this /\ chat <> 0
  | CoreDeleteMessage chat id =>
      chat = msg_chat_id msg /\ id = msg_message_id msg /\ botInfo this <> None
  | CoreAnswerCallbackQuery _ _ _ | Timer _ => False
  | _ => True
  end.

(** The character [c] does not occur in [s]. *)
Fixpoint free_of (c : ascii) (s : string) : bool :=
  match s with
  | String a r => negb (Ascii.eqb a c) && free_of c r
  | EmptyString => true
  end.

(** Every descriptor that a read of [commandList] answers, an entry of
    its own or the object made its prototype, is answered under the
    case-folded form of its own token, and the token holds word
    characters only. *)
Definition wf_commands (this : TeleWrapper) : Prop :=
  forall key c, Js.js_get (commandList this) key = Js.Own c ->
    key = Js.toLocaleLowerCase (command c) /\ Js.has_non_word (command c) = false.

(** What [sendError] records: the entry of the log, and the send to the
    debug chat when one is set. *)
Definition error_effects (this : TeleWrapper) (text : string) (error : option string)
    : list Effect :=
  LoggerLog (ErrorText text error) ::
  (if debugChat this =? 0 then []
   else [CoreSendMessage (debugChat this) (ErrorText text error)]).

(** The gate lets the event through for the scope [ids]: the event is not
    older than the start (line 481), and its chat is in the scope, or the
    scope is empty and the chat is authorized (lines 489-492). *)
Definition gate_open (msg : Message) (ids : list Z) (this : TeleWrapper) : bool :=
  negb (msg_date msg * 1000 <? startTime this) &&
  (Js.includes_num ids (msg_chat_id msg) ||
   Js.includes_num (getValidChats this) (msg_chat_id msg) && (length ids =? 0)%nat).

(** The calls of command callbacks of the user in a trace. *)
Definition is_call_command (e : Effect) : bool :=
  match e with
  | CallCommand _ _ _ => true
  | _ => false
  end.

Definition command_calls (t : list Effect) : list Effect := List.filter is_call_command t.

(** The calls of pattern callbacks of the user in a trace. *)
Definition is_call_regex (e : Effect) : bool :=
  match e with
  | CallRegex _ _ _ _ => true
  | _ => false
  end.

Definition regex_calls (t : list Effect) : list Effect := List.filter is_call_regex t.

(** The registered patterns that match the text, in registration order,
    each as its descriptor and its match result. *)
Definition matches (msg : Message) (entries : list (nat * IRegexCmd))
    : list (IRegexCmd * RegExpExecArray) :=
  omap (fun entry => pair (snd entry) <$> exec (regex (snd entry)) (text_of msg)) entries.

(** The call of the user callback of a matching pattern, when the gate of
    the pattern lets the event through. *)
Definition callback_if_open (this : TeleWrapper) (msg : Message) (handled : bool)
    (found : IRegexCmd * RegExpExecArray) : list Effect :=
  if gate_open msg (rx_chatIDs (fst found)) this
  then [CallRegex (rc_name (rx_callback (fst found))) msg handled (snd found)]
  else [].

(** The calls of the user callbacks of the matching patterns: the first
    matching pattern carries the flag [handled], the later ones [true],
    and a pattern whose gate is closed is passed over. *)
Definition pattern_callbacks (this : TeleWrapper) (msg : Message) (handled : bool)
    (found : list (IRegexCmd * RegExpExecArray)) : list Effect :=
  match found with
  | [] => []
  | first :: later =>
      callback_if_open this msg handled first ++
      flat_map (callback_if_open this msg true) later
  end.

(** The gate reads the same in both states. *)
Definition same_gate (this s : TeleWrapper) : Prop :=
  startTime s = startTime this /\ validChats s = validChats this /\
  debugChat s = debugChat this.

(** Concrete objects for the examples. *)
Module Scenario.

Definition entry (chat id : Z) : Message :=
  {| msg_chat_id := chat; msg_message_id := id; msg_date := 2000; msg_text := None;
     msg_voice := false; msg_audio := false; msg_reply_to_username := None |}.

Definition entries (chat : Z) (k : nat) : list Message :=
  map (fun i => entry chat (Z.of_nat i)) (seq 1 k).

(** A client whose operations all succeed. *)
Definition client : TelegramBot :=
  {| sendMessage_settles := fun chat _ => Returns (entry chat 9000);
     deleteMessage_settles := fun _ _ => Returns tt |}.

(** A client whose deletions all fail. *)
Definition failing_client : TelegramBot :=
  {| sendMessage_settles := fun chat _ => Returns (entry chat 9000);
     deleteMessage_settles := fun _ _ => Throws "ETELEGRAM: 400 Bad Request" |}.

(** A wrapper started at second 1000. *)
Definition bot : TeleWrapper := new_TeleWrapper client 1000000.

Definition outbox (capacity : Z) : TeleWrapper := set_messageListLength capacity bot.

(** An outbox of three entries, on a client whose deletions fail. *)
Definition stored : TeleWrapper :=
  set_messageList [entry 1 10; entry 1 11; entry 2 20]
    (new_TeleWrapper failing_client 1000000).

Definition text_event (chat date : Z) (text : string) : Message :=
  {| msg_chat_id := chat; msg_message_id := 1; msg_date := date; msg_text := Some text;
     msg_voice := false; msg_audio := false; msg_reply_to_username := None |}.

Definition on_ping : CommandCallback :=
  {| cc_name := "on_ping"; cc_run := fun _ _ => Returns tt |}.

Definition catch_all : AnyCallback :=
  {| ac_name := "catch_all"; ac_run := fun _ _ => Returns tt |}.

(** [bot.onCommand('ping', 100, on_ping); bot.onAny([], catch_all)]. *)
Definition routed : TeleWrapper :=
  final ((onCommand "ping" (OneChat 100) on_ping None;;
          onAny (ChatList []) catch_all) bot).

(** An event queued one second before the start. *)
Definition queued_ping : Message := text_event 100 999 "/ping".

Definition on_invalid : InvalidCallback :=
  {| ic_name := "on_invalid"; ic_run := fun _ _ => Returns true |}.

Definition on_admin : CommandCallback :=
  {| cc_name := "on_admin"; cc_run := fun _ _ => Returns tt |}.

(** [bot.onCommand('ping', 100, on_ping); bot.onCommand('admin', 300, on_admin);
    bot.onInvalid(on_invalid)]. *)
Definition guarded : TeleWrapper :=
  final ((onCommand "ping" (OneChat 100) on_ping None;;
          onCommand "admin" (OneChat 300) on_admin None;;
          onInvalid on_invalid) bot).

Definition says_done : ButtonCallback :=
  {| bc_name := "says_done"; bc_run := fun _ => Returns (ResString "!done") |}.

Definition breaks : ButtonCallback :=
  {| bc_name := "breaks"; bc_run := fun _ => Throws "Error: boom" |}.

(** [routed], with two buttons. *)
Definition with_buttons : TeleWrapper :=
  final ((onButton "btn_1" says_done;; onButton "btn_2" breaks) routed).

(** A press of the button [data] under message 7 of chat 100. *)
Definition press (data : string) : CallbackQuery :=
  {| query_id := "q1"; query_data := data; query_message := Some (entry 100 7) |}.

(** A pattern that matches every text, with the whole text as its match. *)
Definition any_text : RegExp := {| exec := fun text => Some [text] |}.

Definition first_breaks : RegexCallback :=
  {| rc_name := "first_breaks"; rc_run := fun _ _ _ => Throws "Error: boom" |}.

Definition second : RegexCallback :=
  {| rc_name := "second"; rc_run := fun _ _ _ => Returns tt |}.

Definition third : RegexCallback :=
  {| rc_name := "third"; rc_run := fun _ _ _ => Returns tt |}.

(** [routed], with two patterns; the callback of the first one throws. *)
Definition with_broken_pattern : TeleWrapper :=
  final ((onRegex any_text (ChatList []) first_breaks EmptyString;;
          onRegex any_text (ChatList []) second EmptyString) routed).

(** [routed], with two patterns whose callbacks return. *)
Definition with_patterns : TeleWrapper :=
  final ((onRegex any_text (ChatList []) second EmptyString;;
          onRegex any_text (ChatList []) third EmptyString) routed).

(** [guarded], after [bot.removeValidChat(300)]: chat 300 is still the
    scope of ['admin'], and no longer authorized. *)
Definition revoked : TeleWrapper := final (removeValidChat 300 guarded).

Definition on_voice : AnyCallback :=
  {| ac_name := "on_voice"; ac_run := fun _ _ => Returns tt |}.

(** [routed], with an audio handler for chat 100. *)
Definition with_audio : TeleWrapper := final (onAudio (OneChat 100) on_voice routed).

(** A voice note: an event with a voice part and no text. *)
Definition voice_note (chat : Z) : Message :=
  {| msg_chat_id := chat; msg_message_id := 2; msg_date := 2000; msg_text := None;
     msg_voice := true; msg_audio := false; msg_reply_to_username := None |}.

End Scenario.

(** * Properties *)

(** ** Running computations *)

(** Equations for the run of a sequence, used to follow a method along
    one path. *)

Section Running.

Context {A B : Type}.

Lemma bind_returns (m : M A) (k : A -> M B) (this s : TeleWrapper) (a : A) (t : list Effect) :
  m this = {| outcome := Returns a; final := s; trace := t |} ->
  (m ≫= k) this =
    {| outcome := outcome (k a s); final := final (k a s); trace := t ++ trace (k a s) |}.
Proof. intros E. unfold mbind, M_bind, bind. by rewrite E. Qed.

End Running.

Section Binds.

Context {A B : Type} (m : M A) (k : A -> M B) (this : TeleWrapper).

Lemma get_bind (k' : TeleWrapper -> M B) : (get ≫= k') this = k' this this.
Proof. unfold mbind, M_bind, bind. cbn. by destruct (k' this this). Qed.

Lemma ret_bind (a : A) : (mret a ≫= k) this = k a this.
Proof. unfold mbind, M_bind, bind. cbn. by destruct (k a this). Qed.

Lemma outcome_bind (a : A) :
  outcome (m this) = Returns a ->
  outcome ((m ≫= k) this) = outcome (k a (final (m this))).
Proof. intros H. unfold mbind, M_bind, bind. by rewrite H. Qed.

Lemma trace_bind (a : A) :
  outcome (m this) = Returns a ->
  trace ((m ≫= k) this) = trace (m this) ++ trace (k a (final (m this))).
Proof. intros H. unfold mbind, M_bind, bind. by rewrite H. Qed.

Lemma final_bind (a : A) :
  outcome (m this) = Returns a ->
  final ((m ≫= k) this) = final (k a (final (m this))).
Proof. intros H. unfold mbind, M_bind, bind. by rewrite H. Qed.

End Binds.

Lemma bind_inv {A B : Type} (m : M A) (k : A -> M B) (this : TeleWrapper) (b : B) :
  outcome ((m ≫= k) this) = Returns b ->
  exists a,
    outcome (m this) = Returns a /\
    outcome (k a (final (m this))) = Returns b /\
    trace ((m ≫= k) this) = trace (m this) ++ trace (k a (final (m this))) /\
    final ((m ≫= k) this) = final (k a (final (m this))).
Proof.
  unfold mbind, M_bind, bind. destruct (outcome (m this)) as [a|e]; cbn.
  - intros H. exists a. by repeat split.
  - discriminate.
Qed.

Lemma try_catch_returns {A : Type} (m : M A) (h : string -> M A) (this : TeleWrapper) (a : A) :
  outcome (m this) = Returns a -> try_catch m h this = m this.
Proof. intros H. unfold try_catch. by rewrite H. Qed.

Lemma elem_trace_bind {A B : Type} (m : M A) (k : A -> M B) (this : TeleWrapper) (e : Effect) :
  e ∈ trace (m this) -> e ∈ trace ((m ≫= k) this).
Proof.
  intros H. unfold mbind, M_bind, bind. destruct (outcome (m this)); cbn; [|done].
  apply elem_of_app. by left.
Qed.

Lemma elem_trace_bind_r {A B : Type} (m : M A) (k : A -> M B) (this : TeleWrapper)
    (a : A) (e : Effect) :
  outcome (m this) = Returns a ->
  e ∈ trace (k a (final (m this))) ->
  e ∈ trace ((m ≫= k) this).
Proof.
  intros Ha H. unfold mbind, M_bind, bind. rewrite Ha. cbn.
  apply elem_of_app. by right.
Qed.

Lemma elem_trace_try_catch {A : Type} (m : M A) (h : string -> M A) (this : TeleWrapper)
    (e : Effect) :
  e ∈ trace (m this) -> e ∈ trace (try_catch m h this).
Proof.
  intros H. unfold try_catch. destruct (outcome (m this)); cbn; [done|].
  apply elem_of_app. by left.
Qed.

(** ** Reasoning rules *)

(** Rules for [triple], used to bound what a method can record on every
    path and to carry an invariant of the state across it. *)

Section Rules.

Context (I : TeleWrapper -> Prop) (P : Effect -> Prop).

Lemma triple_ret {A : Type} (a : A) (Q : A -> Prop) : Q a -> triple I P (mret a) Q.
Proof. intros H this HI. cbn. repeat split; [done | constructor |]. by intros ? [= <-]. Qed.

Lemma triple_throw {A : Type} (e : string) (Q : A -> Prop) : triple I P (throw e) Q.
Proof. intros this HI. cbn. repeat split; [done | constructor | discriminate]. Qed.

Lemma triple_get : triple I P get I.
Proof. intros this HI. cbn. repeat split; [done | constructor |]. by intros ? [= <-]. Qed.

Lemma triple_put (this' : TeleWrapper) : I this' -> triple I P (put this') anything.
Proof. intros H this HI. cbn. repeat split; [done | constructor]. Qed.

Lemma triple_lift {A : Type} (o : Outcome A) :
  triple I P (lift o) (fun a => o = Returns a).
Proof. intros this HI. cbn. repeat split; [done | constructor | by intros a ->]. Qed.

Lemma triple_emit (e : Effect) : P e -> triple I P (emit e) anything.
Proof. intros H this HI. cbn. repeat split; [done | by repeat constructor]. Qed.

Lemma triple_bind {A B : Type} (m : M A) (k : A -> M B) (Q : A -> Prop) (Q' : B -> Prop) :
  triple I P m Q -> (forall a, Q a -> triple I P (k a) Q') -> triple I P (m ≫= k) Q'.
Proof.
  intros Hm Hk this HI. unfold mbind, M_bind, bind.
  destruct (Hm this HI) as (HI1 & HP1 & HQ1).
  destruct (outcome (m this)) as [a|e]; cbn.
  - destruct (Hk a (HQ1 a eq_refl) _ HI1) as (HI2 & HP2 & HQ2).
    repeat split; [done | by apply Forall_app | done].
  - repeat split; [done | done | discriminate].
Qed.

Lemma triple_try_catch {A : Type} (m : M A) (h : string -> M A) (Q : A -> Prop) :
  triple I P m Q -> (forall e, triple I P (h e) Q) -> triple I P (try_catch m h) Q.
Proof.
  intros Hm Hh this HI. unfold try_catch.
  destruct (Hm this HI) as (HI1 & HP1 & HQ1).
  destruct (outcome (m this)) as [a|e] eqn:E; cbn.
  - repeat split; [done | done |]. rewrite E. done.
  - destruct (Hh e _ HI1) as (HI2 & HP2 & HQ2).
    repeat split; [done | by apply Forall_app | done].
Qed.

Lemma triple_async {A : Type} (m : M A) (Q : A -> Prop) :
  triple I P m Q -> triple I P (async m) anything.
Proof. intros Hm this HI. destruct (Hm this HI) as (? & ? & _). by repeat split. Qed.

Lemma triple_forEach {A : Type} (l : list A) (f : A -> M unit) :
  (forall x, triple I P (f x) anything) -> triple I P (forEach l f) anything.
Proof.
  intros Hf. induction l as [|x l IH]; cbn [forEach].
  - by apply triple_ret.
  - eapply triple_bind; [apply Hf | intros _ _; apply IH].
Qed.

Lemma triple_foldM {A S : Type} (l : list A) (f : S -> A -> M S) (s : S) (Q : S -> Prop) :
  (forall s x, Q s -> triple I P (f s x) Q) -> Q s -> triple I P (foldM l f s) Q.
Proof.
  intros Hf. revert s. induction l as [|x l IH]; intros s Hs; cbn [foldM].
  - by apply triple_ret.
  - eapply triple_bind; [by apply Hf | intros s' Hs'; by apply IH].
Qed.

Lemma triple_post {A : Type} (m : M A) (Q Q' : A -> Prop) :
  (forall a, Q a -> Q' a) -> triple I P m Q -> triple I P m Q'.
Proof.
  intros H Hm this HI. destruct (Hm this HI) as (? & ? & HQ).
  repeat split; [done | done |]. intros a Ha. by apply H, HQ.
Qed.

Lemma triple_forget {A : Type} (m : M A) (Q : A -> Prop) :
  triple I P m Q -> triple I P m anything.
Proof. by apply triple_post. Qed.

End Rules.

(** One step along the structure of the computation. *)
Ltac triple_step :=
  lazymatch goal with
  | |- triple _ _ (mret _) ?Q =>
      first [ is_evar Q; apply (triple_ret _ _ _ anything); exact Logic.I
            | apply triple_ret; first [exact Logic.I | done | idtac] ]
  | |- triple _ _ (ret _) ?Q =>
      first [ is_evar Q; apply (triple_ret _ _ _ anything); exact Logic.I
            | apply triple_ret; first [exact Logic.I | done | idtac] ]
  | |- triple _ _ (throw _) ?Q =>
      first [ is_evar Q; apply (triple_throw _ _ _ anything) | apply triple_throw ]
  | |- triple _ _ get _ => first [apply triple_get | eapply triple_forget, triple_get]
  | |- triple _ _ (put _) _ => apply triple_put
  | |- triple _ _ (lift _) _ => first [apply triple_lift | eapply triple_forget, triple_lift]
  | |- triple _ _ (await _) _ => first [apply triple_lift | eapply triple_forget, triple_lift]
  | |- triple _ _ (emit _) _ => apply triple_emit; cbn; try tauto
  | |- triple _ _ (_ ≫= _) _ => eapply triple_bind; [|intros ? ?]
  | |- triple _ _ (try_catch _ _) _ => apply triple_try_catch; [|intros ?]
  | |- triple _ _ (async _) _ => eapply triple_async
  | |- triple _ _ (forEach _ _) _ => apply triple_forEach; intros ?
  | |- triple _ _ (foldM _ _ _) _ =>
      eapply triple_forget, (triple_foldM _ _ _ _ _ anything); [intros ? ? _ | exact Logic.I]
  | |- triple _ _ (if ?b then _ else _) _ => destruct b eqn:?
  | |- triple _ _ (match ?x with _ => _ end) _ => destruct x eqn:?
  end.

Ltac triples := repeat triple_step.

(** ** Messaging and the gate, for a generic invariant *)

Section Methods.

Context (I : TeleWrapper -> Prop) (P : Effect -> Prop).

(** The invariant does not read the outbox, and [P] holds of the calls of
    the client and of the logger. *)
Hypothesis I_outbox : forall l this, I this -> I (set_messageList l this).
Hypothesis P_io : forall e, is_io e -> P e.

Lemma messageListAppend_triple msg : triple I P (messageListAppend msg) anything.
Proof. unfold messageListAppend. triples. by apply I_outbox. Qed.

Lemma sendError_triple text error : triple I P (sendError text error) anything.
Proof.
  unfold sendError. triples; try (apply P_io; exact Logic.I).
  apply messageListAppend_triple.
Qed.

Lemma sendMessage_triple text chat : triple I P (sendMessage text chat) anything.
Proof.
  unfold sendMessage, sendMessageBase. triples; try (apply P_io; exact Logic.I).
  - apply messageListAppend_triple.
  - apply sendError_triple.
Qed.

Lemma deleteMessage_triple arg : triple I P (deleteMessage arg) anything.
Proof.
  unfold deleteMessage, deleteMessage_single.
  triples; try (apply P_io; exact Logic.I).
Qed.

Lemma deleteIfMentioned_triple msg : triple I P (deleteIfMentioned msg) anything.
Proof. unfold deleteIfMentioned. triples. apply deleteMessage_triple. Qed.

Lemma reportInvalidCommand_triple msg valid :
  triple I P (reportInvalidCommand msg valid) anything.
Proof.
  unfold reportInvalidCommand. triples; try (apply P_io; exact Logic.I).
  apply sendMessage_triple.
Qed.

Lemma validCommand_triple msg chatIDs rx :
  (forall e, gate_effect e -> P e) ->
  triple I P (validCommand msg chatIDs rx) anything.
Proof.
  intros HP. unfold validCommand, invalid_step, call_invalid.
  triples; try (apply HP; exact Logic.I).
  apply reportInvalidCommand_triple.
Qed.

Lemma commandBase_triple chatIDs callback msg :
  (forall e, gate_effect e -> P e) ->
  (forall n m c, P (CallCommand n m c)) ->
  triple I P (commandBase chatIDs callback msg) anything.
Proof.
  intros HP HC. unfold commandBase, call_command.
  triples; try apply HC. by apply validCommand_triple.
Qed.

Lemma regexBase_triple chatIDs callback msg handled result :
  (forall e, gate_effect e -> P e) ->
  (forall n m h r, P (CallRegex n m h r)) ->
  triple I P (regexBase chatIDs callback msg handled result) anything.
Proof.
  intros HP HC. unfold regexBase, call_regex.
  triples; try apply HC. by apply validCommand_triple.
Qed.

Lemma command_stage_triple msg :
  (forall e, command_effect e -> P e) ->
  triple I P (command_stage msg) anything.
Proof.
  intros HP. unfold command_stage, ICommand_callback.
  triples; try (apply HP; exact Logic.I).
  - apply deleteIfMentioned_triple.
  - apply commandBase_triple; intros; apply HP; [by destruct e | exact Logic.I].
Qed.

Lemma regex_step_triple msg handled entry :
  (forall e, regex_effect e -> P e) ->
  triple I P (regex_step msg handled entry) anything.
Proof.
  intros HP. unfold regex_step, IRegexCmd_callback.
  triples; try (apply HP; exact Logic.I).
  - apply deleteIfMentioned_triple.
  - apply regexBase_triple; intros; apply HP; [by destruct e | exact Logic.I].
Qed.

Lemma regex_stage_triple msg handled :
  (forall e, regex_effect e -> P e) ->
  triple I P (regex_stage msg handled) anything.
Proof.
  intros HP. unfold regex_stage. triples. by apply regex_step_triple.
Qed.

Lemma audio_stage_triple msg handled :
  (forall n m h, P (CallAudio n m h)) ->
  triple I P (audio_stage msg handled) anything.
Proof. intros HP. unfold audio_stage, call_audio. triples; apply HP. Qed.

Lemma any_stage_triple msg handled :
  (forall n m h, P (CallAny n m h)) ->
  triple I P (any_stage msg handled) anything.
Proof. intros HP. unfold any_stage, call_any. triples; apply HP. Qed.

Lemma unknown_button_triple query : triple I P (unknown_button query) anything.
Proof.
  unfold unknown_button.
  triples; try (apply P_io; exact Logic.I);
    first [apply deleteMessage_triple | apply sendMessage_triple | apply sendError_triple].
Qed.

(** *** Stale events *)

Section Stale.

Context (msg : Message).
Hypothesis I_stale : forall this, I this -> stale msg this.

Lemma validCommand_stale chatIDs rx :
  triple I P (validCommand msg chatIDs rx) (fun ok => ok = false).
Proof.
  unfold validCommand. eapply triple_bind; [apply triple_get|].
  intros this Hthis. apply I_stale in Hthis. unfold stale in Hthis.
  destruct (Z.ltb_spec (msg_date msg * 1000) (startTime this)); [|lia].
  triples. apply P_io. exact Logic.I.
Qed.

Lemma commandBase_stale chatIDs callback :
  triple I P (commandBase chatIDs callback msg) anything.
Proof.
  unfold commandBase. eapply triple_bind; [apply validCommand_stale|].
  intros ok ->. cbn. triples.
Qed.

Lemma regexBase_stale chatIDs callback handled result :
  triple I P (regexBase chatIDs callback msg handled result) anything.
Proof.
  unfold regexBase. eapply triple_bind; [apply validCommand_stale|].
  intros ok ->. cbn. triples.
Qed.

Lemma command_stage_stale :
  (forall k m, P (InvokeCommand k m)) ->
  triple I P (command_stage msg) anything.
Proof.
  intros HP. unfold command_stage, ICommand_callback.
  triples; try apply HP.
  - apply deleteIfMentioned_triple.
  - apply commandBase_stale.
Qed.

Lemma regex_stage_stale handled :
  (forall k m h r, P (InvokePattern k m h r)) ->
  triple I P (regex_stage msg handled) anything.
Proof.
  intros HP. unfold regex_stage, regex_step, IRegexCmd_callback.
  triples; try apply HP.
  - apply deleteIfMentioned_triple.
  - apply regexBase_stale.
Qed.

End Stale.

End Methods.

(** ** The scenarios of the specification *)

(** ['ping'] is registered for chat 100; the event [/ping] of chat 100,
    after the start, reaches the handler with the content [''] (and the
    catch-all handler sees it as handled). *)
Example scenario_ping :
  let event := Scenario.text_event 100 2000 "/ping" in
  trace (on_message event Scenario.routed) =
    [ InvokeCommand "ping" event;
      CallCommand "on_ping" event EmptyString;
      CallAny "catch_all" event true ].
Proof. vm_compute. reflexivity. Qed.

(** The same event from chat 999: the handler is not called and the
    unregistered-chat report is logged. *)
Example scenario_stranger :
  let event := Scenario.text_event 999 2000 "/ping" in
  trace (on_message event Scenario.routed) =
    [ InvokeCommand "ping" event;
      LoggerLog (UnregisteredChatReport event);
      CallAny "catch_all" event true ].
Proof. vm_compute. reflexivity. Qed.

(** The text after the token is the content; upper case in the event is
    folded before the lookup. *)
Example scenario_content :
  let event := Scenario.text_event 100 2000 "/PING now please" in
  trace (on_message event Scenario.routed) =
    [ InvokeCommand "ping" event;
      CallCommand "on_ping" event "now please";
      CallAny "catch_all" event true ].
Proof. vm_compute. reflexivity. Qed.

(** ** The command token *)

Section CommandToken.

Lemma take_word_token (t rest : string) :
  Js.all_word t = true ->
  Js.take_word (t +:+ String " " rest) = t.
Proof.
  induction t as [|c t IH]; simpl; intros H.
  - reflexivity.
  - apply andb_prop in H as [Hc Ht]. rewrite Hc. f_equal. auto.
Qed.

Lemma take_word_nonempty (t rest : string) :
  Js.word_token t = true ->
  exists c w, Js.take_word (t +:+ String " " rest) = String c w.
Proof.
  destruct t as [|c t]; simpl; [discriminate|].
  intros H. apply andb_prop in H as [Hc _]. rewrite Hc. eauto.
Qed.

Lemma extractCommand_token (t rest : string) :
  Js.word_token t = true ->
  extractCommand ("/" +:+ t +:+ " " +:+ rest) = t.
Proof.
  intros H.
  change ("/" +:+ t +:+ " " +:+ rest) with (String "/" (t +:+ String " " rest)).
  unfold extractCommand, Js.exec_command_regex.
  destruct (take_word_nonempty t rest H) as (c & w & E).
  assert (Ha : Js.all_word t = true) by (destruct t; [discriminate | exact H]).
  pose proof (take_word_token t rest Ha) as E'.
  rewrite E in *. simpl. exact E'.
Qed.

Lemma extractCommand_no_slash (text : string) :
  Js.starts_with "/" text = false ->
  extractCommand text = EmptyString.
Proof.
  unfold extractCommand, Js.exec_command_regex.
  destruct text as [|c r]; [reflexivity|]. intros H.
  destruct c as [[] [] [] [] [] [] [] []]; try reflexivity.
  simpl in H. destruct r; discriminate H.
Qed.

Example extractCommand_keeps_case : extractCommand "/Ping rest" = "Ping".
Proof. reflexivity. Qed.

Example extractCommand_stops_at_mention : extractCommand "/ping@my_bot now" = "ping".
Proof. reflexivity. Qed.

Example extractCommand_bare_slash : extractCommand "/ ping" = EmptyString.
Proof. reflexivity. Qed.

Example extractCommand_inner_slash : extractCommand "say /ping" = EmptyString.
Proof. reflexivity. Qed.

End CommandToken.

(** C10. For every token [t] of word characters (so that ["/" + t] is
    matched by [^/\w+]), [extractCommand("/" + t + " " + rest)] is [t]
    itself, with its letter case; for every text that does not start with
    [/] the result is the empty string. [extractCommand] is a function of
    its argument alone: it neither reads nor writes the object state and
    makes no observable call. *)
Theorem extractCommand_spec (t rest text : string) :
  (Js.word_token t = true -> extractCommand ("/" +:+ t +:+ " " +:+ rest) = t) /\
  (Js.starts_with "/" text = false -> extractCommand text = EmptyString).
Proof.
  split; [apply extractCommand_token | apply extractCommand_no_slash].
Qed.

Lemma extractCommand_spec_witness :
  extractCommand "/PingPong_7 rest" = "PingPong_7" /\
  extractCommand "hello /ping" = EmptyString.
Proof.
  split.
  - apply (proj1 (extractCommand_spec "PingPong_7" "rest" EmptyString)). reflexivity.
  - apply (proj2 (extractCommand_spec EmptyString EmptyString "hello /ping")). reflexivity.
Defined.

(** ** Registration of commands *)

Lemma addValidChat_returns (chatID : Z) (this : TeleWrapper) :
  outcome (addValidChat chatID this) = Returns tt.
Proof.
  unfold addValidChat. rewrite get_bind.
  destruct (chatID =? 0); [done|].
  destruct (negb (Js.includes_num (validChats this) chatID)); done.
Qed.

Lemma onBase_returns (chatIDs : ChatIDs) (this : TeleWrapper) :
  outcome (onBase chatIDs this) = Returns tt.
Proof.
  unfold onBase. rewrite get_bind.
  generalize (getValidChats this) as copy, (debugChat this =? 0) as live.
  intros copy live. revert this.
  induction (to_ids chatIDs) as [|id ids IH]; intros s; [done|].
  cbn [forEach].
  assert (Hstep : outcome ((get ≫= fun this' =>
                    let valids := if live then validChats this' else copy in
                    if negb (Js.includes_num valids id) then addValidChat id else mret tt) s)
                  = Returns tt).
  { rewrite get_bind. cbn zeta.
    destruct (negb _); [apply addValidChat_returns | done]. }
  rewrite (outcome_bind _ _ _ tt Hstep). apply IH.
Qed.

Lemma onBase_commandList (chatIDs : ChatIDs) (this : TeleWrapper) :
  commandList (final (onBase chatIDs this)) = commandList this.
Proof.
  set (I := fun s => commandList s = commandList this).
  assert (HI : forall l s, I s -> I (set_messageList l s)) by done.
  assert (H : triple I (fun _ => True) (onBase chatIDs) anything).
  { unfold onBase, addValidChat. triples; try done. by apply sendError_triple. }
  by destruct (H this eq_refl) as (? & _).
Qed.

(** What [onCommand] does to [commandList]: the duplicate check reads the
    key as given, the store writes the case-folded key. *)
Lemma onCommand_commandList (name : string) (chatIDs : ChatIDs) (callback : CommandCallback)
    (desc : option string) (this : TeleWrapper) :
  commandList (final (onCommand name chatIDs callback desc this)) =
    if Js.has_non_word name || Js.truthy (Js.js_get (commandList this) name)
    then commandList this
    else <[Js.toLocaleLowerCase name :=
             {| command := name; cmd_chatIDs := to_ids chatIDs;
                cmd_desc := default "(empty)" desc; cmd_callback := callback |}]>
           (commandList this).
Proof.
  unfold onCommand.
  rewrite (final_bind _ _ _ tt (onBase_returns chatIDs this)), get_bind.
  rewrite onBase_commandList.
  destruct (Js.has_non_word name); cbn [orb].
  - apply onBase_commandList.
  - destruct (Js.truthy _).
    + apply onBase_commandList.
    + reflexivity.
Qed.

(** C2 fails on the code. ['Ping'] is registered, then registered again:
    the second call is not rejected (nothing is logged) and the stored
    descriptor is the one of the second call. *)
Theorem onCommand_case_variant_replaces :
  let first := onCommand "Ping" (OneChat 100) Scenario.on_ping (Some "first") in
  let again := onCommand "Ping" (OneChat 100) Scenario.on_admin (Some "second") in
  commandList (final (first Scenario.bot)) !! "ping" =
    Some {| command := "Ping"; cmd_chatIDs := [100]; cmd_desc := "first";
            cmd_callback := Scenario.on_ping |} /\
  trace ((first;; again) Scenario.bot) = [] /\
  commandList (final ((first;; again) Scenario.bot)) !! "ping" =
    Some {| command := "Ping"; cmd_chatIDs := [100]; cmd_desc := "second";
            cmd_callback := Scenario.on_admin |}.
Proof. repeat split; vm_compute; reflexivity. Qed.

(** The duplicate check does its work when the second token is already in
    lower case. *)
Lemma onCommand_folded_duplicate_rejected :
  let first := onCommand "Ping" (OneChat 100) Scenario.on_ping (Some "first") in
  let again := onCommand "ping" (OneChat 100) Scenario.on_admin (Some "second") in
  trace ((first;; again) Scenario.bot) =
    [LoggerLog (Literal "Command 'ping' already exists")] /\
  commandList (final ((first;; again) Scenario.bot)) !! "ping" =
    Some {| command := "Ping"; cmd_chatIDs := [100]; cmd_desc := "first";
            cmd_callback := Scenario.on_ping |}.
Proof. repeat split; vm_compute; reflexivity. Qed.

(** ** The authorization gate *)

Section Gate.

Context (this : TeleWrapper) (msg : Message).

Lemma debugChat_valid : debugChat this <> 0 ->
  Js.includes_num (getValidChats this) (debugChat this) = true.
Proof.
  intros H. unfold getValidChats, Js.includes_num.
  destruct (Z.eqb_spec (debugChat this) 0); [done|].
  apply bool_decide_eq_true. left.
Qed.

Lemma sendMessage_debug_run (text : Text) :
  debugChat this <> 0 ->
  trace (sendMessage text (debugChat this) this) = [CoreSendMessage (debugChat this) text] /\
  exists p, outcome (sendMessage text (debugChat this) this) = Returns p.
Proof.
  intros H. unfold sendMessage, sendMessageBase, async, mbind, M_bind, bind. cbn.
  rewrite (debugChat_valid H). cbn.
  destruct (sendMessage_settles (core this) (debugChat this) text); cbn; eauto.
Qed.

Lemma reportInvalidCommand_run (validChat : bool) :
  outcome (reportInvalidCommand msg validChat this) = Returns tt /\
  trace (reportInvalidCommand msg validChat this) = report_effects this msg validChat.
Proof.
  unfold reportInvalidCommand, report_effects. fold (report_text msg validChat).
  rewrite get_bind.
  destruct (Z.eqb_spec (debugChat this) 0) as [E|E]; cbn [negb].
  - by rewrite ret_bind.
  - destruct (sendMessage_debug_run (report_text msg validChat) E) as (Ht & p & Hp).
    rewrite (outcome_bind _ _ _ tt), (trace_bind _ _ _ tt).
    + rewrite (trace_bind _ _ _ p Hp), Ht. done.
    + by rewrite (outcome_bind _ _ _ p Hp).
    + by rewrite (outcome_bind _ _ _ p Hp).
Qed.

Lemma invalid_loop_run (l : list IInvalidCmd) (handled : bool) (s : TeleWrapper) :
  Forall (returns_for msg) l ->
  foldM l (invalid_step msg) handled s =
  {| outcome := Returns (snd (invalid_round l msg handled));
     final := s;
     trace := fst (invalid_round l msg handled) |}.
Proof.
  intros Hl. revert handled. induction Hl as [|c l Hc _ IH]; intros handled; [done|].
  destruct (Hc handled) as [r Hr]. cbn [foldM invalid_round]. rewrite Hr.
  assert (Hstep : invalid_step msg handled c s =
            {| outcome := Returns (r || handled); final := s;
               trace := [CallInvalid (ic_name (inv_callback c)) msg handled] |}).
  { unfold invalid_step, call_invalid, mbind, M_bind, bind. cbn. by rewrite Hr. }
  rewrite (bind_returns _ _ _ _ _ _ Hstep), IH.
  by destruct (invalid_round l msg (r || handled)).
Qed.

Lemma invalid_round_callees (l : list IInvalidCmd) (handled : bool) :
  Forall (returns_for msg) l ->
  map callee (fst (invalid_round l msg handled)) =
  map (fun c => Some (ic_name (inv_callback c))) l.
Proof.
  intros Hl. revert handled. induction Hl as [|c l Hc _ IH]; intros handled; [done|].
  destruct (Hc handled) as [r Hr]. cbn [invalid_round]. rewrite Hr.
  specialize (IH (r || handled)).
  destruct (invalid_round l msg (r || handled)). cbn in *. by rewrite IH.
Qed.

(** The flag after the round is the disjunction of the incoming flag and
    of the results, for handlers whose result does not depend on the flag
    they are given. *)
Lemma invalid_round_or (l : list IInvalidCmd) (handled : bool) (result : IInvalidCmd -> bool) :
  Forall (fun c => forall h, ic_run (inv_callback c) msg h = Returns (result c)) l ->
  snd (invalid_round l msg handled) = handled || existsb result l.
Proof.
  intros Hl. revert handled. induction Hl as [|c l Hc _ IH]; intros handled.
  - cbn. by rewrite orb_false_r.
  - cbn [invalid_round existsb]. rewrite Hc. specialize (IH (result c || handled)).
    destruct (invalid_round l msg (result c || handled)). cbn in *. rewrite IH.
    by destruct (result c), handled, (existsb result l).
Qed.

End Gate.

(** C4, as the code has it, for an event that is not stale and whose chat
    is outside the scope of the handler. (a) When the chat is not
    authorized, every Invalid-handler is called, in registration order,
    each with the flag so far; their results are OR-ed; the report is
    emitted exactly when the combined flag is false; the gate answers
    false. This needs the handlers to return rather than throw. (b) When
    the chat is authorized, the scope is not empty and pattern mode is
    unset, no Invalid-handler is called: the report is always emitted and
    the gate answers false. *)
Theorem gate_rejection (this : TeleWrapper) (msg : Message) (chatIDs : ChatIDs)
    (regex : bool) :
  ~ stale msg this ->
  msg_chat_id msg ∉ to_ids chatIDs ->
  let r := validCommand msg chatIDs regex this in
  (msg_chat_id msg ∉ getValidChats this ->
   Forall (returns_for msg) (invalidList this) ->
   let round := invalid_round (invalidList this) msg false in
   outcome r = Returns false /\
   trace r = fst round ++ (if snd round then [] else report_effects this msg false) /\
   map callee (fst round) = map (fun c => Some (ic_name (inv_callback c))) (invalidList this))
  /\
  (msg_chat_id msg ∈ getValidChats this ->
   to_ids chatIDs <> [] ->
   regex = false ->
   outcome r = Returns false /\
   trace r = report_effects this msg true).
Proof.
  intros Hfresh Hscope r. subst r. unfold validCommand. rewrite get_bind.
  unfold stale in Hfresh.
  destruct (Z.ltb_spec (msg_date msg * 1000) (startTime this)); [lia|].
  assert (Hids : Js.includes_num (to_ids chatIDs) (msg_chat_id msg) = false)
    by (by apply bool_decide_eq_false).
  rewrite Hids. split.
  - intros Hvalid Hreturn.
    set (round := invalid_round (invalidList this) msg false).
    assert (Hv : Js.includes_num (getValidChats this) (msg_chat_id msg) = false)
      by (by apply bool_decide_eq_false).
    rewrite Hv. cbn [andb negb].
    pose proof (invalid_loop_run msg (invalidList this) false this Hreturn) as Hloop.
    fold round in Hloop.
    rewrite (bind_returns _ _ _ _ _ _ Hloop). cbn [outcome trace].
    split; [|split; [|by apply invalid_round_callees]].
    + destruct (snd round); cbn [negb].
      * by rewrite ret_bind.
      * erewrite outcome_bind by apply reportInvalidCommand_run. done.
    + f_equal. destruct (snd round); cbn [negb].
      * by rewrite ret_bind.
      * erewrite trace_bind by apply reportInvalidCommand_run.
        rewrite (proj2 (reportInvalidCommand_run _ _ _)). cbn. by rewrite app_nil_r.
  - intros Hvalid Hne ->.
    assert (Hv : Js.includes_num (getValidChats this) (msg_chat_id msg) = true)
      by (by apply bool_decide_eq_true).
    rewrite Hv. cbn [andb negb].
    destruct (to_ids chatIDs) as [|i ids] eqn:E; [done|]. cbn [length Nat.eqb].
    rewrite ret_bind. cbn [negb].
    split.
    + erewrite outcome_bind by apply reportInvalidCommand_run. done.
    + erewrite trace_bind by apply reportInvalidCommand_run.
      rewrite (proj2 (reportInvalidCommand_run _ _ _)). cbn. by rewrite app_nil_r.
Qed.


Lemma gate_rejection_witness :
  let stranger := Scenario.text_event 999 2000 "/admin" in
  let member := Scenario.text_event 100 2000 "/admin" in
  (outcome (validCommand stranger (ChatList [300]) false Scenario.guarded) = Returns false /\
   trace (validCommand stranger (ChatList [300]) false Scenario.guarded) =
     [CallInvalid "on_invalid" stranger false]) /\
  (outcome (validCommand member (ChatList [300]) false Scenario.guarded) = Returns false /\
   trace (validCommand member (ChatList [300]) false Scenario.guarded) =
     [LoggerLog (UnsupportedChatReport member)]).
Proof.
  assert (Hfresh : forall chat, ~ stale (Scenario.text_event chat 2000 "/admin") Scenario.guarded)
    by (intros chat H; vm_compute in H; discriminate H).
  assert (Hscope : forall chat, chat <> 300 -> chat ∉ to_ids (ChatList [300])).
  { intros chat Hne Hin. apply list_elem_of_singleton in Hin. contradiction. }
  assert (H999 : 999 <> 300) by lia.
  assert (H100 : 100 <> 300) by lia.
  split.
  - destruct (proj1 (gate_rejection Scenario.guarded (Scenario.text_event 999 2000 "/admin")
                       (ChatList [300]) false (Hfresh 999) (Hscope 999 H999)))
      as (Hout & Htrace & _).
    + vm_compute. intros Hin. apply list_elem_of_In in Hin. cbn in Hin. intuition lia.
    + repeat constructor. intros handled. by exists true.
    + split; [exact Hout | exact Htrace].
  - apply (proj2 (gate_rejection Scenario.guarded (Scenario.text_event 100 2000 "/admin")
                    (ChatList [300]) false (Hfresh 100) (Hscope 100 H100))).
    + apply list_elem_of_In. vm_compute. auto.
    + discriminate.
    + reflexivity.
Defined.

(** C4 as stated fails. Case (b): chat 100 is authorized and outside the
    scope [[300]], an Invalid-handler is registered, and the gate does not
    call it. Case (a): chat 300 is not authorized but is in the scope, and
    the gate lets its event through. *)
Lemma gate_counterexample :
  (Js.includes_num (getValidChats Scenario.guarded) 100 = true /\
   map (fun c => ic_name (inv_callback c)) (invalidList Scenario.guarded) = ["on_invalid"] /\
   trace (validCommand (Scenario.text_event 100 2000 "/admin") (ChatList [300]) false
            Scenario.guarded) =
     [LoggerLog (UnsupportedChatReport (Scenario.text_event 100 2000 "/admin"))]) /\
  (Js.includes_num (getValidChats Scenario.revoked) 300 = false /\
   outcome (validCommand (Scenario.text_event 300 2000 "/admin") (ChatList [300]) false
              Scenario.revoked) = Returns true /\
   trace (validCommand (Scenario.text_event 300 2000 "/admin") (ChatList [300]) false
            Scenario.revoked) = []).
Proof. repeat split; vm_compute; reflexivity. Qed.

(** ** Stale events *)

(** C1 as stated fails: a catch-all handler is called for an event that
    predates the start, here one whose text is a registered command. *)
Lemma stale_event_counterexample :
  stale Scenario.queued_ping Scenario.routed /\
  trace (on_message Scenario.queued_ping Scenario.routed) =
    [ InvokeCommand "ping" Scenario.queued_ping;
      LoggerLog (Literal "Not executing queued up command");
      CallAny "catch_all" Scenario.queued_ping true ].
Proof. split; [reflexivity | vm_compute; reflexivity]. Qed.

(** C1, as the code has it. For an event whose timestamp, in milliseconds,
    is strictly before the start time, no command callback, no pattern
    callback and no Invalid-handler is called, whatever is registered and
    whatever the text. (Audio and catch-all handlers are not behind the
    gate.) *)
Theorem stale_event_reaches_no_gated_callback (this : TeleWrapper) (msg : Message) :
  stale msg this ->
  let r := on_message msg this in
  (forall name m content, CallCommand name m content ∉ trace r) /\
  (forall name m handled result, CallRegex name m handled result ∉ trace r) /\
  (forall name m handled, CallInvalid name m handled ∉ trace r).
Proof.
  intros Hstale r.
  assert (H : triple (stale msg) (fun e => ~ gated_call e) (on_message msg) anything).
  { assert (HI : forall l s, stale msg s -> stale msg (set_messageList l s)) by done.
    assert (HP : forall e, is_io e -> ~ gated_call e) by (intros []; cbn; tauto).
    unfold on_message, message_stages. triples.
    - apply command_stage_stale; try done. cbn; tauto.
    - apply regex_stage_stale; try done. cbn; tauto.
    - apply audio_stage_triple. cbn; tauto.
    - apply any_stage_triple. cbn; tauto.
    - by apply sendError_triple. }
  destruct (H this Hstale) as (_ & HP & _). fold r in HP.
  rewrite Forall_forall in HP.
  repeat split; intros; intros Hin; by apply (HP _ Hin).
Qed.

Lemma stale_event_reaches_no_gated_callback_witness :
  let r := on_message Scenario.queued_ping Scenario.routed in
  (forall name m content, CallCommand name m content ∉ trace r) /\
  (forall name m handled result, CallRegex name m handled result ∉ trace r) /\
  (forall name m handled, CallInvalid name m handled ∉ trace r).
Proof.
  apply (stale_event_reaches_no_gated_callback Scenario.routed Scenario.queued_ping).
  reflexivity.
Defined.

(** ** Commands before patterns *)

Lemma deleteIfMentioned_returns (msg : Message) (this : TeleWrapper) :
  outcome (deleteIfMentioned msg this) = Returns tt.
Proof.
  unfold deleteIfMentioned. rewrite get_bind.
  destruct (botInfo this); [|done].
  match goal with |- context [if ?b then _ else _] => destruct b end; done.
Qed.

Lemma pattern_calls_none (t : list Effect) :
  Forall (fun e => is_invoke_pattern e = false) t -> pattern_calls t = [].
Proof.
  induction 1 as [|e t He _ IH]; [done|].
  unfold pattern_calls in *. cbn. by rewrite He.
Qed.

Lemma pattern_calls_app (t t' : list Effect) :
  pattern_calls (t ++ t') = pattern_calls t ++ pattern_calls t'.
Proof. apply List.filter_app. Qed.

Lemma invocations_true (msg : Message) (found : list (nat * RegExpExecArray)) :
  invocations msg true found = map (fun m => InvokePattern (fst m) msg true (snd m)) found.
Proof. by destruct found. Qed.

Section PatternLoop.

Context (msg : Message).

Lemma quiet_io (e : Effect) : is_io e -> quiet e.
Proof. by destruct e. Qed.

Lemma quiet_gate (e : Effect) : gate_effect e -> quiet e.
Proof. by destruct e. Qed.

Lemma regex_loop_calls (entries : list (nat * IRegexCmd)) (handled after : bool)
    (this : TeleWrapper) :
  outcome (foldM entries (regex_step msg) handled this) = Returns after ->
  pattern_calls (trace (foldM entries (regex_step msg) handled this)) =
    invocations msg handled (matching msg entries).
Proof.
  revert handled this. induction entries as [|[key value] entries IH]; intros handled this H.
  - done.
  - cbn [foldM] in *. apply bind_inv in H as (h & Hstep & Hrest & -> & _).
    rewrite pattern_calls_app, (IH _ _ Hrest). clear IH Hrest.
    unfold matching. cbn [omap list_omap fst snd]. fold (matching msg entries).
    unfold regex_step in *.
    destruct (exec (regex value) (text_of msg)) as [result|] eqn:E; cbn [fmap option_fmap option_map].
    + apply bind_inv in Hstep as ([] & _ & Hstep & -> & _).
      apply bind_inv in Hstep as ([] & _ & Hstep & -> & _).
      apply bind_inv in Hstep as ([] & _ & Hstep & -> & _).
      cbn in Hstep. injection Hstep as <-.
      rewrite !pattern_calls_app.
      assert (Hd : triple (fun _ => True) quiet (deleteIfMentioned msg) anything)
        by (apply deleteIfMentioned_triple; auto using quiet_io).
      assert (Hc : triple (fun _ => True) quiet
                     (IRegexCmd_callback value msg handled result) anything)
        by (apply regexBase_triple; auto using quiet_io, quiet_gate; done).
      rewrite (pattern_calls_none (trace (deleteIfMentioned msg this)))
        by (by destruct (Hd this Logic.I) as (_ & ? & _)).
      rewrite (pattern_calls_none (trace (IRegexCmd_callback _ _ _ _ _)))
        by (by edestruct Hc as (_ & ? & _)).
      cbn. by rewrite invocations_true.
    + cbn in Hstep. injection Hstep as <-. cbn. reflexivity.
Qed.

End PatternLoop.

(** C7 as stated fails: both patterns match the text, the callback of the
    first one throws, and the second one is never called. *)
Lemma pattern_counterexample :
  let event := Scenario.text_event 100 2000 "hello" in
  matching event (imap pair (regexList Scenario.with_broken_pattern)) =
    [(0%nat, ["hello"]); (1%nat, ["hello"])] /\
  trace (on_message event Scenario.with_broken_pattern) =
    [ InvokePattern 0 event false ["hello"];
      CallRegex "first_breaks" event false ["hello"];
      LoggerLog (ErrorText "message error" (Some "Error: boom")) ].
Proof. split; vm_compute; reflexivity. Qed.

Lemma validCommand_allows (this : TeleWrapper) (msg : Message) (ids : list Z) (rx : bool) :
  ~ stale msg this ->
  allowed msg ids this ->
  validCommand msg (ChatList ids) rx this =
    {| outcome := Returns true; final := this; trace := [] |}.
Proof.
  intros Hfresh Hallow. unfold validCommand. rewrite get_bind. unfold stale in Hfresh.
  destruct (Z.ltb_spec (msg_date msg * 1000) (startTime this)); [lia|].
  cbn [to_ids].
  destruct (Js.includes_num ids (msg_chat_id msg)) eqn:E; [done|].
  destruct Hallow as [Hin | [-> Hin]].
  - apply bool_decide_eq_false in E. contradiction.
  - unfold Js.includes_num at 1. by rewrite (bool_decide_eq_true_2 _ Hin).
Qed.

(** A registered command whose gate lets the event through reaches the user
    callback, with the text minus its first token. *)
Lemma registered_command_reaches_handler (this : TeleWrapper) (msg : Message) (c : ICommand) :
  has_text msg = true ->
  commandList this !! token_of msg = Some c ->
  ~ stale msg this ->
  allowed msg (cmd_chatIDs c) this ->
  CallCommand (cc_name (cmd_callback c)) msg (content_of msg) ∈ trace (on_message msg this).
Proof.
  intros Htext Hc Hfresh Hallow.
  unfold on_message, message_stages.
  apply elem_trace_try_catch, elem_trace_bind.
  unfold command_stage. rewrite get_bind. fold (token_of msg).
  unfold Js.js_get. rewrite Hc, Htext. cbn [andb Js.truthy].
  assert (Hd : exists t, deleteIfMentioned msg this =
                           {| outcome := Returns tt; final := this; trace := t |}).
  { unfold deleteIfMentioned. rewrite get_bind.
    destruct (botInfo this); [|by eexists].
    match goal with |- context [if ?b then _ else _] => destruct b end; by eexists. }
  destruct Hd as [t Hd].
  eapply elem_trace_bind_r; [by rewrite Hd|]. rewrite Hd. cbn [final].
  apply elem_trace_bind.
  eapply elem_trace_bind_r; [reflexivity|]. cbn [emit final].
  unfold ICommand_callback, commandBase.
  pose proof (validCommand_allows this msg _ false Hfresh Hallow) as Hv.
  eapply elem_trace_bind_r; [by rewrite Hv|]. rewrite Hv. cbn [final negb].
  unfold call_command. apply elem_trace_bind. fold (content_of msg). cbn. left.
Qed.

(** An event whose token names a property that [commandList] inherits
    from [Object.prototype] is taken for a command although none is
    registered: the call of its missing callback throws, and neither the
    patterns nor the catch-all handlers see the event. *)
Lemma inherited_key_example :
  let event := Scenario.text_event 100 2000 "/constructor" in
  commandList Scenario.with_patterns !! token_of event = None /\
  trace (on_message event Scenario.with_patterns) =
    [ LoggerLog (ErrorText "message error"
        (Some "TypeError: this.commandList[command].callback is not a function")) ].
Proof. split; vm_compute; reflexivity. Qed.

(** ** Catch-all handlers *)

Lemma any_calls_none (t : list Effect) :
  Forall (fun e => is_call_any e = false) t -> any_calls t = [].
Proof.
  induction 1 as [|e t He _ IH]; [done|].
  unfold any_calls in *. cbn. by rewrite He.
Qed.

Lemma any_calls_app (t t' : list Effect) : any_calls (t ++ t') = any_calls t ++ any_calls t'.
Proof. apply List.filter_app. Qed.

Lemma any_loop_calls (msg : Message) (handled : bool) (l : list IAnyCmd) (this : TeleWrapper) :
  outcome (forEach l (fun c => if in_scope c msg then call_any c msg handled else ret tt) this)
    = Returns tt ->
  trace (forEach l (fun c => if in_scope c msg then call_any c msg handled else ret tt) this)
    = map (fun c => CallAny (ac_name (any_callback c)) msg handled)
        (List.filter (fun c => in_scope c msg) l).
Proof.
  revert this. induction l as [|c l IH]; intros this H; [done|].
  cbn [forEach] in *. apply bind_inv in H as ([] & Hc & Hrest & -> & _).
  cbn [List.filter]. destruct (in_scope c msg).
  - unfold call_any in *.
    destruct (ac_run (any_callback c) msg handled) as [[]|e] eqn:E; [|discriminate Hc].
    cbn in Hrest |- *. f_equal. by apply IH.
  - cbn in *. by apply IH.
Qed.

Lemma in_scope_empty (c : IAnyCmd) (msg : Message) :
  any_chatIDs c = [] -> in_scope c msg = true.
Proof. intros H. unfold in_scope. rewrite H. apply orb_true_r. Qed.

Lemma in_scope_single (c : IAnyCmd) (msg : Message) (chat : Z) :
  any_chatIDs c = [chat] -> in_scope c msg = true <-> msg_chat_id msg = chat.
Proof.
  intros H. unfold in_scope, Js.includes_num. rewrite H. cbn.
  rewrite orb_false_r, bool_decide_eq_true. apply list_elem_of_singleton.
Qed.

(** C3, as the code has it. Whenever no exception cuts the processing of
    the event short, the catch-all handlers called are exactly those whose
    scope holds the chat of the event or is empty, once each, in
    registration order, all with the same handled flag. The set of
    authorized chats plays no part: a handler with empty scope is called
    for events of every chat, authorized or not, and a handler with scope
    [[B]] is called exactly for the events of chat [B]. *)
Theorem catch_all_scope (this : TeleWrapper) (msg : Message) :
  completes msg this ->
  (exists handled,
     any_calls (trace (on_message msg this)) =
       map (fun c => CallAny (ac_name (any_callback c)) msg handled)
         (List.filter (fun c => in_scope c msg) (anyList this))) /\
  (forall c, any_chatIDs c = [] -> in_scope c msg = true) /\
  (forall c B, any_chatIDs c = [B] -> in_scope c msg = true <-> msg_chat_id msg = B).
Proof.
  intros Hdone.
  split; [|split; [intros c; apply in_scope_empty | intros c B; apply in_scope_single]].
  unfold on_message. rewrite (try_catch_returns _ _ _ _ Hdone).
  unfold completes, message_stages in *.
  set (I := fun s => anyList s = anyList this).
  set (P := fun e => is_call_any e = false).
  assert (HI : forall l s, I s -> I (set_messageList l s)) by done.
  assert (HP : forall e, is_io e -> P e) by (intros []; cbn; done).
  apply bind_inv in Hdone as (h1 & H1 & Hdone & -> & _).
  destruct (command_stage_triple I P HI HP msg ltac:(intros []; cbn; done) this eq_refl)
    as (I1 & P1 & _).
  apply bind_inv in Hdone as (h2 & H2 & Hdone & -> & _).
  destruct (regex_stage_triple I P HI HP msg h1 ltac:(intros []; cbn; done) _ I1)
    as (I2 & P2 & _).
  apply bind_inv in Hdone as ([] & H3 & Hdone & -> & _).
  destruct (audio_stage_triple I P msg h2 ltac:(done) _ I2) as (I3 & P3 & _).
  exists h2. rewrite !any_calls_app.
  rewrite (any_calls_none _ P1), (any_calls_none _ P2), (any_calls_none _ P3). cbn [app].
  unfold any_stage in *. apply bind_inv in Hdone as (s & Hs & Hdone & -> & _).
  cbn in Hs. injection Hs as <-. cbn [get trace final app] in *.
  rewrite any_loop_calls by done. rewrite I3.
  unfold any_calls. clear.
  induction (List.filter (fun c => in_scope c msg) (anyList this)) as [|c l IH]; [done|].
  cbn. by rewrite IH.
Qed.

(** C3 as stated fails: chat 200 is not authorized, and the catch-all
    handler with empty scope is called for its event. *)
Lemma catch_all_counterexample :
  let event := Scenario.text_event 200 2000 "hello" in
  Js.includes_num (getValidChats Scenario.routed) 200 = false /\
  trace (on_message event Scenario.routed) = [CallAny "catch_all" event false].
Proof. split; vm_compute; reflexivity. Qed.

Lemma catch_all_scope_witness :
  let event := Scenario.text_event 200 2000 "hello" in
  (exists handled,
     any_calls (trace (on_message event Scenario.routed)) =
       map (fun c => CallAny (ac_name (any_callback c)) event handled)
         (List.filter (fun c => in_scope c event) (anyList Scenario.routed))) /\
  (forall c, any_chatIDs c = [] -> in_scope c event = true) /\
  (forall c B, any_chatIDs c = [B] -> in_scope c event = true <-> msg_chat_id event = B).
Proof.
  apply (catch_all_scope Scenario.routed (Scenario.text_event 200 2000 "hello")).
  vm_compute. reflexivity.
Defined.

(** ** Button presses *)

(** C6 as stated fails in two of its three branches: for an unknown
    identifier the listener deletes the message, sends the notice, waits,
    deletes the notice and returns; for a callback that throws it reports
    the error. Neither acknowledges the query. *)
Lemma acknowledgement_counterexample :
  trace (on_callback_query (Scenario.press "btn_999") Scenario.with_buttons) =
    [ CoreDeleteMessage 100 7;
      CoreSendMessage 100 (Literal "Sorry, an error has occurred");
      Timer 3000;
      CoreDeleteMessage 100 9000 ] /\
  trace (on_callback_query (Scenario.press "btn_2") Scenario.with_buttons) =
    [ CallButton "breaks" (Scenario.press "btn_2");
      LoggerLog (ErrorText "query error with button btn_2" (Some "Error: boom")) ].
Proof. split; vm_compute; reflexivity. Qed.

(** ** The outbox *)

Section Outbox.

Lemma slice_to_end {A : Type} (l : list A) (s : Z) :
  0 <= s <= Z.of_nat (length l) ->
  Js.slice l s (Z.of_nat (length l)) = drop (Z.to_nat s) l.
Proof.
  intros Hs. unfold Js.slice.
  destruct (Z.ltb_spec s 0); [lia|].
  destruct (Z.ltb_spec (Z.of_nat (length l)) 0); [lia|].
  rewrite !Z.min_l by lia.
  apply take_ge. rewrite length_drop. lia.
Qed.

Lemma slice_start_floor (n : Z) :
  0 <= n -> slice_start n n = n - ceil_tenth n.
Proof.
  intros Hn. unfold slice_start, ceil_tenth.
  rewrite Z.quot_div_nonneg by lia.
  pose proof (Z.div_mod (10 * n - n) 10 ltac:(lia)).
  pose proof (Z.mod_pos_bound (10 * n - n) 10 ltac:(lia)).
  pose proof (Z.div_mod (n + 9) 10 ltac:(lia)).
  pose proof (Z.mod_pos_bound (n + 9) 10 ltac:(lia)).
  lia.
Qed.

Lemma appended_below (n : Z) (l : list Message) (m : Message) :
  Z.of_nat (length l) + 1 < n -> appended n l m = l ++ [m].
Proof.
  intros H. unfold appended. rewrite length_app. simpl.
  destruct (Z.leb_spec n (Z.of_nat (length l + 1))); [lia | reflexivity].
Qed.

Lemma appended_full (n : Z) (l : list Message) (m : Message) :
  Z.of_nat (length l) + 1 = n ->
  appended n l m = drop (Z.to_nat (n - ceil_tenth n)) (l ++ [m]).
Proof.
  intros H. unfold appended.
  assert (Hl : Z.of_nat (length (l ++ [m])) = n) by (rewrite length_app; simpl; lia).
  assert (Hc : 0 <= n - ceil_tenth n <= n).
  { unfold ceil_tenth.
    pose proof (Z.div_mod (n + 9) 10 ltac:(lia)).
    pose proof (Z.mod_pos_bound (n + 9) 10 ltac:(lia)). lia. }
  destruct (Z.leb_spec n (Z.of_nat (length (l ++ [m])))); [|lia].
  rewrite Hl at 1. rewrite slice_start_floor by lia.
  apply slice_to_end. lia.
Qed.

Lemma fold_appended_below (n : Z) (l pre : list Message) :
  Z.of_nat (length pre) + Z.of_nat (length l) < n ->
  fold_left (appended n) l pre = pre ++ l.
Proof.
  revert pre. induction l as [|m l IH]; intros pre H; simpl in *.
  - by rewrite app_nil_r.
  - rewrite appended_below by lia. rewrite IH.
    + by rewrite <- app_assoc.
    + rewrite length_app. simpl. lia.
Qed.

Lemma append_all_run (msgs : list Message) (this : TeleWrapper) :
  final (append_all msgs this) =
    set_messageList (fold_left (appended (messageListLength this)) msgs (messageList this)) this
  /\ outcome (append_all msgs this) = Returns tt.
Proof.
  revert this. induction msgs as [|m msgs IH]; intros this.
  - split; [destruct this|]; reflexivity.
  - destruct (IH (set_messageList (appended (messageListLength this) (messageList this) m) this))
      as [IHf IHo].
    unfold append_all in *. simpl. unfold mbind, M_bind, bind. simpl.
    rewrite IHf, IHo. simpl. split; reflexivity.
Qed.

Lemma split_last_two (msgs : list Message) (k : nat) :
  length msgs = S (S k) ->
  exists l a b, msgs = l ++ [a; b] /\ length l = k.
Proof.
  intros H. exists (take k msgs).
  pose proof (take_drop k msgs) as E.
  assert (Hd : length (drop k msgs) = 2%nat) by (rewrite length_drop; lia).
  destruct (drop k msgs) as [|a [|b [|c r]]]; try discriminate Hd.
  exists a, b. split; [by rewrite E | rewrite length_take; lia].
Qed.

(** C5, as the code has it. With capacity [n >= 3] and an empty outbox,
    the [n]-th append is the one that cuts the outbox down to its
    [ceil (n / 10)] most recent entries; the append after it is kept, so
    that [n + 1] appends leave [ceil (n / 10) + 1] entries, the most
    recent ones. *)
Theorem outbox_after_capacity_plus_one (this : TeleWrapper) (msgs : list Message) :
  let n := messageListLength this in
  3 <= n ->
  messageList this = [] ->
  Z.of_nat (length msgs) = n + 1 ->
  let at_capacity := messageList (final (append_all (take (Z.to_nat n) msgs) this)) in
  let one_more := messageList (final (append_all msgs this)) in
  at_capacity = drop (Z.to_nat (n - ceil_tenth n)) (take (Z.to_nat n) msgs) /\
  Z.of_nat (length at_capacity) = ceil_tenth n /\
  one_more = drop (Z.to_nat (n - ceil_tenth n)) msgs /\
  Z.of_nat (length one_more) = ceil_tenth n + 1.
Proof.
  intros n Hn Hempty Hlen at_capacity one_more.
  assert (Hc : 0 < ceil_tenth n /\ ceil_tenth n + 1 < n).
  { unfold ceil_tenth.
    pose proof (Z.div_mod (n + 9) 10 ltac:(lia)).
    pose proof (Z.mod_pos_bound (n + 9) 10 ltac:(lia)). lia. }
  destruct (split_last_two msgs (Z.to_nat n - 1)) as (l & a & b & -> & Hl); [lia|].
  assert (Htake : take (Z.to_nat n) (l ++ [a; b]) = l ++ [a]).
  { replace (l ++ [a; b]) with ((l ++ [a]) ++ [b]) by (by rewrite <- app_assoc).
    apply take_app_length'. rewrite length_app. simpl. lia. }
  assert (Hfull : fold_left (appended n) (l ++ [a]) [] =
                  drop (Z.to_nat (n - ceil_tenth n)) (l ++ [a])).
  { rewrite fold_left_app. simpl.
    rewrite fold_appended_below by (simpl; lia). simpl.
    apply appended_full. lia. }
  assert (Hlen_full : Z.of_nat (length (drop (Z.to_nat (n - ceil_tenth n)) (l ++ [a]))) =
                      ceil_tenth n).
  { rewrite length_drop, length_app. simpl. lia. }
  subst at_capacity one_more.
  rewrite !(proj1 (append_all_run _ this)). simpl. rewrite Hempty. fold n.
  rewrite Htake, Hfull.
  replace (l ++ [a; b]) with ((l ++ [a]) ++ [b]) by (by rewrite <- app_assoc).
  rewrite fold_left_app, Hfull. simpl.
  rewrite appended_below by lia.
  rewrite (drop_app_le (l ++ [a]) [b]) by (rewrite length_app; simpl; lia).
  repeat split; try done.
  rewrite length_app. simpl. lia.
Qed.
(** Below capacity 3 the cut comes back at every append, and one entry (or
    none, for capacity 0) is left. *)
Example outbox_small_capacities :
  map (fun n => length (messageList (final (append_all (Scenario.entries 100 (S n))
                                              (Scenario.outbox (Z.of_nat n))))))
      [0; 1; 2; 3; 4]%nat = [0; 1; 1; 2; 2]%nat.
Proof. reflexivity. Qed.

End Outbox.


Lemma outbox_after_capacity_plus_one_witness :
  let msgs := Scenario.entries 100 4 in
  let at_capacity := messageList (final (append_all (take 3 msgs) (Scenario.outbox 3))) in
  let one_more := messageList (final (append_all msgs (Scenario.outbox 3))) in
  at_capacity = drop 2 (take 3 msgs) /\
  Z.of_nat (length at_capacity) = 1 /\
  one_more = drop 2 msgs /\
  Z.of_nat (length one_more) = 2.
Proof.
  apply (outbox_after_capacity_plus_one (Scenario.outbox 3) (Scenario.entries 100 4)).
  - simpl. lia.
  - reflexivity.
  - reflexivity.
Defined.

(** C5 as stated fails: with capacity 10, eleven appends leave two entries,
    not [ceil (10 / 10) = 1]. *)
Lemma outbox_capacity_plus_one_counterexample :
  messageList (final (append_all (Scenario.entries 100 11) (Scenario.outbox 10))) =
    [Scenario.entry 100 10; Scenario.entry 100 11] /\
  Z.of_nat (length (messageList (final (append_all (Scenario.entries 100 11)
                                          (Scenario.outbox 10))))) <> ceil_tenth 10.
Proof. split; [reflexivity | vm_compute; discriminate]. Qed.

(** ** Bulk retraction *)

Section ClearMessages.

Variables (idList : list Z) (exclude_msgs : option (list Message)).

Lemma clear_step_run (newList : list Message) (actions : list (Promise unit))
    (v : Message) (this : TeleWrapper) :
  clear_step idList exclude_msgs (newList, actions) v this =
  {| outcome := Returns
       (newList ++ List.filter (kept idList exclude_msgs) [v],
        actions ++ map (delete_settles this) (List.filter (retracted idList exclude_msgs) [v]));
     final := this;
     trace := map delete_call (List.filter (retracted idList exclude_msgs) [v]) |}.
Proof.
  unfold clear_step, kept, retracted. cbn [List.filter].
  destruct (Js.includes_num idList (msg_chat_id v)); cbn [andb].
  - destruct (excluded exclude_msgs v); cbn [negb map app].
    + unfold mret, M_ret, ret. by rewrite app_nil_r.
    + rewrite app_nil_r. reflexivity.
  - unfold mret, M_ret, ret. cbn [map]. by rewrite !app_nil_r.
Qed.

Lemma clear_fold (l newList : list Message) (actions : list (Promise unit))
    (this : TeleWrapper) :
  foldM l (clear_step idList exclude_msgs) (newList, actions) this =
  {| outcome := Returns
       (newList ++ List.filter (kept idList exclude_msgs) l,
        actions ++ map (delete_settles this) (List.filter (retracted idList exclude_msgs) l));
     final := this;
     trace := map delete_call (List.filter (retracted idList exclude_msgs) l) |}.
Proof.
  revert newList actions. induction l as [|v l IH]; intros newList actions.
  - simpl. unfold mret, M_ret, ret. by rewrite !app_nil_r.
  - cbn [foldM]. rewrite (bind_returns _ _ _ _ _ _ (clear_step_run newList actions v this)).
    rewrite IH. cbn [outcome final trace].
    change (v :: l) with ([v] ++ l).
    rewrite !List.filter_app, !List.map_app, <- !app_assoc. reflexivity.
Qed.

Lemma swallow_run {A : Type} (p : Promise A) (this : TeleWrapper) :
  try_catch (await p;; ret tt) (fun _ => ret tt) this =
  {| outcome := Returns tt; final := this; trace := [] |}.
Proof. by destruct p. Qed.

End ClearMessages.

Lemma clearMessages_run (chatIDs : ChatIDs) (exclude_msgs : option (list Message))
    (this : TeleWrapper) :
  clearMessages chatIDs exclude_msgs this =
  {| outcome := Returns (Returns tt);
     final := set_messageList
                (List.filter (kept (to_ids chatIDs) exclude_msgs) (messageList this)) this;
     trace := map delete_call
                (List.filter (retracted (to_ids chatIDs) exclude_msgs) (messageList this)) |}.
Proof.
  unfold clearMessages, async.
  erewrite bind_returns by reflexivity.
  erewrite bind_returns by apply clear_fold.
  erewrite bind_returns by apply swallow_run.
  cbn. by rewrite app_nil_r.
Qed.


Lemma excluded_true (ex : option (list Message)) (v : Message) :
  excluded ex v = true <-> exists x, x ∈ default [] ex /\ messageEqual x v = true.
Proof.
  destruct ex as [l|]; simpl.
  - rewrite existsb_exists. setoid_rewrite list_elem_of_In. reflexivity.
  - split; [discriminate|]. intros (x & Hx & _). inversion Hx.
Qed.

Lemma excluded_false (ex : option (list Message)) (v : Message) :
  excluded ex v = false <-> forall x, x ∈ default [] ex -> messageEqual x v = false.
Proof.
  rewrite <- not_true_iff_false, excluded_true. split.
  - intros H x Hx. destruct (messageEqual x v) eqn:E; [|done]. destruct H; eauto.
  - intros H (x & Hx & E). rewrite (H x Hx) in E. discriminate.
Qed.

Lemma includes_num_true (l : list Z) (x : Z) : Js.includes_num l x = true <-> x ∈ l.
Proof. unfold Js.includes_num. by rewrite bool_decide_eq_true. Qed.

(** C8 as stated fails for an excluded entry of a chat outside the scope:
    entry 20 of chat 2 is stored and is in [exclude], the scope is chat 1,
    and the entry is not in the retained list (no delete is issued for it
    either). *)
Lemma excluded_outside_scope_counterexample :
  let exclude := Some [Scenario.entry 1 11; Scenario.entry 2 20] in
  let r := clearMessages (OneChat 1) exclude Scenario.stored in
  (Scenario.entry 2 20 ∈ messageList Scenario.stored) /\
  excluded exclude (Scenario.entry 2 20) = true /\
  outcome r = Returns (Returns tt) /\
  messageList (final r) = [Scenario.entry 1 11] /\
  trace r = [CoreDeleteMessage 1 10].
Proof.
  split; [|repeat split; vm_compute; reflexivity].
  apply list_elem_of_In. simpl. auto.
Qed.

(** C8, as the code has it, for the stored entries of a chat in scope.
    After [clearMessages(scope, exclude)] has resolved: a stored entry of
    a chat in scope that is identity-equal (same chat id and message id)
    to no entry of [exclude] had a delete issued and is not in the
    retained list; a stored entry of a chat in scope that is
    identity-equal to an entry of [exclude] is in the retained list. The
    promise is fulfilled and the list is replaced whatever the outcome of
    the deletes: the statement holds for every client, also one whose
    deletes all fail. *)
Theorem clearMessages_in_scope (this : TeleWrapper) (chatIDs : ChatIDs)
    (exclude_msgs : option (list Message)) (e : Message) :
  e ∈ messageList this ->
  msg_chat_id e ∈ to_ids chatIDs ->
  let r := clearMessages chatIDs exclude_msgs this in
  outcome r = Returns (Returns tt) /\
  ((forall x, x ∈ default [] exclude_msgs -> messageEqual x e = false) ->
     (delete_call e ∈ trace r) /\ (e ∉ messageList (final r))) /\
  ((exists x, x ∈ default [] exclude_msgs /\ messageEqual x e = true) ->
     e ∈ messageList (final r)).
Proof.
  intros He Hscope r. subst r. rewrite clearMessages_run. cbn [outcome final trace].
  apply includes_num_true in Hscope. apply list_elem_of_In in He.
  split; [reflexivity|]. split.
  - intros Hex. apply excluded_false in Hex. split.
    + apply list_elem_of_In, (in_map delete_call), filter_In.
      split; [done|]. unfold retracted. by rewrite Hscope, Hex.
    + rewrite list_elem_of_In. simpl. rewrite filter_In. unfold kept.
      rewrite Hex, andb_false_r. intros [_ ?]. discriminate.
  - intros Hex. apply excluded_true in Hex.
    apply list_elem_of_In. simpl. apply filter_In.
    split; [done|]. unfold kept. by rewrite Hscope, Hex.
Qed.

(** C9. After [clearMessages(scope, exclude)] has resolved, the retained
    list is exactly the stored entries that are in scope and excluded, in
    their order; an entry of a chat outside the scope is not retained, and
    no delete is issued for its chat. *)
Theorem clearMessages_retained (this : TeleWrapper) (chatIDs : ChatIDs)
    (exclude_msgs : option (list Message)) :
  let r := clearMessages chatIDs exclude_msgs this in
  messageList (final r) =
    List.filter (kept (to_ids chatIDs) exclude_msgs) (messageList this) /\
  (forall e, e ∈ messageList this -> msg_chat_id e ∉ to_ids chatIDs ->
     (e ∉ messageList (final r)) /\
     (forall id, CoreDeleteMessage (msg_chat_id e) id ∉ trace r)).
Proof.
  intros r. subst r. rewrite clearMessages_run. cbn [outcome final trace].
  split; [reflexivity|]. intros e He Hout. split.
  - rewrite list_elem_of_In. simpl. rewrite filter_In. unfold kept.
    intros [_ H]. apply andb_prop in H as [H _]. by apply includes_num_true in H.
  - intros id. rewrite list_elem_of_In, in_map_iff.
    intros (v & Hv & Hin). apply filter_In in Hin as [_ H].
    unfold retracted in H. apply andb_prop in H as [H _].
    apply includes_num_true in H. unfold delete_call in Hv.
    injection Hv as Hc _. by rewrite Hc in H.
Qed.

Lemma clearMessages_in_scope_witness :
  let r := clearMessages (OneChat 1) (Some [Scenario.entry 1 11]) Scenario.stored in
  outcome r = Returns (Returns tt) /\
  ((delete_call (Scenario.entry 1 10) ∈ trace r) /\
   (Scenario.entry 1 10 ∉ messageList (final r))) /\
  (Scenario.entry 1 11 ∈ messageList (final r)).
Proof.
  assert (Hin : forall e, In e (messageList Scenario.stored) -> e ∈ messageList Scenario.stored)
    by (intros e; apply list_elem_of_In).
  assert (Hscope : 1 ∈ to_ids (OneChat 1)) by (apply list_elem_of_In; simpl; auto).
  pose proof (clearMessages_in_scope Scenario.stored (OneChat 1)
                (Some [Scenario.entry 1 11]) (Scenario.entry 1 10)
                (Hin (Scenario.entry 1 10) ltac:(simpl; auto)) Hscope) as (Hres & Hdel & _).
  pose proof (clearMessages_in_scope Scenario.stored (OneChat 1)
                (Some [Scenario.entry 1 11]) (Scenario.entry 1 11)
                (Hin (Scenario.entry 1 11) ltac:(simpl; auto)) Hscope) as (_ & _ & Hkeep).
  split; [exact Hres|]. split.
  - apply Hdel. intros x Hx. apply list_elem_of_In in Hx.
    destruct Hx as [<-|[]]. reflexivity.
  - apply Hkeep. exists (Scenario.entry 1 11). split; [|reflexivity].
    apply list_elem_of_In. simpl. auto.
Defined.

Lemma clearMessages_retained_witness :
  let r := clearMessages (OneChat 1) (Some [Scenario.entry 1 11; Scenario.entry 2 20])
             Scenario.stored in
  messageList (final r) = [Scenario.entry 1 11] /\
  (Scenario.entry 2 20 ∉ messageList (final r)) /\
  (forall id, CoreDeleteMessage 2 id ∉ trace r).
Proof.
  pose proof (clearMessages_retained Scenario.stored (OneChat 1)
                (Some [Scenario.entry 1 11; Scenario.entry 2 20])) as [Hlist Hout].
  split; [exact Hlist|].
  apply (Hout (Scenario.entry 2 20)).
  - apply list_elem_of_In. simpl. auto.
  - intros H. apply list_elem_of_In in H. simpl in H. destruct H as [H|[]]. discriminate H.
Defined.

(** * Further properties *)

(** ** The authorized chats *)

Section AuthorizedChats.

Lemma remove_first_absent (x : Z) (l : list Z) : x ∉ l -> remove_first x l = l.
Proof.
  induction l as [|y l IH]; [done|]. intros H. cbn.
  apply not_elem_of_cons in H as [Hne Hl].
  destruct (Z.eqb_spec x y); [done|]. by rewrite IH.
Qed.

Lemma remove_first_snoc (x : Z) (l : list Z) : x ∉ l -> remove_first x (l ++ [x]) = l.
Proof.
  induction l as [|y l IH]; intros H; cbn.
  - by rewrite Z.eqb_refl.
  - apply not_elem_of_cons in H as [Hne Hl].
    destruct (Z.eqb_spec x y); [done|]. by rewrite IH.
Qed.

Lemma elem_of_remove_first (x y : Z) (l : list Z) :
  NoDup l -> y ∈ remove_first x l <-> y ∈ l /\ y <> x.
Proof.
  induction 1 as [|z l Hz Hl IH]; cbn.
  - split; [inversion 1 | by intros [? _]].
  - destruct (Z.eqb_spec x z) as [->|Hne].
    + rewrite elem_of_cons. split.
      * intros Hy. split; [by right|]. intros ->. contradiction.
      * intros [[->|Hy] Hne]; [done|done].
    + rewrite !elem_of_cons, IH. split.
      * intros [->|[Hy Hne']]; split; auto.
      * intros [[->|Hy] Hne']; auto.
Qed.

Lemma remove_first_sub (x y : Z) (l : list Z) : y ∈ remove_first x l -> y ∈ l.
Proof.
  induction l as [|z l IH]; cbn; [done|].
  destruct (Z.eqb_spec x z); rewrite !elem_of_cons; intuition.
Qed.

Lemma remove_first_NoDup (x : Z) (l : list Z) : NoDup l -> NoDup (remove_first x l).
Proof.
  induction 1 as [|z l Hz Hl IH]; cbn; [constructor|].
  destruct (Z.eqb_spec x z); [done|].
  constructor; [|done]. intros H. by apply remove_first_sub in H.
Qed.

(** The fields the authorization reads are left alone by [sendError]. *)
Lemma sendError_chats (text : string) (error : option string) (this : TeleWrapper) :
  validChats (final (sendError text error this)) = validChats this /\
  debugChat (final (sendError text error this)) = debugChat this /\
  exists p, outcome (sendError text error this) = Returns p.
Proof.
  set (I := fun s => validChats s = validChats this /\ debugChat s = debugChat this).
  assert (H : triple I (fun _ => True) (sendError text error) anything)
    by (by apply sendError_triple).
  destruct (H this (conj eq_refl eq_refl)) as ([? ?] & _).
  repeat split; [done | done | by eexists].
Qed.

Lemma addValidChat_run (chatID : Z) (this : TeleWrapper) :
  let r := addValidChat chatID this in
  outcome r = Returns tt /\
  debugChat (final r) = debugChat this /\
  validChats (final r) =
    (if (chatID =? 0) || Js.includes_num (validChats this) chatID
     then validChats this else validChats this ++ [chatID]) /\
  ((chatID =? 0) || negb (Js.includes_num (validChats this) chatID) = true -> trace r = []).
Proof.
  cbn zeta. unfold addValidChat. rewrite get_bind.
  destruct (chatID =? 0); [done|]. cbn [orb].
  destruct (Js.includes_num (validChats this) chatID); cbn [negb]; [|done].
  destruct (sendError_chats "tried to add duplicate valid chat" None this) as (Hv & Hd & p & Hp).
  rewrite (outcome_bind _ _ _ p Hp), (final_bind _ _ _ p Hp). cbn.
  repeat split; [done | done | discriminate].
Qed.

Lemma removeValidChat_run (chatID : Z) (this : TeleWrapper) :
  let r := removeValidChat chatID this in
  outcome r = Returns tt /\
  debugChat (final r) = debugChat this /\
  validChats (final r) = remove_first chatID (validChats this).
Proof.
  cbn zeta. unfold removeValidChat. rewrite get_bind.
  destruct (Js.includes_num (validChats this) chatID) eqn:E; [done|].
  apply bool_decide_eq_false in E. rewrite (remove_first_absent _ _ E).
  destruct (sendError_chats "tried to remove non-existing valid chat" None this)
    as (Hv & Hd & p & Hp).
  rewrite (outcome_bind _ _ _ p Hp), (final_bind _ _ _ p Hp). cbn. done.
Qed.

(** The loop of [onBase], from any state [s]: [live] says whether [valids]
    aliases [this.validChats], [copy] is the array it holds otherwise. *)
Lemma onBase_loop (live : bool) (copy ids : list Z) (s : TeleWrapper) :
  let r := forEach ids (fun id =>
             this ← get;
             let valids := if live then validChats this else copy in
             if negb (Js.includes_num valids id) then addValidChat id else ret tt) s in
  outcome r = Returns tt /\
  debugChat (final r) = debugChat s /\
  (forall x, x ∈ validChats s -> x ∈ validChats (final r)) /\
  (forall id, id ∈ ids -> id <> 0 ->
     id ∈ validChats (final r) \/ (live = false /\ id ∈ copy)) /\
  (forall x, x ∈ validChats (final r) -> x ∈ validChats s \/ (x ∈ ids /\ x <> 0)) /\
  (NoDup (validChats s) -> NoDup (validChats (final r))) /\
  (live = true -> trace r = []).
Proof.
  cbn zeta. revert s. induction ids as [|id ids IH]; intros s.
  - cbn. repeat split; try done; try (by inversion 1); auto.
  - cbn [forEach].
    set (body := fun id => get ≫= _).
    assert (Hstep : exists s',
              body id s = {| outcome := Returns tt; final := s'; trace := trace (body id s) |} /\
              debugChat s' = debugChat s /\
              (forall x, x ∈ validChats s' <-> x ∈ validChats s \/ (x = id /\ id <> 0 /\
                 negb (Js.includes_num (if live then validChats s else copy) id) = true)) /\
              (NoDup (validChats s) -> NoDup (validChats s')) /\
              (live = true -> trace (body id s) = [])).
    { exists (final (body id s)). subst body. cbn beta. rewrite get_bind. cbn zeta.
      destruct (Js.includes_num (if live then validChats s else copy) id) eqn:E; cbn [negb].
      - repeat split; try done; [by left | by intros [?|(_ & _ & ?)]].
      - destruct (addValidChat_run id s) as (Ho & Hd & Hv & Ht). cbn zeta in *.
        split; [destruct (addValidChat id s); cbn in *; by rewrite Ho|].
        split; [done|]. rewrite Hv.
        destruct (Z.eqb_spec id 0) as [->|Hne]; cbn [orb].
        { split; [|split].
          - intros x. split; [by left | by intros [?|(_ & ? & _)]].
          - done.
          - intros _. by apply Ht. }
        destruct (Js.includes_num (validChats s) id) eqn:E'.
        + apply bool_decide_eq_true in E'. split; [|split].
          * intros x. split; [by left | by intros [?|(-> & _)]].
          * done.
          * intros ->. cbn in E. unfold Js.includes_num in E.
            apply bool_decide_eq_false in E. contradiction.
        + apply bool_decide_eq_false in E'.
          repeat split.
          * rewrite elem_of_app, list_elem_of_singleton. intros [?| ->]; auto.
          * rewrite elem_of_app, list_elem_of_singleton. intros [?|(-> & _)]; auto.
          * intros Hnd. apply NoDup_app. repeat split; [done | | apply NoDup_singleton].
            intros x Hx Hx'. apply list_elem_of_singleton in Hx' as ->. contradiction.
          * intros _. apply Ht. by rewrite orb_true_r. }
    destruct Hstep as (s' & Hrun & Hd & Hv & Hnd & Ht).
    destruct (IH s') as (Ho' & Hd' & Hmono & Hids & Honly & Hnd' & Ht').
    rewrite (bind_returns _ _ _ _ _ _ Hrun). cbn [outcome final trace].
    repeat split.
    + done.
    + etrans; [exact Hd'|exact Hd].
    + intros x Hx. apply Hmono, Hv. by left.
    + intros x Hx Hne. apply elem_of_cons in Hx as [->|Hx]; [|by apply Hids].
      destruct (Js.includes_num (if live then validChats s else copy) id) eqn:E.
      * destruct live.
        -- left. apply Hmono, Hv. left. by apply bool_decide_eq_true in E.
        -- right. split; [done|]. by apply bool_decide_eq_true in E.
      * left. apply Hmono, Hv. right. by rewrite ?E.
    + intros x Hx. destruct (Honly x Hx) as [Hx'|[Hx' Hne]].
      * apply Hv in Hx' as [?|(-> & ? & _)]; [by left|]. right. split; [by left | done].
      * right. split; [by right | done].
    + auto.
    + intros Hl. rewrite (Ht Hl). exact (Ht' Hl).
Qed.

Lemma onBase_run (chatIDs : ChatIDs) (this : TeleWrapper) :
  let r := onBase chatIDs this in
  debugChat (final r) = debugChat this /\
  (forall x, x ∈ validChats this -> x ∈ validChats (final r)) /\
  (forall id, id ∈ to_ids chatIDs -> id <> 0 -> id ∈ getValidChats (final r)) /\
  (forall x, x ∈ validChats (final r) ->
     x ∈ validChats this \/ (x ∈ to_ids chatIDs /\ x <> 0)) /\
  (NoDup (validChats this) -> NoDup (validChats (final r))) /\
  (debugChat this = 0 -> trace r = []).
Proof.
  cbn zeta. unfold onBase. rewrite get_bind.
  destruct (onBase_loop (debugChat this =? 0) (getValidChats this) (to_ids chatIDs) this)
    as (_ & Hd & Hmono & Hids & Honly & Hnd & Ht).
  cbn zeta in *.
  set (r := forEach (to_ids chatIDs) _ this) in *. clearbody r.
  repeat split; try done.
  - intros id Hid Hne. unfold getValidChats at 1. rewrite Hd.
    destruct (Hids id Hid Hne) as [H | [Hl H]].
    + destruct (debugChat this =? 0); [done | by right].
    + rewrite Hl. unfold getValidChats in H. rewrite Hl in H.
      apply elem_of_cons in H as [->|H]; [left | right; by apply Hmono].
  - intros E. apply Ht. by rewrite E.
Qed.

(** The registrations touch the authorized list through [onBase] only. *)
Lemma registration_chats (this : TeleWrapper) :
  (forall name chatIDs callback desc,
     validChats (final (onCommand name chatIDs callback desc this)) =
       validChats (final (onBase chatIDs this)) /\
     debugChat (final (onCommand name chatIDs callback desc this)) =
       debugChat (final (onBase chatIDs this))) /\
  (forall rx chatIDs callback desc,
     validChats (final (onRegex rx chatIDs callback desc this)) =
       validChats (final (onBase chatIDs this)) /\
     debugChat (final (onRegex rx chatIDs callback desc this)) =
       debugChat (final (onBase chatIDs this))) /\
  (forall chatIDs callback,
     validChats (final (onAny chatIDs callback this)) =
       validChats (final (onBase chatIDs this)) /\
     debugChat (final (onAny chatIDs callback this)) =
       debugChat (final (onBase chatIDs this))) /\
  (forall chatIDs callback,
     validChats (final (onAudio chatIDs callback this)) =
       validChats (final (onBase chatIDs this)) /\
     debugChat (final (onAudio chatIDs callback this)) =
       debugChat (final (onBase chatIDs this))).
Proof.
  repeat split; intros;
    unfold onCommand, onRegex, onAny, onAudio;
    rewrite (final_bind _ _ _ tt (onBase_returns _ this)), get_bind;
    repeat match goal with |- context [if ?b then _ else _] => destruct b end;
    reflexivity.
Qed.

End AuthorizedChats.

(** X1. An authorized list that holds no chat twice and does not hold
    chat 0 stays so: [addValidChat], [removeValidChat] and every
    registration with a chat scope ([onCommand], [onRegex], [onAny],
    [onAudio], through [onBase]) keep it well formed. *)
Theorem authorized_chats_well_formed (this : TeleWrapper) :
  wf_chats this ->
  (forall chatID, wf_chats (final (addValidChat chatID this))) /\
  (forall chatID, wf_chats (final (removeValidChat chatID this))) /\
  (forall chatIDs, wf_chats (final (onBase chatIDs this))) /\
  (forall name chatIDs callback desc,
     wf_chats (final (onCommand name chatIDs callback desc this))) /\
  (forall rx chatIDs callback desc,
     wf_chats (final (onRegex rx chatIDs callback desc this))) /\
  (forall chatIDs callback, wf_chats (final (onAny chatIDs callback this))) /\
  (forall chatIDs callback, wf_chats (final (onAudio chatIDs callback this))).
Proof.
  intros [Hnd H0].
  assert (Hbase : forall chatIDs, wf_chats (final (onBase chatIDs this))).
  { intros chatIDs.
    destruct (onBase_run chatIDs this) as (_ & _ & _ & Honly & Hnd' & _). cbn zeta in *.
    split; [by apply Hnd'|]. intros H. by destruct (Honly 0 H) as [?|[_ ?]]. }
  destruct (registration_chats this) as (Hc & Hr & Ha & Hu).
  repeat split.
  - destruct (addValidChat_run chatID this) as (_ & _ & -> & _).
    destruct (Z.eqb_spec chatID 0); cbn [orb]; [done|].
    destruct (Js.includes_num (validChats this) chatID) eqn:E; [done|].
    apply bool_decide_eq_false in E. apply NoDup_app. repeat split; [done | | apply NoDup_singleton].
    intros x Hx Hx'. apply list_elem_of_singleton in Hx' as ->. contradiction.
  - destruct (addValidChat_run chatID this) as (_ & _ & -> & _).
    destruct (Z.eqb_spec chatID 0); cbn [orb]; [done|].
    destruct (Js.includes_num (validChats this) chatID); [done|].
    rewrite elem_of_app, list_elem_of_singleton. intros [?|?]; [done | by subst].
  - destruct (removeValidChat_run chatID this) as (_ & _ & ->). by apply remove_first_NoDup.
  - destruct (removeValidChat_run chatID this) as (_ & _ & ->).
    intros H. by apply remove_first_sub in H.
  - apply Hbase.
  - apply Hbase.
  - unfold wf_chats. rewrite (proj1 (Hc name chatIDs callback desc)). apply Hbase.
  - unfold wf_chats. rewrite (proj1 (Hc name chatIDs callback desc)). apply Hbase.
  - unfold wf_chats. rewrite (proj1 (Hr rx chatIDs callback desc)). apply Hbase.
  - unfold wf_chats. rewrite (proj1 (Hr rx chatIDs callback desc)). apply Hbase.
  - unfold wf_chats. rewrite (proj1 (Ha chatIDs callback)). apply Hbase.
  - unfold wf_chats. rewrite (proj1 (Ha chatIDs callback)). apply Hbase.
  - unfold wf_chats. rewrite (proj1 (Hu chatIDs callback)). apply Hbase.
  - unfold wf_chats. rewrite (proj1 (Hu chatIDs callback)). apply Hbase.
Qed.

Lemma authorized_chats_well_formed_witness :
  wf_chats Scenario.guarded /\ wf_chats (final (removeValidChat 300 Scenario.guarded)).
Proof.
  assert (H : wf_chats Scenario.guarded).
  { split; apply (bool_decide_unpack _); vm_compute; exact Logic.I. }
  split; [exact H|].
  exact (proj1 (proj2 (authorized_chats_well_formed Scenario.guarded H)) 300).
Defined.

Lemma sendError_logs (text : string) (error : option string) (this : TeleWrapper) :
  LoggerLog (ErrorText text error) ∈ trace (sendError text error this).
Proof.
  unfold sendError, async. cbn [trace].
  apply elem_trace_bind. cbn. left.
Qed.

(** X2. With a well-formed authorized list, [removeValidChat(c)] takes
    the authorization of [c] away, unless [c] is the debug chat, which
    [getValidChats] always answers; every other chat keeps its status, and
    nothing is logged. When [c] was not in the list, the list stays as it
    is and the error is logged. *)
Theorem removeValidChat_revokes (chatID : Z) (this : TeleWrapper) :
  wf_chats this ->
  let r := removeValidChat chatID this in
  (chatID ∈ getValidChats (final r) <-> chatID = debugChat this /\ chatID <> 0) /\
  (forall x, x <> chatID -> x ∈ getValidChats (final r) <-> x ∈ getValidChats this) /\
  (chatID ∈ validChats this -> trace r = []) /\
  (chatID ∉ validChats this ->
     validChats (final r) = validChats this /\
     LoggerLog (ErrorText "tried to remove non-existing valid chat" None) ∈ trace r).
Proof.
  intros [Hnd H0]. cbn zeta.
  destruct (removeValidChat_run chatID this) as (_ & Hd & Hv). cbn zeta in *.
  unfold getValidChats. rewrite Hd, Hv.
  assert (Hrm : forall x, x ∈ remove_first chatID (validChats this) <->
                          x ∈ validChats this /\ x <> chatID)
    by (intros x; by apply elem_of_remove_first).
  split; [|split; [|split]].
  - destruct (Z.eqb_spec (debugChat this) 0) as [E|E].
    + rewrite Hrm. split; [tauto|]. intros [-> ?]. done.
    + rewrite elem_of_cons, Hrm. split; [intros [?|[_ ?]]; [split; congruence | done]|].
      intros [? _]. by left.
  - intros x Hx. destruct (debugChat this =? 0).
    + rewrite Hrm. tauto.
    + rewrite !elem_of_cons, Hrm. tauto.
  - intros H. unfold removeValidChat. rewrite get_bind.
    unfold Js.includes_num. by rewrite (bool_decide_eq_true_2 _ H).
  - intros H. split; [by apply remove_first_absent|].
    unfold removeValidChat. rewrite get_bind.
    unfold Js.includes_num. rewrite (bool_decide_eq_false_2 _ H).
    apply elem_trace_bind, sendError_logs.
Qed.

Lemma removeValidChat_revokes_witness :
  (300 ∉ getValidChats (final (removeValidChat 300 Scenario.guarded))) /\
  (100 ∈ getValidChats (final (removeValidChat 300 Scenario.guarded))).
Proof.
  assert (H : wf_chats Scenario.guarded).
  { split; apply (bool_decide_unpack _); vm_compute; exact Logic.I. }
  pose proof (removeValidChat_revokes 300 Scenario.guarded H) as (H1 & H2 & _).
  split.
  - intros Hin. apply H1 in Hin as [Hin _]. vm_compute in Hin. discriminate Hin.
  - apply H2; [lia|]. apply (bool_decide_unpack _). vm_compute. exact Logic.I.
Defined.

(** X3. [addValidChat(c)], for [c] other than 0, leaves [c] authorized
    and changes the status of no other chat. A chat that was not in the
    list is added silently; for one that was, the list stays as it is and
    the duplicate is reported. *)
Theorem addValidChat_authorizes (chatID : Z) (this : TeleWrapper) :
  chatID <> 0 ->
  let r := addValidChat chatID this in
  (forall x, x ∈ validChats (final r) <-> x ∈ validChats this \/ x = chatID) /\
  (chatID ∉ validChats this -> trace r = []) /\
  (chatID ∈ validChats this ->
     validChats (final r) = validChats this /\
     LoggerLog (ErrorText "tried to add duplicate valid chat" None) ∈ trace r).
Proof.
  intros Hne. cbn zeta.
  destruct (addValidChat_run chatID this) as (_ & _ & Hv & Ht). cbn zeta in *.
  destruct (Z.eqb_spec chatID 0); [done|]. cbn [orb] in *.
  rewrite Hv. unfold Js.includes_num in *.
  split; [|split].
  - intros x. destruct (bool_decide_reflect (chatID ∈ validChats this)).
    + split; [by left | by intros [?| ->]].
    + rewrite elem_of_app, list_elem_of_singleton. tauto.
  - intros H. apply Ht. by rewrite (bool_decide_eq_false_2 _ H).
  - intros H. split; [by rewrite (bool_decide_eq_true_2 _ H)|].
    unfold addValidChat. rewrite get_bind.
    destruct (Z.eqb_spec chatID 0); [done|].
    unfold Js.includes_num. rewrite (bool_decide_eq_true_2 _ H). cbn [negb].
    apply elem_trace_bind, sendError_logs.
Qed.

Lemma addValidChat_authorizes_witness :
  500 ∈ validChats (final (addValidChat 500 Scenario.guarded)) /\
  trace (addValidChat 500 Scenario.guarded) = [].
Proof.
  pose proof (addValidChat_authorizes 500 Scenario.guarded ltac:(lia)) as (H1 & H2 & _).
  split; [apply H1; by right|].
  apply H2. apply (bool_decide_unpack _). vm_compute. exact Logic.I.
Defined.

(** X4. Adding a chat that was not authorized and removing it again
    gives the wrapper back as it was, and nothing is logged or sent. *)
Theorem add_then_remove_restores (chatID : Z) (this : TeleWrapper) :
  chatID <> 0 ->
  chatID ∉ validChats this ->
  (addValidChat chatID;; removeValidChat chatID) this =
    {| outcome := Returns tt; final := this; trace := [] |}.
Proof.
  intros Hne Hout.
  assert (Hadd : addValidChat chatID this =
            {| outcome := Returns tt;
               final := set_validChats (validChats this ++ [chatID]) this;
               trace := [] |}).
  { unfold addValidChat. rewrite get_bind.
    destruct (Z.eqb_spec chatID 0); [done|].
    unfold Js.includes_num. by rewrite (bool_decide_eq_false_2 _ Hout). }
  rewrite (bind_returns _ _ _ _ _ _ Hadd).
  unfold removeValidChat. rewrite get_bind. cbn [validChats set_validChats].
  unfold Js.includes_num. rewrite bool_decide_eq_true_2 by (apply elem_of_app; right; left).
  rewrite remove_first_snoc by done. by destruct this.
Qed.

Lemma add_then_remove_restores_witness :
  (addValidChat 500;; removeValidChat 500) Scenario.guarded =
    {| outcome := Returns tt; final := Scenario.guarded; trace := [] |}.
Proof.
  apply add_then_remove_restores; [lia|].
  apply (bool_decide_unpack _). vm_compute. exact Logic.I.
Defined.

(** X5. A registration with a chat scope authorizes the chats it names:
    after [onBase] every chat of the scope other than 0 is answered by
    [getValidChats], every chat authorized before still is, and no chat
    outside the scope is added. With no debug chat set nothing is logged
    or sent. [onCommand], [onRegex], [onAny] and [onAudio] leave the
    authorized chats as their call of [onBase] leaves them. *)
Theorem registration_authorizes_scope (chatIDs : ChatIDs) (this : TeleWrapper) :
  let r := onBase chatIDs this in
  (forall id, id ∈ to_ids chatIDs -> id <> 0 -> id ∈ getValidChats (final r)) /\
  (forall x, x ∈ getValidChats this -> x ∈ getValidChats (final r)) /\
  (forall x, x ∈ getValidChats (final r) -> x ∈ getValidChats this \/ x ∈ to_ids chatIDs) /\
  (debugChat this = 0 -> trace r = []) /\
  (forall name callback desc,
     getValidChats (final (onCommand name chatIDs callback desc this)) =
       getValidChats (final r)) /\
  (forall rx callback desc,
     getValidChats (final (onRegex rx chatIDs callback desc this)) =
       getValidChats (final r)) /\
  (forall callback,
     getValidChats (final (onAny chatIDs callback this)) = getValidChats (final r)) /\
  (forall callback,
     getValidChats (final (onAudio chatIDs callback this)) = getValidChats (final r)).
Proof.
  cbn zeta.
  destruct (onBase_run chatIDs this) as (Hd & Hmono & Hids & Honly & _ & Ht). cbn zeta in *.
  destruct (registration_chats this) as (Hc & Hr & Ha & Hu).
  split; [done|]. split; [|split; [|split; [done|]]].
  - intros x. unfold getValidChats. rewrite Hd.
    destruct (debugChat this =? 0); [apply Hmono|].
    rewrite !elem_of_cons. intros [?|?]; [by left | right; by apply Hmono].
  - intros x. unfold getValidChats. rewrite Hd.
    destruct (debugChat this =? 0).
    + intros H. destruct (Honly x H) as [?|[? _]]; tauto.
    + rewrite !elem_of_cons. intros [?|H]; [tauto|].
      destruct (Honly x H) as [?|[? _]]; tauto.
  - repeat split; intros; unfold getValidChats.
    + by destruct (Hc name chatIDs callback desc) as [-> ->].
    + by destruct (Hr rx chatIDs callback desc) as [-> ->].
    + by destruct (Ha chatIDs callback) as [-> ->].
    + by destruct (Hu chatIDs callback) as [-> ->].
Qed.

Lemma registration_authorizes_scope_witness :
  (100 ∈ getValidChats (final (onBase (ChatList [100; 0; 700]) Scenario.bot))) /\
  (700 ∈ getValidChats (final (onBase (ChatList [100; 0; 700]) Scenario.bot))).
Proof.
  pose proof (registration_authorizes_scope (ChatList [100; 0; 700]) Scenario.bot)
    as (H & _).
  split; apply H; try lia; apply (bool_decide_unpack _); vm_compute; exact Logic.I.
Defined.

(** X6. A call of [onCommand] that is rejected, for a token with a
    character outside [A-Za-z0-9_] or for a token that [commandList]
    already answers, stores nothing, and still authorizes the chats of its
    scope: [onBase] runs before the checks. *)
Theorem rejected_command_still_authorizes (name : string) (chatIDs : ChatIDs)
    (callback : CommandCallback) (desc : option string) (this : TeleWrapper) :
  Js.has_non_word name || Js.truthy (Js.js_get (commandList this) name) = true ->
  let r := onCommand name chatIDs callback desc this in
  outcome r = Returns tt /\
  commandList (final r) = commandList this /\
  (forall id, id ∈ to_ids chatIDs -> id <> 0 -> id ∈ getValidChats (final r)).
Proof.
  intros Hrej. cbn zeta. split; [|split].
  - unfold onCommand.
    rewrite (outcome_bind _ _ _ tt (onBase_returns chatIDs this)), get_bind.
    rewrite onBase_commandList.
    by repeat match goal with |- context [if ?b then _ else _] => destruct b end.
  - by rewrite onCommand_commandList, Hrej.
  - destruct (onBase_run chatIDs this) as (_ & _ & Hids & _).
    destruct (registration_chats this) as (Hc & _).
    destruct (Hc name chatIDs callback desc) as [Hv Hd].
    intros id Hid Hne. unfold getValidChats. rewrite Hv, Hd. by apply Hids.
Qed.

Lemma rejected_command_still_authorizes_witness :
  commandList (final (onCommand "say hi" (OneChat 700) Scenario.on_ping None Scenario.bot)) =
    commandList Scenario.bot /\
  (700 ∈ getValidChats
           (final (onCommand "say hi" (OneChat 700) Scenario.on_ping None Scenario.bot))).
Proof.
  pose proof (rejected_command_still_authorizes "say hi" (OneChat 700) Scenario.on_ping None
                Scenario.bot eq_refl) as (_ & H1 & H2).
  split; [exact H1|]. apply H2; [left | lia].
Defined.

Section RepeatedScope.

Context (copy : list Z) (id : Z).
Hypothesis id_nonzero : id <> 0.
Hypothesis id_fresh : id ∉ copy.

(** One turn of the loop of [onBase] on a copy of the authorized list. *)
Lemma onBase_copy_step (x : Z) (s : TeleWrapper) :
  let body := fun x => this ← get;
                if negb (Js.includes_num copy x) then addValidChat x else ret tt in
  outcome (body x s) = Returns tt /\
  (forall y, y ∈ validChats s -> y ∈ validChats (final (body x s))) /\
  (x = id -> id ∈ validChats (final (body x s))) /\
  (x = id -> id ∈ validChats s ->
     LoggerLog (ErrorText "tried to add duplicate valid chat" None) ∈ trace (body x s)).
Proof.
  cbn beta zeta. rewrite get_bind.
  destruct (Js.includes_num copy x) eqn:E; cbn [negb].
  - apply bool_decide_eq_true in E. repeat split; try done; intros ->; contradiction.
  - destruct (addValidChat_run x s) as (Ho & _ & Hv & _). cbn zeta in *.
    split; [done|]. rewrite Hv. split; [|split].
    + intros y Hy. destruct (_ || _); [done | apply elem_of_app; by left].
    + intros ->. destruct (Z.eqb_spec id 0); [done|]. cbn [orb].
      destruct (Js.includes_num (validChats s) id) eqn:E'.
      * by apply bool_decide_eq_true in E'.
      * apply elem_of_app. right. left.
    + intros -> Hin. unfold addValidChat. rewrite get_bind.
      destruct (Z.eqb_spec id 0); [done|].
      unfold Js.includes_num. rewrite (bool_decide_eq_true_2 _ Hin). cbn [negb].
      apply elem_trace_bind, sendError_logs.
Qed.

Lemma onBase_copy_loop (l : list Z) (s : TeleWrapper) :
  (id ∈ validChats s /\ id ∈ l) \/
  (exists before after, l = before ++ id :: after /\ id ∈ after) ->
  LoggerLog (ErrorText "tried to add duplicate valid chat" None) ∈
    trace (forEach l (fun x => this ← get;
             if negb (Js.includes_num copy x) then addValidChat x else ret tt) s).
Proof.
  revert s. induction l as [|x l IH]; intros s H.
  - destruct H as [[_ H] | (before & after & H & _)]; [inversion H | by destruct before].
  - cbn [forEach].
    destruct (onBase_copy_step x s) as (Ho & Hmono & Hadd & Hlog). cbn beta zeta in *.
    destruct H as [[Hs Hin] | (before & after & Hl & Hin)].
    + apply elem_of_cons in Hin as [<- | Hin].
      * by apply elem_trace_bind, Hlog.
      * eapply elem_trace_bind_r; [exact Ho|]. apply IH. left. split; [by apply Hmono | done].
    + eapply elem_trace_bind_r; [exact Ho|]. apply IH.
      destruct before as [|y before]; cbn in Hl; injection Hl as -> ->.
      * left. split; [by apply Hadd | done].
      * right. by exists before, after.
Qed.

End RepeatedScope.

(** X7. While a debug chat is set, [onBase] tests the chats of the scope
    against a copy of the authorized list taken before its loop: for a
    chat other than 0 that was not authorized and that the scope names
    twice, the error ['tried to add duplicate valid chat'] is logged.
    (With no debug chat the test reads the live list and nothing is
    recorded, see X5.) *)
Theorem repeated_scope_id_reported (chatIDs : ChatIDs) (id : Z) (before after : list Z)
    (this : TeleWrapper) :
  debugChat this <> 0 ->
  id <> 0 ->
  id ∉ getValidChats this ->
  to_ids chatIDs = before ++ id :: after ->
  id ∈ after ->
  LoggerLog (ErrorText "tried to add duplicate valid chat" None) ∈
    trace (onBase chatIDs this).
Proof.
  intros Hdebug Hne Hfresh Hids Hin.
  unfold onBase. rewrite get_bind.
  destruct (Z.eqb_spec (debugChat this) 0); [done|].
  apply (onBase_copy_loop (getValidChats this) id Hne Hfresh).
  right. by exists before, after.
Qed.

Lemma repeated_scope_id_reported_witness :
  LoggerLog (ErrorText "tried to add duplicate valid chat" None) ∈
    trace (onBase (ChatList [700; 800; 700]) (set_debugChat 900 Scenario.bot)).
Proof.
  apply (repeated_scope_id_reported (ChatList [700; 800; 700]) 700 [] [800; 700]).
  - vm_compute. discriminate.
  - lia.
  - intros H. apply (bool_decide_pack _) in H. vm_compute in H. exact H.
  - reflexivity.
  - apply (bool_decide_unpack _). vm_compute. exact Logic.I.
Defined.

(** ** The gate, when it lets an event through *)

Lemma validCommand_scope (msg : Message) (chatIDs : ChatIDs) (regex : bool) :
  validCommand msg chatIDs regex = validCommand msg (ChatList (to_ids chatIDs)) regex.
Proof. by destruct chatIDs. Qed.

(** X8. The gate answers [true] exactly for an event that is not stale
    and whose chat is in the scope of the handler, or is authorized while
    the scope is empty. When it answers [true] it has logged nothing,
    sent nothing, called no Invalid-handler and left the wrapper as it
    was. *)
Theorem gate_accepts_iff (this : TeleWrapper) (msg : Message) (chatIDs : ChatIDs)
    (regex : bool) :
  let r := validCommand msg chatIDs regex this in
  (outcome r = Returns true <-> ~ stale msg this /\ allowed msg (to_ids chatIDs) this) /\
  (outcome r = Returns true -> final r = this /\ trace r = []).
Proof.
  cbn zeta.
  assert (Hyes : ~ stale msg this /\ allowed msg (to_ids chatIDs) this ->
            validCommand msg chatIDs regex this =
              {| outcome := Returns true; final := this; trace := [] |}).
  { intros [Hfresh Hallow]. rewrite validCommand_scope. by apply validCommand_allows. }
  assert (Hno : outcome (validCommand msg chatIDs regex this) = Returns true ->
            ~ stale msg this /\ allowed msg (to_ids chatIDs) this).
  { unfold validCommand, stale, allowed. rewrite get_bind.
    destruct (Z.ltb_spec (msg_date msg * 1000) (startTime this)); [discriminate|].
    destruct (Js.includes_num (to_ids chatIDs) (msg_chat_id msg)) eqn:E.
    { intros _. apply bool_decide_eq_true in E. split; [lia | by left]. }
    destruct (Js.includes_num (getValidChats this) (msg_chat_id msg)) eqn:E'; cbn [andb negb].
    - destruct (to_ids chatIDs) as [|i ids]; cbn [length Nat.eqb].
      + intros _. apply bool_decide_eq_true in E'. split; [lia | by right].
      + destruct regex; [discriminate|].
        intros Hrun. apply bind_inv in Hrun as (h & _ & Hrun & _).
        apply bind_inv in Hrun as ([] & _ & Hrun & _). discriminate Hrun.
    - intros Hrun. apply bind_inv in Hrun as (h & _ & Hrun & _).
      apply bind_inv in Hrun as ([] & _ & Hrun & _). discriminate Hrun. }
  split; [split; [exact Hno | intros H; by rewrite (Hyes H)]|].
  intros H. by rewrite (Hyes (Hno H)).
Qed.

Lemma gate_accepts_iff_witness :
  outcome (validCommand (Scenario.text_event 100 2000 "/ping") (OneChat 100) false
             Scenario.guarded) = Returns true.
Proof.
  apply (proj2 (proj1 (gate_accepts_iff Scenario.guarded (Scenario.text_event 100 2000 "/ping")
                         (OneChat 100) false))).
  split; [unfold stale; vm_compute; discriminate | left; left].
Defined.

(** X9. In pattern mode the gate is silent for an authorized chat
    outside a scope that is not empty: the callback of the pattern is not
    called, no Invalid-handler is called and no report is logged or
    sent. *)
Theorem pattern_gate_silent (this : TeleWrapper) (msg : Message) (chatIDs : ChatIDs)
    (callback : RegexCallback) (handled : bool) (result : RegExpExecArray) :
  ~ stale msg this ->
  msg_chat_id msg ∈ getValidChats this ->
  msg_chat_id msg ∉ to_ids chatIDs ->
  to_ids chatIDs <> [] ->
  regexBase chatIDs callback msg handled result this =
    {| outcome := Returns tt; final := this; trace := [] |}.
Proof.
  intros Hfresh Hvalid Hout Hne. unfold stale in Hfresh.
  assert (Hgate : validCommand msg chatIDs true this =
            {| outcome := Returns false; final := this; trace := [] |}).
  { unfold validCommand. rewrite get_bind.
    destruct (Z.ltb_spec (msg_date msg * 1000) (startTime this)); [lia|].
    unfold Js.includes_num.
    rewrite (bool_decide_eq_false_2 _ Hout), (bool_decide_eq_true_2 _ Hvalid).
    destruct (to_ids chatIDs); done. }
  unfold regexBase. by rewrite (bind_returns _ _ _ _ _ _ Hgate).
Qed.

Lemma pattern_gate_silent_witness :
  regexBase (OneChat 300) Scenario.second (Scenario.text_event 100 2000 "hello") false ["hello"]
    Scenario.guarded =
    {| outcome := Returns tt; final := Scenario.guarded; trace := [] |}.
Proof.
  apply pattern_gate_silent.
  - unfold stale. vm_compute. discriminate.
  - apply (bool_decide_unpack _). vm_compute. exact Logic.I.
  - intros H. apply (bool_decide_pack _) in H. vm_compute in H. exact H.
  - discriminate.
Defined.

(** ** The listeners *)

Lemma sendError_returns (text : string) (error : option string) (this : TeleWrapper) :
  exists p, outcome (sendError text error this) = Returns p.
Proof. unfold sendError, async. by eexists. Qed.

(** X10. The listener of ['message'] never throws, whatever a handler
    does: an exception of a stage is caught, and reported through
    [sendError] with the text ['message error']. When no stage throws, the
    listener is the four stages and nothing more. *)
Theorem on_message_catches (msg : Message) (this : TeleWrapper) :
  outcome (on_message msg this) = Returns tt /\
  (forall error, outcome (message_stages msg this) = Throws error ->
     LoggerLog (ErrorText "message error" (Some error)) ∈ trace (on_message msg this)) /\
  (completes msg this -> on_message msg this = message_stages msg this).
Proof.
  unfold on_message, completes. split; [|split].
  - unfold try_catch. destruct (outcome (message_stages msg this)) as [[]|error] eqn:E.
    + exact E.
    + cbn [outcome].
      destruct (sendError_returns "message error" (Some error) (final (message_stages msg this)))
        as [p Hp].
      by rewrite (outcome_bind _ _ _ p Hp).
  - intros error E. unfold try_catch. rewrite E. cbn [trace].
    apply elem_of_app. right. apply elem_trace_bind, sendError_logs.
  - intros E. by apply try_catch_returns with (a := tt).
Qed.

Lemma on_message_catches_witness :
  LoggerLog (ErrorText "message error" (Some "Error: boom")) ∈
    trace (on_message (Scenario.text_event 100 2000 "hello") Scenario.with_broken_pattern).
Proof.
  apply (proj1 (proj2 (on_message_catches (Scenario.text_event 100 2000 "hello")
                         Scenario.with_broken_pattern))).
  vm_compute. reflexivity.
Defined.

(** X11. The listener of ['callback_query'] returns a promise that is
    always fulfilled, whatever the button callback does and whatever the
    client answers. An exception of the callback of a registered button
    is reported through [sendError], with the identifier of the button in
    the text. *)
Theorem on_callback_query_catches (query : CallbackQuery) (this : TeleWrapper) :
  outcome (on_callback_query query this) = Returns (Returns tt) /\
  (forall b error,
     buttonList this !! query_data query = Some b ->
     bc_run (btn_callback b) query = Throws error ->
     LoggerLog (ErrorText ("query error with button " +:+ query_data query) (Some error)) ∈
       trace (on_callback_query query this)).
Proof.
  split.
  - unfold on_callback_query, async. cbn [outcome]. f_equal.
    unfold try_catch.
    match goal with |- context [outcome (?m this)] =>
      destruct (outcome (m this)) as [[]|error] eqn:E end.
    + exact E.
    + cbn [outcome].
      match goal with |- outcome ((sendError ?t ?e ≫= _) ?s) = _ =>
        destruct (sendError_returns t e s) as [p Hp] end.
      by rewrite (outcome_bind _ _ _ p Hp).
  - intros b error Hb Hthrow.
    unfold on_callback_query, async, try_catch. cbn [trace].
    rewrite get_bind. unfold Js.js_get. rewrite Hb. cbn [Js.truthy].
    unfold mbind, M_bind, bind. cbn. rewrite Hthrow. cbn. right. left.
Qed.

Lemma on_callback_query_catches_witness :
  LoggerLog (ErrorText "query error with button btn_2" (Some "Error: boom")) ∈
    trace (on_callback_query (Scenario.press "btn_2") Scenario.with_buttons).
Proof.
  apply (proj2 (on_callback_query_catches (Scenario.press "btn_2") Scenario.with_buttons)
           {| btn_name := "btn_2"; btn_callback := Scenario.breaks |} "Error: boom").
  - vm_compute. reflexivity.
  - reflexivity.
Defined.

(** ** The handled flag, audio handlers and events without text *)

Lemma triple_forEach_in {A : Type} (I : TeleWrapper -> Prop) (P : Effect -> Prop)
    (l : list A) (f : A -> M unit) :
  (forall x, x ∈ l -> triple I P (f x) anything) -> triple I P (forEach l f) anything.
Proof.
  induction l as [|x l IH]; intros Hf; cbn [forEach].
  - by apply triple_ret.
  - eapply triple_bind; [apply Hf; left | intros _ _; apply IH].
    intros y Hy. apply Hf. by right.
Qed.

Section Flagged.

Context (I : TeleWrapper -> Prop) (P : Effect -> Prop) (msg : Message) (handled : bool).

Lemma audio_stage_flag :
  (forall s c, I s -> c ∈ audioList s -> in_scope c msg = true ->
     msg_voice msg || msg_audio msg = true ->
     P (CallAudio (ac_name (any_callback c)) msg handled)) ->
  triple I P (audio_stage msg handled) anything.
Proof.
  intros HP. unfold audio_stage. eapply triple_bind; [apply triple_get|].
  intros s Hs. destruct (msg_voice msg || msg_audio msg) eqn:E; [|by apply triple_ret].
  apply triple_forEach_in. intros c Hc.
  destruct (in_scope c msg) eqn:Hin; [|by apply triple_ret].
  unfold call_audio. eapply triple_bind; [apply triple_emit; by eapply HP|].
  intros _ _. eapply triple_forget, triple_lift.
Qed.

Lemma any_stage_flag :
  (forall s c, I s -> c ∈ anyList s -> in_scope c msg = true ->
     P (CallAny (ac_name (any_callback c)) msg handled)) ->
  triple I P (any_stage msg handled) anything.
Proof.
  intros HP. unfold any_stage. eapply triple_bind; [apply triple_get|].
  intros s Hs. apply triple_forEach_in. intros c Hc.
  destruct (in_scope c msg) eqn:Hin; [|by apply triple_ret].
  unfold call_any. eapply triple_bind; [apply triple_emit; by eapply HP|].
  intros _ _. eapply triple_forget, triple_lift.
Qed.

End Flagged.

Lemma command_stage_flag (msg : Message) (this : TeleWrapper) (h : bool) :
  outcome (command_stage msg this) = Returns h -> h = isCommand msg this.
Proof.
  unfold command_stage, isCommand. rewrite get_bind.
  destruct (has_text msg); cbn [andb]; [|by intros [= <-]].
  destruct (Js.truthy _); [|by intros [= <-]].
  intros H. apply bind_inv in H as ([] & _ & H & _).
  apply bind_inv in H as ([] & _ & H & _). by injection H as <-.
Qed.

Lemma regex_loop_flag (msg : Message) (entries : list (nat * IRegexCmd)) (handled after : bool)
    (this : TeleWrapper) :
  outcome (foldM entries (regex_step msg) handled this) = Returns after ->
  after = handled || first_match (text_of msg) entries.
Proof.
  revert handled this. induction entries as [|[key value] entries IH]; intros handled this H.
  - cbn in H. injection H as <-. by rewrite orb_false_r.
  - cbn [foldM] in H. apply bind_inv in H as (h & Hstep & Hrest & _).
    apply IH in Hrest as ->. cbn [first_match snd].
    unfold regex_step in Hstep.
    destruct (exec (regex value) (text_of msg)) as [result|].
    + apply bind_inv in Hstep as ([] & _ & Hstep & _).
      apply bind_inv in Hstep as ([] & _ & Hstep & _).
      apply bind_inv in Hstep as ([] & _ & Hstep & _).
      cbn in Hstep. injection Hstep as <-. by rewrite orb_true_r.
    + cbn in Hstep. by injection Hstep as <-.
Qed.

Lemma regex_stage_flag (msg : Message) (handled after : bool) (this : TeleWrapper) :
  outcome (regex_stage msg handled this) = Returns after ->
  after = handled || isRegex msg this.
Proof.
  unfold regex_stage, isRegex. rewrite get_bind.
  destruct (has_text msg); cbn [andb].
  - destruct handled; cbn [negb].
    + by intros [= <-].
    + apply regex_loop_flag.
  - intros [= <-]. by rewrite orb_false_r.
Qed.

Lemma audio_calls_none (t : list Effect) :
  Forall (fun e => is_call_audio e = false) t -> audio_calls t = [].
Proof.
  induction 1 as [|e t He _ IH]; [done|].
  unfold audio_calls in *. cbn. by rewrite He.
Qed.

Lemma audio_calls_app (t t' : list Effect) :
  audio_calls (t ++ t') = audio_calls t ++ audio_calls t'.
Proof. apply List.filter_app. Qed.

Lemma audio_loop_calls (msg : Message) (handled : bool) (l : list IAnyCmd) (this : TeleWrapper) :
  outcome (forEach l (fun c => if in_scope c msg then call_audio c msg handled else ret tt) this)
    = Returns tt ->
  trace (forEach l (fun c => if in_scope c msg then call_audio c msg handled else ret tt) this)
    = map (fun c => CallAudio (ac_name (any_callback c)) msg handled)
        (List.filter (fun c => in_scope c msg) l).
Proof.
  revert this. induction l as [|c l IH]; intros this H; [done|].
  cbn [forEach] in *. apply bind_inv in H as ([] & Hc & Hrest & -> & _).
  cbn [List.filter]. destruct (in_scope c msg).
  - unfold call_audio in *.
    destruct (ac_run (any_callback c) msg handled) as [[]|e] eqn:E; [|discriminate Hc].
    cbn in Hrest |- *. f_equal. by apply IH.
  - cbn in *. by apply IH.
Qed.

(** X12. Whenever no exception cuts the processing of the event short,
    the audio handlers and the catch-all handlers called are those whose
    scope holds the chat or is empty, in registration order, the audio
    handlers only for an event with a voice or audio part; and each
    receives, with the event, the flag that [isCommand] and [isRegex]
    answer for it: set exactly when the text names a stored command or is
    matched by a registered pattern. *)
Theorem handlers_after_routing (this : TeleWrapper) (msg : Message) :
  completes msg this ->
  audio_calls (trace (on_message msg this)) =
    (if msg_voice msg || msg_audio msg
     then map (fun c => CallAudio (ac_name (any_callback c)) msg (handled_flag msg this))
            (List.filter (fun c => in_scope c msg) (audioList this))
     else []) /\
  any_calls (trace (on_message msg this)) =
    map (fun c => CallAny (ac_name (any_callback c)) msg (handled_flag msg this))
      (List.filter (fun c => in_scope c msg) (anyList this)).
Proof.
  intros Hdone.
  unfold on_message. rewrite (try_catch_returns _ _ _ _ Hdone).
  unfold completes, message_stages in *.
  set (I := fun s => regexList s = regexList this /\ audioList s = audioList this /\
                     anyList s = anyList this).
  set (P := fun e => is_call_any e = false /\ is_call_audio e = false).
  assert (HI : forall l s, I s -> I (set_messageList l s)) by done.
  assert (HP : forall e, is_io e -> P e) by (by intros []).
  assert (I0 : I this) by done.
  apply bind_inv in Hdone as (h1 & H1 & Hdone & -> & _).
  destruct (command_stage_triple I P HI HP msg ltac:(by intros []) this I0) as (I1 & P1 & _).
  apply command_stage_flag in H1 as Hh1.
  apply bind_inv in Hdone as (h2 & H2 & Hdone & -> & _).
  destruct (regex_stage_triple I P HI HP msg h1 ltac:(by intros []) _ I1) as (I2 & P2 & _).
  apply regex_stage_flag in H2 as Hh2.
  assert (Hflag : h2 = handled_flag msg this).
  { rewrite Hh2, Hh1. unfold handled_flag, isRegex. by destruct I1 as [-> _]. }
  clear Hh1 Hh2. subst h2.
  apply bind_inv in Hdone as ([] & H3 & H4 & -> & _).
  set (s1 := final (command_stage msg this)) in *.
  set (s2 := final (regex_stage msg h1 s1)) in *.
  assert (Haudio : final (audio_stage msg (handled_flag msg this) s2) = s2 /\
            trace (audio_stage msg (handled_flag msg this) s2) =
              if msg_voice msg || msg_audio msg
              then map (fun c => CallAudio (ac_name (any_callback c)) msg (handled_flag msg this))
                     (List.filter (fun c => in_scope c msg) (audioList this))
              else []).
  { destruct I2 as (_ & <- & _). clear H4. unfold audio_stage in *.
    rewrite get_bind in *. destruct (msg_voice msg || msg_audio msg); [|done].
    split; [|by apply audio_loop_calls].
    assert (Hs : triple (fun s => s = s2) (fun _ => True)
                   (forEach (audioList s2)
                      (fun c => if in_scope c msg
                                then call_audio c msg (handled_flag msg this) else ret tt))
                   anything).
    { unfold call_audio. triples. }
    by destruct (Hs s2 eq_refl) as (? & _). }
  destruct Haudio as [Hs3 Ht3]. rewrite Hs3 in H4 |- *. rewrite Ht3.
  assert (Hany : trace (any_stage msg (handled_flag msg this) s2) =
            map (fun c => CallAny (ac_name (any_callback c)) msg (handled_flag msg this))
              (List.filter (fun c => in_scope c msg) (anyList this))).
  { destruct I2 as (_ & _ & <-). unfold any_stage in *.
    rewrite get_bind in *. by apply any_loop_calls. }
  rewrite Hany.
  unfold P in P1, P2. rewrite Forall_and in P1, P2. destruct P1 as [P1a P1b], P2 as [P2a P2b].
  rewrite !audio_calls_app, !any_calls_app.
  rewrite (audio_calls_none _ P1b), (audio_calls_none _ P2b).
  rewrite (any_calls_none _ P1a), (any_calls_none _ P2a). cbn [app].
  assert (Ha : forall h l,
            audio_calls (map (fun c : IAnyCmd => CallAudio (ac_name (any_callback c)) msg h) l) =
              map (fun c => CallAudio (ac_name (any_callback c)) msg h) l /\
            any_calls (map (fun c : IAnyCmd => CallAudio (ac_name (any_callback c)) msg h) l) = []).
  { intros h l. unfold audio_calls, any_calls.
    induction l as [|c l [IH1 IH2]]; [done|]. cbn. by rewrite IH1, IH2. }
  assert (Hb : forall h l,
            any_calls (map (fun c : IAnyCmd => CallAny (ac_name (any_callback c)) msg h) l) =
              map (fun c => CallAny (ac_name (any_callback c)) msg h) l /\
            audio_calls (map (fun c : IAnyCmd => CallAny (ac_name (any_callback c)) msg h) l) = []).
  { intros h l. unfold audio_calls, any_calls.
    induction l as [|c l [IH1 IH2]]; [done|]. cbn. by rewrite IH1, IH2. }
  rewrite (proj1 (Hb _ _)), (proj2 (Hb _ _)), app_nil_r.
  destruct (msg_voice msg || msg_audio msg).
  - by rewrite (proj1 (Ha _ _)), (proj2 (Ha _ _)).
  - done.
Qed.

Lemma handlers_after_routing_witness :
  audio_calls (trace (on_message (Scenario.voice_note 100) Scenario.with_audio)) =
    [CallAudio "on_voice" (Scenario.voice_note 100) false] /\
  any_calls (trace (on_message (Scenario.voice_note 100) Scenario.with_audio)) =
    [CallAny "catch_all" (Scenario.voice_note 100) false].
Proof.
  apply (handlers_after_routing Scenario.with_audio (Scenario.voice_note 100)).
  vm_compute. reflexivity.
Defined.

(** X13. An audio handler is called only for an event that carries a
    voice or an audio part, only with that event, and only when the scope
    it was registered with holds the chat of the event or is empty. This
    holds on every path, also when a handler throws. *)
Theorem audio_handlers_need_audio (this : TeleWrapper) (msg m : Message) (name : string)
    (handled : bool) :
  CallAudio name m handled ∈ trace (on_message msg this) ->
  msg_voice msg || msg_audio msg = true /\
  m = msg /\
  exists c, c ∈ audioList this /\ in_scope c msg = true /\ name = ac_name (any_callback c).
Proof.
  set (I := fun s => audioList s = audioList this).
  set (P := fun e => match e with
                     | CallAudio n m' _ =>
                         msg_voice msg || msg_audio msg = true /\ m' = msg /\
                         exists c, c ∈ audioList this /\ in_scope c msg = true /\
                                   n = ac_name (any_callback c)
                     | _ => True
                     end).
  assert (HI : forall l s, I s -> I (set_messageList l s)) by done.
  assert (HP : forall e, is_io e -> P e) by (by intros []).
  assert (H : triple I P (on_message msg) anything).
  { unfold on_message, message_stages. apply triple_try_catch.
    - eapply triple_bind; [apply (command_stage_triple I P HI HP); by intros []|].
      intros h1 _.
      eapply triple_bind; [apply (regex_stage_triple I P HI HP); by intros []|].
      intros h2 _.
      eapply triple_bind.
      + apply audio_stage_flag. intros s c Hs Hc Hin Hav. unfold I in Hs. rewrite Hs in Hc.
        cbn. eauto 10.
      + intros _ _. apply any_stage_flag. done.
    - intros error. triples. by apply sendError_triple. }
  destruct (H this eq_refl) as (_ & Htrace & _).
  rewrite Forall_forall in Htrace. intros Hin. exact (Htrace _ Hin).
Qed.

Lemma audio_handlers_need_audio_witness :
  msg_voice (Scenario.voice_note 100) || msg_audio (Scenario.voice_note 100) = true /\
  Scenario.voice_note 100 = Scenario.voice_note 100 /\
  exists c, c ∈ audioList Scenario.with_audio /\
            in_scope c (Scenario.voice_note 100) = true /\
            "on_voice" = ac_name (any_callback c).
Proof.
  apply (audio_handlers_need_audio Scenario.with_audio (Scenario.voice_note 100)
           (Scenario.voice_note 100) "on_voice" false).
  vm_compute. left.
Defined.

(** X14. An event without text (a photo, a sticker, a voice note without
    caption) is routed by nothing that reads the text: no command and no
    pattern is tried, the gate is not consulted, no Invalid-handler is
    called, no unauthorized-access report is made and nothing is deleted.
    All the listener records is calls of audio and catch-all handlers for
    that event, with the handled flag unset, and the report of an
    exception one of them threw. *)
Theorem textless_event_skips_routing (this : TeleWrapper) (msg : Message) :
  has_text msg = false ->
  Forall (textless_effect msg) (trace (on_message msg this)).
Proof.
  intros Htext.
  set (I := fun _ : TeleWrapper => True).
  assert (HI : forall l s, I s -> I (set_messageList l s)) by done.
  assert (H : triple I (textless_effect msg) (on_message msg) anything).
  { unfold on_message, message_stages. apply triple_try_catch.
    - eapply triple_bind with (Q := fun h => h = false).
      { unfold command_stage. eapply triple_bind; [apply triple_get|].
        intros s _. rewrite Htext. cbn [andb]. by apply triple_ret. }
      intros h1 ->.
      eapply triple_bind with (Q := fun h => h = false).
      { unfold regex_stage. eapply triple_bind; [apply triple_get|].
        intros s _. rewrite Htext. cbn [andb]. by apply triple_ret. }
      intros h2 ->.
      eapply triple_bind; [apply audio_stage_flag; by intros|].
      intros _ _. apply any_stage_flag. by intros.
    - intros error. eapply triple_bind; [|intros; by apply triple_ret].
      unfold sendError. triples. by apply messageListAppend_triple. }
  by destruct (H this Logic.I) as (_ & ? & _).
Qed.

Lemma textless_event_skips_routing_witness :
  Forall (textless_effect (Scenario.voice_note 999))
    (trace (on_message (Scenario.voice_note 999) Scenario.with_audio)).
Proof. apply textless_event_skips_routing. reflexivity. Defined.

(** ** From registration to the handler *)

Lemma is_word_not_space (c : ascii) : Js.is_word c = true -> Ascii.eqb c " " = false.
Proof.
  intros H. destruct (Ascii.eqb_spec c " ") as [->|]; [|done].
  vm_compute in H. discriminate H.
Qed.

Lemma take_word_all (t : string) : Js.all_word t = true -> Js.take_word t = t.
Proof.
  induction t as [|c t IH]; cbn; [done|].
  intros H. apply andb_prop in H as [Hc Ht]. rewrite Hc. f_equal. auto.
Qed.

Lemma extractCommand_bare (t : string) :
  Js.word_token t = true -> extractCommand ("/" +:+ t) = t.
Proof.
  intros H. change ("/" +:+ t) with (String "/" t).
  unfold extractCommand, Js.exec_command_regex.
  assert (Ha : Js.all_word t = true) by (destruct t; [discriminate | exact H]).
  rewrite (take_word_all t Ha). destruct t; [discriminate | reflexivity].
Qed.

Lemma drop_non_space_word (t rest : string) :
  Js.all_word t = true ->
  drop_non_space (t +:+ String " " rest) = String " " rest.
Proof.
  induction t as [|c t IH]; [reflexivity|].
  change (String c t +:+ String " " rest) with (String c (t +:+ String " " rest)).
  cbn [drop_non_space Js.all_word].
  intros H. apply andb_prop in H as [Hc Ht]. rewrite (is_word_not_space c Hc). auto.
Qed.

Lemma drop_non_space_all (t : string) :
  Js.all_word t = true -> drop_non_space t = EmptyString.
Proof.
  induction t as [|c t IH]; cbn [drop_non_space Js.all_word]; [done|].
  intros H. apply andb_prop in H as [Hc Ht]. rewrite (is_word_not_space c Hc). auto.
Qed.

(** The content a command callback receives: the text after the token and
    one space. *)
Lemma content_after_token (t rest : string) :
  Js.all_word t = true ->
  remove_first_token ("/" +:+ t +:+ " " +:+ rest) = rest /\
  remove_first_token ("/" +:+ t) = EmptyString.
Proof.
  intros H. split.
  - change ("/" +:+ t +:+ " " +:+ rest) with (String "/" (t +:+ String " " rest)).
    cbn [remove_first_token]. change (Ascii.eqb "/" " ") with false. cbn match.
    by rewrite drop_non_space_word.
  - change ("/" +:+ t) with (String "/" t).
    cbn [remove_first_token]. change (Ascii.eqb "/" " ") with false. cbn match.
    by rewrite drop_non_space_all.
Qed.

Lemma onCommand_startTime (name : string) (chatIDs : ChatIDs) (callback : CommandCallback)
    (desc : option string) (this : TeleWrapper) :
  startTime (final (onCommand name chatIDs callback desc this)) = startTime this.
Proof.
  set (I := fun s => startTime s = startTime this).
  assert (HI : forall l s, I s -> I (set_messageList l s)) by done.
  assert (H : triple I (fun _ => True) (onCommand name chatIDs callback desc) anything).
  { unfold onCommand, onBase, addValidChat. triples; try done. by apply sendError_triple. }
  by destruct (H this eq_refl) as (? & _).
Qed.

(** An event whose token is a stored command reaches no pattern. *)
Lemma command_hit_no_patterns (this : TeleWrapper) (msg : Message) (c : ICommand) :
  has_text msg = true ->
  commandList this !! token_of msg = Some c ->
  pattern_calls (trace (on_message msg this)) = [].
Proof.
  intros Htext Hc. apply pattern_calls_none.
  set (I := fun s => commandList s = commandList this).
  set (P := fun e => is_invoke_pattern e = false).
  assert (HI : forall l s, I s -> I (set_messageList l s)) by done.
  assert (HP : forall e, is_io e -> P e) by (by intros []).
  assert (HG : forall e, gate_effect e -> P e) by (by intros []).
  assert (H : triple I P (on_message msg) anything).
  { unfold on_message, message_stages. apply triple_try_catch.
    - eapply triple_bind with (Q := fun handled => handled = true).
      + unfold command_stage. eapply triple_bind; [apply triple_get|].
        intros s Hs. fold (token_of msg). unfold Js.js_get.
        rewrite Hs, Hc, Htext. cbn [andb Js.truthy].
        eapply triple_bind; [by apply deleteIfMentioned_triple|]. intros _ _.
        eapply triple_bind; [|intros; by apply triple_ret].
        eapply triple_bind; [by apply triple_emit|]. intros _ _.
        by apply commandBase_triple.
      + intros handled ->. unfold regex_stage. rewrite Htext. cbn [negb andb].
        triples.
        * apply audio_stage_triple. done.
        * apply any_stage_triple. done.
    - intros error. triples. by apply sendError_triple. }
  by destruct (H this eq_refl) as (_ & ? & _).
Qed.

(** X15. Registration and dispatch fit together. After [onCommand] has
    stored a token, an event that is not stale, comes from a chat of the
    scope and whose text is [/], the token in any letter case, and then
    nothing or a space and a content, reaches the registered callback,
    with that content (the empty string when there is none); and no
    pattern is tried for it. *)
Theorem registered_command_round_trip (name t content : string) (chatIDs : ChatIDs)
    (callback : CommandCallback) (desc : option string) (this : TeleWrapper)
    (msg : Message) :
  Js.has_non_word name = false ->
  Js.truthy (Js.js_get (commandList this) name) = false ->
  Js.word_token t = true ->
  Js.toLocaleLowerCase t = Js.toLocaleLowerCase name ->
  msg_text msg = Some ("/" +:+ t +:+ " " +:+ content) \/
  (msg_text msg = Some ("/" +:+ t) /\ content = EmptyString) ->
  ~ stale msg this ->
  msg_chat_id msg ∈ to_ids chatIDs ->
  let r := on_message msg (final (onCommand name chatIDs callback desc this)) in
  CallCommand (cc_name callback) msg content ∈ trace r /\
  pattern_calls (trace r) = [].
Proof.
  intros Hname Hnew Ht Hfold Htext Hfresh Hscope. cbn zeta.
  set (s := final (onCommand name chatIDs callback desc this)).
  set (c := {| command := name; cmd_chatIDs := to_ids chatIDs;
               cmd_desc := default "(empty)" desc; cmd_callback := callback |}).
  assert (Ha : Js.all_word t = true) by (destruct t; [discriminate | exact Ht]).
  assert (Hhas : has_text msg = true).
  { unfold has_text. by destruct Htext as [-> | [-> _]]. }
  assert (Htoken : token_of msg = Js.toLocaleLowerCase name).
  { unfold token_of, text_of. rewrite <- Hfold.
    destruct Htext as [-> | [-> _]]; cbn [default from_option id];
      by rewrite ?extractCommand_token, ?extractCommand_bare. }
  assert (Hcontent : content_of msg = content).
  { unfold content_of. destruct (content_after_token t content Ha) as [H1 H2].
    by destruct Htext as [-> | [-> ->]]. }
  assert (Hc : commandList s !! token_of msg = Some c).
  { unfold s. rewrite onCommand_commandList, Hname, Hnew, Htoken. cbn [orb].
    apply lookup_insert_eq. }
  split.
  - rewrite <- Hcontent.
    apply (registered_command_reaches_handler s msg c Hhas Hc).
    + unfold stale, s. by rewrite onCommand_startTime.
    + by left.
  - by apply (command_hit_no_patterns s msg c).
Qed.

Lemma registered_command_round_trip_witness :
  let event := Scenario.text_event 100 2000 "/pInG now please" in
  let r := on_message event
             (final (onCommand "Ping" (OneChat 100) Scenario.on_ping None Scenario.bot)) in
  CallCommand "on_ping" event "now please" ∈ trace r /\ pattern_calls (trace r) = [].
Proof.
  apply (registered_command_round_trip "Ping" "pInG" "now please" (OneChat 100)
           Scenario.on_ping None Scenario.bot).
  - reflexivity.
  - reflexivity.
  - reflexivity.
  - reflexivity.
  - left. reflexivity.
  - unfold stale. vm_compute. discriminate.
  - left.
Defined.

Lemma empty_key_not_inherited (commands : gmap string ICommand) :
  bool_decide (EmptyString ∈ Js.prototype_fields commands) = false.
Proof.
  unfold Js.prototype_fields. destruct (commands !! "__proto__") as [c|]; [|reflexivity].
  unfold Js.truthy_fields, ICommand_fields.
  destruct (String.eqb (command c) EmptyString), (String.eqb (cmd_desc c) EmptyString);
    reflexivity.
Qed.

(** X16. [onCommand] accepts the empty token: it holds no character
    outside [A-Za-z0-9_]. Once it is stored, every text from which
    [extractCommand] gets no token (a text that does not start with [/])
    is taken for that command: its callback is called, for an event that
    is not stale and comes from a chat of the scope, and the patterns no
    longer see such a text. *)
Theorem empty_token_takes_plain_text (text : string) (chatIDs : ChatIDs)
    (callback : CommandCallback) (desc : option string) (this : TeleWrapper)
    (msg : Message) :
  commandList this !! EmptyString = None ->
  msg_text msg = Some text ->
  text <> EmptyString ->
  Js.starts_with "/" text = false ->
  ~ stale msg this ->
  msg_chat_id msg ∈ to_ids chatIDs ->
  let r := on_message msg (final (onCommand EmptyString chatIDs callback desc this)) in
  CallCommand (cc_name callback) msg (remove_first_token text) ∈ trace r /\
  pattern_calls (trace r) = [].
Proof.
  intros Hnew Htext Hne Hplain Hfresh Hscope. cbn zeta.
  set (s := final (onCommand EmptyString chatIDs callback desc this)).
  set (c := {| command := EmptyString; cmd_chatIDs := to_ids chatIDs;
               cmd_desc := default "(empty)" desc; cmd_callback := callback |}).
  assert (Hhas : has_text msg = true).
  { unfold has_text. rewrite Htext. by destruct text. }
  assert (Htoken : token_of msg = EmptyString).
  { unfold token_of, text_of. rewrite Htext. cbn [default from_option id].
    by rewrite extractCommand_no_slash. }
  assert (Hc : commandList s !! token_of msg = Some c).
  { unfold s. rewrite onCommand_commandList, Htoken. unfold Js.js_get.
    rewrite Hnew, empty_key_not_inherited. cbn. apply lookup_insert_eq. }
  split.
  - replace (remove_first_token text) with (content_of msg)
      by (unfold content_of; by rewrite Htext).
    apply (registered_command_reaches_handler s msg c Hhas Hc).
    + unfold stale, s. by rewrite onCommand_startTime.
    + by left.
  - by apply (command_hit_no_patterns s msg c).
Qed.

Lemma empty_token_takes_plain_text_witness :
  let event := Scenario.text_event 100 2000 "hello there" in
  let r := on_message event
             (final (onCommand EmptyString (OneChat 100) Scenario.on_ping None
                       Scenario.with_patterns)) in
  CallCommand "on_ping" event "there" ∈ trace r /\ pattern_calls (trace r) = [].
Proof.
  apply (empty_token_takes_plain_text "hello there" (OneChat 100) Scenario.on_ping None
           Scenario.with_patterns).
  - vm_compute. reflexivity.
  - reflexivity.
  - discriminate.
  - reflexivity.
  - unfold stale. vm_compute. discriminate.
  - left.
Defined.

(** ** The outbox, for every capacity *)

Lemma messageListAppend_run (msg : Message) (this : TeleWrapper) :
  messageListAppend msg this =
    {| outcome := Returns tt;
       final := set_messageList (appended (messageListLength this) (messageList this) msg) this;
       trace := [] |}.
Proof. reflexivity. Qed.

(** The cut of [messageListAppend], for an outbox at or over its
    capacity. *)
Lemma appended_cut (n : Z) (l : list Message) (m : Message) :
  1 <= n ->
  n <= Z.of_nat (length l) + 1 ->
  appended n l m = drop (length l + 1 - Z.to_nat (ceil_tenth n)) l ++ [m].
Proof.
  intros Hn Hfull. unfold appended.
  assert (Hl : Z.of_nat (length (l ++ [m])) = Z.of_nat (length l) + 1)
    by (rewrite length_app; simpl; lia).
  rewrite Hl. destruct (Z.leb_spec n (Z.of_nat (length l) + 1)); [|lia].
  assert (Hc : 1 <= ceil_tenth n <= n).
  { unfold ceil_tenth.
    pose proof (Z.div_mod (n + 9) 10 ltac:(lia)).
    pose proof (Z.mod_pos_bound (n + 9) 10 ltac:(lia)). lia. }
  assert (Hs : slice_start (Z.of_nat (length l) + 1) n =
               Z.of_nat (length l) + 1 - ceil_tenth n).
  { unfold slice_start, ceil_tenth in *.
    rewrite Z.quot_div_nonneg by lia.
    pose proof (Z.div_mod (10 * (Z.of_nat (length l) + 1) - n) 10 ltac:(lia)).
    pose proof (Z.mod_pos_bound (10 * (Z.of_nat (length l) + 1) - n) 10 ltac:(lia)).
    pose proof (Z.div_mod (n + 9) 10 ltac:(lia)).
    pose proof (Z.mod_pos_bound (n + 9) 10 ltac:(lia)).
    lia. }
  rewrite Hs, <- Hl, slice_to_end by lia.
  rewrite Hl.
  replace (Z.to_nat (Z.of_nat (length l) + 1 - ceil_tenth n))
    with (length l + 1 - Z.to_nat (ceil_tenth n))%nat by lia.
  apply drop_app_le. lia.
Qed.

(** X17. One append, for a capacity of at least 1 and an outbox of any
    length. Below the capacity the entry is added at the end. Once the
    length with the new entry reaches the capacity, the outbox is cut down
    to its [ceil (capacity / 10)] most recent entries. In both cases the
    new entry is the last one of the outbox, and the outbox is left with
    at most [capacity - 1] entries (one entry, for capacity 1). *)
Theorem outbox_append_bounds (msg : Message) (this : TeleWrapper) :
  1 <= messageListLength this ->
  let n := messageListLength this in
  let pushed := messageList this ++ [msg] in
  let after := messageList (final (messageListAppend msg this)) in
  (Z.of_nat (length pushed) < n -> after = pushed) /\
  (n <= Z.of_nat (length pushed) ->
     after = drop (length pushed - Z.to_nat (ceil_tenth n)) pushed /\
     Z.of_nat (length after) = ceil_tenth n) /\
  last after = Some msg /\
  1 <= Z.of_nat (length after) <= Z.max (n - 1) 1.
Proof.
  intros Hn. cbn zeta. rewrite messageListAppend_run. cbn [final].
  destruct this as [vc co bi st n dc cl bl rl al aul il l]. cbn [messageList messageListLength
    set_messageList] in *.
  assert (Hl : length (l ++ [msg]) = (length l + 1)%nat) by (rewrite length_app; simpl; lia).
  assert (Hc : 1 <= ceil_tenth n <= n /\ (2 <= n -> ceil_tenth n <= n - 1)).
  { unfold ceil_tenth.
    pose proof (Z.div_mod (n + 9) 10 ltac:(lia)).
    pose proof (Z.mod_pos_bound (n + 9) 10 ltac:(lia)). lia. }
  destruct (Z.lt_ge_cases (Z.of_nat (length l) + 1) n) as [Hbelow | Hfull].
  - rewrite appended_below by lia. rewrite Hl.
    split; [done|]. split; [lia|]. split; [apply last_snoc | lia].
  - rewrite appended_cut by lia. rewrite Hl.
    assert (Hd : drop (length l + 1 - Z.to_nat (ceil_tenth n)) (l ++ [msg]) =
                 drop (length l + 1 - Z.to_nat (ceil_tenth n)) l ++ [msg])
      by (apply drop_app_le; lia).
    assert (Hlen : Z.of_nat (length (drop (length l + 1 - Z.to_nat (ceil_tenth n)) l ++ [msg]))
                   = ceil_tenth n).
    { rewrite length_app, length_drop. simpl. lia. }
    split; [lia|]. split; [intros _; by rewrite Hd|].
    split; [apply last_snoc | lia].
Qed.

Lemma outbox_append_bounds_witness :
  messageList (final (messageListAppend (Scenario.entry 1 3)
                        (set_messageList (Scenario.entries 1 2) (Scenario.outbox 3)))) =
    drop (3 - Z.to_nat (ceil_tenth 3)) (Scenario.entries 1 2 ++ [Scenario.entry 1 3]) /\
  Z.of_nat (length (messageList (final (messageListAppend (Scenario.entry 1 3)
                      (set_messageList (Scenario.entries 1 2) (Scenario.outbox 3)))))) =
    ceil_tenth 3.
Proof.
  apply (outbox_append_bounds (Scenario.entry 1 3)
           (set_messageList (Scenario.entries 1 2) (Scenario.outbox 3))).
  - vm_compute. discriminate.
  - vm_compute. discriminate.
Defined.

(** X18. With a capacity of 0 or less the outbox remembers nothing: it
    is empty after every append, so that a later [clearMessages] finds
    nothing to delete. *)
Theorem outbox_capacity_nonpositive (msg : Message) (this : TeleWrapper) :
  messageListLength this <= 0 ->
  messageList (final (messageListAppend msg this)) = [] /\
  forall chatIDs exclude_msgs,
    trace (clearMessages chatIDs exclude_msgs (final (messageListAppend msg this))) = [].
Proof.
  intros Hn.
  assert (Hempty : messageList (final (messageListAppend msg this)) = []).
  { rewrite messageListAppend_run. cbn [final].
    destruct this as [vc co bi st n dc cl bl rl al aul il l]. cbn [messageList messageListLength
      set_messageList] in *.
    unfold appended. set (len := Z.of_nat (length (l ++ [msg]))).
    assert (Hlen : 1 <= len) by (unfold len; rewrite length_app; simpl; lia).
    destruct (Z.leb_spec n len); [|lia].
    assert (Hs : len <= slice_start len n).
    { unfold slice_start. rewrite Z.quot_div_nonneg by lia.
      apply Z.div_le_lower_bound; lia. }
    unfold Js.slice. fold len.
    destruct (Z.ltb_spec (slice_start len n) 0); [lia|].
    destruct (Z.ltb_spec len 0); [lia|].
    rewrite !Z.min_r by lia.
    by replace (Z.to_nat (len - len)) with 0%nat by lia. }
  split; [exact Hempty|]. intros chatIDs exclude_msgs.
  rewrite clearMessages_run. cbn [trace]. by rewrite Hempty.
Qed.

Lemma outbox_capacity_nonpositive_witness :
  messageList (final (messageListAppend (Scenario.entry 1 1) (Scenario.outbox 0))) = [].
Proof.
  apply (outbox_capacity_nonpositive (Scenario.entry 1 1) (Scenario.outbox 0)).
  vm_compute. discriminate.
Defined.


(** ** Sending *)

Lemma appended_last (n : Z) (l : list Message) (m : Message) :
  1 <= n -> last (appended n l m) = Some m.
Proof.
  intros Hn. destruct (Z.lt_ge_cases (Z.of_nat (length l) + 1) n).
  - rewrite appended_below by lia. apply last_snoc.
  - rewrite appended_cut by lia. apply last_snoc.
Qed.

Lemma sendMessage_valid (text : Text) (chatID : Z) (this : TeleWrapper) :
  chatID ∈ getValidChats this ->
  sendMessage text chatID this =
    match sendMessage_settles (core this) chatID text with
    | Returns sent =>
        {| outcome := Returns (Returns sent);
           final := set_messageList
                      (appended (messageListLength this) (messageList this) sent) this;
           trace := [CoreSendMessage chatID text] |}
    | Throws error =>
        {| outcome := Returns (Throws error); final := this;
           trace := [CoreSendMessage chatID text] |}
    end.
Proof.
  intros Hin.
  assert (Hbase : sendMessageBase text chatID this =
            match sendMessage_settles (core this) chatID text with
            | Returns sent =>
                {| outcome := Returns (Returns sent);
                   final := set_messageList
                              (appended (messageListLength this) (messageList this) sent) this;
                   trace := [CoreSendMessage chatID text] |}
            | Throws error =>
                {| outcome := Returns (Throws error); final := this;
                   trace := [CoreSendMessage chatID text] |}
            end).
  { unfold sendMessageBase, async. rewrite get_bind.
    unfold Js.includes_num. rewrite (bool_decide_eq_true_2 _ Hin).
    erewrite bind_returns by reflexivity.
    destruct (sendMessage_settles (core this) chatID text) as [sent|error].
    - erewrite bind_returns by reflexivity.
      erewrite bind_returns by apply messageListAppend_run. reflexivity.
    - reflexivity. }
  unfold sendMessage, async.
  destruct (sendMessage_settles (core this) chatID text) as [sent|error];
    rewrite (bind_returns _ _ _ _ _ _ Hbase); reflexivity.
Qed.

Lemma sendMessage_delivered (text : Text) (chatID : Z) (sent : Message) (this : TeleWrapper) :
  chatID ∈ getValidChats this ->
  sendMessage_settles (core this) chatID text = Returns sent ->
  sendMessage text chatID this =
    {| outcome := Returns (Returns sent);
       final := set_messageList
                  (appended (messageListLength this) (messageList this) sent) this;
       trace := [CoreSendMessage chatID text] |}.
Proof. intros Hin Hsent. by rewrite (sendMessage_valid text chatID this Hin), Hsent. Qed.

(** What [sendError] records: the log entry, and the send to the debug
    chat when one is set. *)
Lemma sendError_trace (text : string) (error : option string) (this : TeleWrapper) :
  trace (sendError text error this) =
    LoggerLog (ErrorText text error) ::
    (if debugChat this =? 0 then [] else [CoreSendMessage (debugChat this) (ErrorText text error)]).
Proof.
  unfold sendError, async. cbn [trace].
  erewrite bind_returns by reflexivity. cbn [trace app]. f_equal.
  rewrite get_bind.
  destruct (debugChat this =? 0); [reflexivity|].
  erewrite bind_returns by reflexivity. cbn [trace app]. f_equal.
  destruct (sendMessage_settles (core this) (debugChat this) (ErrorText text error))
    as [m|e].
  - erewrite bind_returns by reflexivity. reflexivity.
  - reflexivity.
Qed.

Lemma sendMessage_refused (text : Text) (chatID : Z) (this : TeleWrapper) :
  chatID ∉ getValidChats this ->
  sendMessage text chatID this =
    {| outcome := Returns (Throws "Invalid chat id when sending message");
       final := final (sendError "trying to send a message to an invalid chat id"
                         (Some "stack") this);
       trace := trace (sendError "trying to send a message to an invalid chat id"
                         (Some "stack") this) |}.
Proof.
  intros Hout.
  assert (Hbase : sendMessageBase text chatID this =
            {| outcome := Returns (Throws "Invalid chat id when sending message");
               final := final (sendError "trying to send a message to an invalid chat id"
                                 (Some "stack") this);
               trace := trace (sendError "trying to send a message to an invalid chat id"
                                 (Some "stack") this) |}).
  { unfold sendMessageBase, async. rewrite get_bind.
    unfold Js.includes_num. rewrite (bool_decide_eq_false_2 _ Hout).
    destruct (sendError_returns "trying to send a message to an invalid chat id"
                (Some "stack") this) as [p Hp].
    rewrite (outcome_bind _ _ _ p Hp), (final_bind _ _ _ p Hp), (trace_bind _ _ _ p Hp).
    cbn [throw outcome final trace]. by rewrite app_nil_r. }
  unfold sendMessage, async. rewrite (bind_returns _ _ _ _ _ _ Hbase).
  cbn [await lift outcome final trace]. by rewrite app_nil_r.
Qed.

(** X19. A message for a chat that [getValidChats] does not answer is
    not handed to the client: [sendMessage] (and [sendMessageBase] under
    it) reports the attempt through [sendError], which logs it and
    mirrors it to the debug chat when one is set, and the promise is
    rejected with ['Invalid chat id when sending message']. *)
Theorem send_to_unauthorized_chat (text : Text) (chatID : Z) (this : TeleWrapper) :
  chatID ∉ getValidChats this ->
  let r := sendMessage text chatID this in
  let report := ErrorText "trying to send a message to an invalid chat id" (Some "stack") in
  outcome r = Returns (Throws "Invalid chat id when sending message") /\
  trace r = LoggerLog report ::
            (if debugChat this =? 0 then [] else [CoreSendMessage (debugChat this) report]) /\
  (forall sent, CoreSendMessage chatID sent ∉ trace r).
Proof.
  intros Hout. cbn zeta.
  assert (Hne : debugChat this <> 0 -> chatID <> debugChat this).
  { intros Hd ->. apply Hout. unfold getValidChats.
    destruct (Z.eqb_spec (debugChat this) 0); [done | left]. }
  pose proof (sendMessage_refused text chatID this Hout) as Hrun.
  rewrite (sendError_trace _ _ this) in Hrun.
  assert (Ho : outcome (sendMessage text chatID this) =
               Returns (Throws "Invalid chat id when sending message")) by (by rewrite Hrun).
  assert (Ht : trace (sendMessage text chatID this) =
               LoggerLog (ErrorText "trying to send a message to an invalid chat id"
                            (Some "stack")) ::
               (if debugChat this =? 0 then []
                else [CoreSendMessage (debugChat this)
                        (ErrorText "trying to send a message to an invalid chat id"
                           (Some "stack"))])) by (by rewrite Hrun).
  clear Hrun. split; [done|]. split; [done|].
  intros sent. rewrite Ht.
  destruct (Z.eqb_spec (debugChat this) 0) as [E|E].
  - rewrite list_elem_of_singleton. discriminate.
  - rewrite !elem_of_cons. intros [H | [H | H]]; [discriminate H | | inversion H].
    injection H as H _. by apply (Hne E).
Qed.

Lemma send_to_unauthorized_chat_witness :
  outcome (sendMessage (Literal "hi") 999 Scenario.guarded) =
    Returns (Throws "Invalid chat id when sending message").
Proof.
  apply (send_to_unauthorized_chat (Literal "hi") 999 Scenario.guarded).
  intros H. apply (bool_decide_pack _) in H. vm_compute in H. exact H.
Defined.

(** X20. A message for an authorized chat is handed to the client once.
    When the client delivers it, the promise is fulfilled with the message
    delivered and that message is appended to the outbox; when the client
    fails, the promise is rejected with the error of the client and the
    wrapper is left as it was. *)
Theorem send_to_authorized_chat (text : Text) (chatID : Z) (this : TeleWrapper) :
  chatID ∈ getValidChats this ->
  let r := sendMessage text chatID this in
  trace r = [CoreSendMessage chatID text] /\
  (forall sent, sendMessage_settles (core this) chatID text = Returns sent ->
     outcome r = Returns (Returns sent) /\
     final r = set_messageList
                 (appended (messageListLength this) (messageList this) sent) this) /\
  (forall error, sendMessage_settles (core this) chatID text = Throws error ->
     outcome r = Returns (Throws error) /\ final r = this).
Proof.
  intros Hin. cbn zeta. rewrite (sendMessage_valid text chatID this Hin).
  destruct (sendMessage_settles (core this) chatID text) as [m|e]; cbn [outcome final trace].
  - split; [done|]. split; [by intros ? [= <-] | discriminate].
  - split; [done|]. split; [discriminate | by intros ? [= <-]].
Qed.

Lemma send_to_authorized_chat_witness :
  trace (sendMessage (Literal "hi") 100 Scenario.guarded) =
    [CoreSendMessage 100 (Literal "hi")].
Proof.
  apply (send_to_authorized_chat (Literal "hi") 100 Scenario.guarded).
  apply (bool_decide_unpack _). vm_compute. exact Logic.I.
Defined.

(** X21. What is sent can be taken back. After a message has been
    delivered to an authorized chat, with a capacity of at least 1, a
    [clearMessages] for that chat asks the client to delete that very
    message, and the outbox is empty afterwards. *)
Theorem sent_message_can_be_retracted (text : Text) (chatID : Z) (sent : Message)
    (this : TeleWrapper) :
  chatID ∈ getValidChats this ->
  sendMessage_settles (core this) chatID text = Returns sent ->
  msg_chat_id sent = chatID ->
  1 <= messageListLength this ->
  let r := (sendMessage text chatID;; clearMessages (OneChat chatID) None) this in
  outcome r = Returns (Returns tt) /\
  delete_call sent ∈ trace r /\
  messageList (final r) = [].
Proof.
  intros Hin Hsent Hchat Hn. cbn zeta.
  rewrite (bind_returns _ _ _ _ _ _ (sendMessage_delivered text chatID sent this Hin Hsent)).
  rewrite clearMessages_run. cbn [outcome final trace to_ids].
  pose proof (appended_last (messageListLength this) (messageList this) sent Hn) as Hlast.
  assert (Hm : messageList (set_messageList
                 (appended (messageListLength this) (messageList this) sent) this) =
               appended (messageListLength this) (messageList this) sent)
    by (by destruct this).
  rewrite Hm in *.
  split; [done|]. split.
  - right. apply list_elem_of_In, in_map, filter_In. split.
    + apply list_elem_of_In. apply last_Some_elem_of. exact Hlast.
    + unfold retracted, excluded, Js.includes_num. rewrite Hchat.
      rewrite bool_decide_eq_true_2 by left. done.
  - destruct this; cbn. clear.
    induction (appended _ _ _) as [|v l IH]; [done|]. cbn.
    unfold kept at 1. cbn. by rewrite andb_false_r.
Qed.

Lemma sent_message_can_be_retracted_witness :
  delete_call (Scenario.entry 100 9000) ∈
    trace ((sendMessage (Literal "hi") 100;; clearMessages (OneChat 100) None)
             Scenario.guarded).
Proof.
  apply (sent_message_can_be_retracted (Literal "hi") 100 (Scenario.entry 100 9000)
           Scenario.guarded).
  - apply (bool_decide_unpack _). vm_compute. exact Logic.I.
  - reflexivity.
  - reflexivity.
  - vm_compute. discriminate.
Defined.

(** ** Deleting *)

Lemma deleteMessage_single_run (v : Message) (this : TeleWrapper) :
  deleteMessage_single v this =
    {| outcome := Returns (delete_settles this v); final := this; trace := [delete_call v] |}.
Proof. reflexivity. Qed.

Lemma delete_fold (msgs : list Message) (acc : list (Promise unit)) (this : TeleWrapper) :
  foldM msgs (fun promises value => p ← deleteMessage_single value; ret (promises ++ [p]))
    acc this =
    {| outcome := Returns (acc ++ map (delete_settles this) msgs);
       final := this;
       trace := map delete_call msgs |}.
Proof.
  revert acc. induction msgs as [|v msgs IH]; intros acc.
  - cbn. by rewrite app_nil_r.
  - cbn [foldM].
    assert (Hstep : (p ← deleteMessage_single v; ret (acc ++ [p])) this =
              {| outcome := Returns (acc ++ [delete_settles this v]); final := this;
                 trace := [delete_call v] |}) by reflexivity.
    rewrite (bind_returns _ _ _ _ _ _ Hstep), IH. cbn [outcome final trace map].
    by rewrite <- app_assoc.
Qed.

Lemma Promise_all_unit (promises : list (Promise unit)) :
  (exists l, Promise_all promises = Returns l) <-> Forall (fun p => p = Returns tt) promises.
Proof.
  induction promises as [|[[]|e] ps IH]; cbn.
  - split; [constructor | by eexists].
  - destruct (Promise_all ps) as [l|e].
    + split; [|by eexists]. intros _. constructor; [done|]. apply IH. by eexists.
    + split; [by intros [? ?]|]. intros H. apply Forall_cons in H as [_ H].
      apply IH in H as [? ?]. done.
  - split; [by intros [? ?]|]. intros H. by apply Forall_cons in H as [? _].
Qed.

(** X22. [deleteMessage] on an array asks the client to delete every
    message of the array, in order, whether or not an earlier deletion
    fails; the promise it returns is fulfilled exactly when every deletion
    is. The wrapper is left as it was: the outbox is not updated. *)
Theorem deleteMessage_array (msgs : list Message) (this : TeleWrapper) :
  let r := deleteMessage (MessageArray msgs) this in
  trace r = map delete_call msgs /\
  final r = this /\
  (outcome r = Returns (Returns tt) <->
   Forall (fun value => delete_settles this value = Returns tt) msgs) /\
  exists promise, outcome r = Returns promise.
Proof.
  cbn zeta. unfold deleteMessage, async.
  rewrite (bind_returns _ _ _ _ _ _ (delete_fold msgs [] this)).
  cbn [outcome final trace app].
  pose proof (Promise_all_unit (map (delete_settles this) msgs)) as Hall.
  rewrite Forall_map in Hall.
  unfold mbind, M_bind, bind, await, lift. cbn.
  destruct (Promise_all (map (delete_settles this) msgs)) as [l|e]; cbn.
  - rewrite app_nil_r. repeat split; [| by eexists].
    intros _. apply Hall. by eexists.
  - rewrite app_nil_r. repeat split; [discriminate | | by eexists].
    intros H. apply Hall in H as [? ?]. done.
Qed.

Lemma deleteMessage_array_witness :
  outcome (deleteMessage (MessageArray [Scenario.entry 1 1; Scenario.entry 1 2])
             Scenario.guarded) = Returns (Returns tt).
Proof.
  apply (proj2 (proj1 (proj2 (proj2 (deleteMessage_array
                 [Scenario.entry 1 1; Scenario.entry 1 2] Scenario.guarded))))).
  repeat constructor.
Defined.

(** ** Bulk retraction, twice *)

(** X23. [clearMessages] is idempotent: a second call with the same
    chats and the same exclusions asks for no deletion and leaves the
    outbox as the first call left it. *)
Theorem clearMessages_idempotent (chatIDs : ChatIDs) (exclude_msgs : option (list Message))
    (this : TeleWrapper) :
  let once := final (clearMessages chatIDs exclude_msgs this) in
  clearMessages chatIDs exclude_msgs once =
    {| outcome := Returns (Returns tt); final := once; trace := [] |}.
Proof.
  cbn zeta. rewrite !clearMessages_run. cbn [final].
  set (keep := kept (to_ids chatIDs) exclude_msgs).
  set (gone := retracted (to_ids chatIDs) exclude_msgs).
  assert (Hm : forall l, messageList (set_messageList l this) = l) by (by destruct this).
  rewrite Hm.
  assert (Hkeep : forall l, List.filter keep (List.filter keep l) = List.filter keep l).
  { intros l. induction l as [|v l IH]; [done|]. cbn [List.filter].
    destruct (keep v) eqn:E; [|exact IH]. cbn [List.filter]. by rewrite E, IH. }
  assert (Hgone : forall l, List.filter gone (List.filter keep l) = []).
  { intros l. induction l as [|v l IH]; [done|]. cbn [List.filter].
    destruct (keep v) eqn:E; [|exact IH]. cbn [List.filter]. rewrite IH.
    unfold keep, kept in E. apply andb_prop in E as [E1 E2].
    unfold gone, retracted. by rewrite E1, E2. }
  rewrite Hkeep, Hgone. reflexivity.
Qed.

(** ** What routing asks of the client *)

Section RoutingIO.

Context (this : TeleWrapper) (msg : Message).

Lemma same_identity_outbox (l : list Message) (s : TeleWrapper) :
  same_identity this s -> same_identity this (set_messageList l s).
Proof. done. Qed.

Lemma sendError_io (text : string) (error : option string) :
  triple (same_identity this) (routing_io this msg) (sendError text error) anything.
Proof.
  unfold sendError. eapply triple_async.
  eapply triple_bind; [by apply triple_emit|]. intros _ _.
  eapply triple_bind; [apply triple_get|]. intros s [Hd Hb].
  destruct (Z.eqb_spec (debugChat s) 0); [by apply (triple_ret _ _ _ anything)|].
  eapply triple_bind; [apply triple_emit; cbn; split; congruence|]. intros _ _.
  eapply triple_bind; [apply triple_lift|]. intros m _.
  eapply triple_bind; [apply messageListAppend_triple, same_identity_outbox|]. intros _ _.
  by apply (triple_ret _ _ _ anything).
Qed.

Lemma sendMessage_debug_io (text : Text) :
  debugChat this <> 0 ->
  triple (same_identity this) (routing_io this msg) (sendMessage text (debugChat this))
    anything.
Proof.
  intros Hd. unfold sendMessage, sendMessageBase. eapply triple_async.
  eapply triple_bind with (Q := anything); [|intros p _; eapply triple_forget, triple_lift].
  eapply triple_async.
  eapply triple_bind; [apply triple_get|]. intros s _.
  destruct (Js.includes_num (getValidChats s) (debugChat this)).
  - eapply triple_bind; [by apply triple_emit|]. intros _ _.
    eapply triple_bind; [apply triple_lift|]. intros m _.
    eapply triple_bind; [apply messageListAppend_triple, same_identity_outbox|]. intros _ _.
    by apply (triple_ret _ _ _ anything).
  - eapply triple_bind; [apply sendError_io|]. intros _ _.
    apply (triple_throw _ _ _ anything).
Qed.

Lemma reportInvalidCommand_io (validChat : bool) :
  triple (same_identity this) (routing_io this msg) (reportInvalidCommand msg validChat)
    anything.
Proof.
  unfold reportInvalidCommand.
  eapply triple_bind; [apply triple_get|]. intros s [Hd Hb].
  eapply triple_bind; [|intros _ _; by apply triple_emit].
  destruct (Z.eqb_spec (debugChat s) 0); cbn [negb]; [by apply (triple_ret _ _ _ anything)|].
  eapply triple_bind; [|intros _ _; by apply (triple_ret _ _ _ anything)].
  rewrite Hd. apply sendMessage_debug_io. congruence.
Qed.

Lemma validCommand_io (chatIDs : ChatIDs) (regex : bool) :
  triple (same_identity this) (routing_io this msg) (validCommand msg chatIDs regex) anything.
Proof.
  unfold validCommand, invalid_step, call_invalid.
  triples; apply reportInvalidCommand_io.
Qed.

Lemma deleteIfMentioned_io :
  triple (same_identity this) (routing_io this msg) (deleteIfMentioned msg) anything.
Proof.
  unfold deleteIfMentioned.
  eapply triple_bind; [apply triple_get|]. intros s [Hd Hb].
  destruct (botInfo s) as [username|] eqn:E; [|by apply (triple_ret _ _ _ anything)].
  match goal with |- context [if ?b then _ else _] => destruct b end;
    [|by apply (triple_ret _ _ _ anything)].
  eapply triple_bind; [|intros _ _; by apply (triple_ret _ _ _ anything)].
  unfold deleteMessage, deleteMessage_single. eapply triple_async.
  eapply triple_bind; [apply triple_get|]. intros s' _.
  eapply triple_bind; [|intros _ _; eapply triple_forget, triple_lift].
  apply triple_emit. cbn. repeat split. congruence.
Qed.

End RoutingIO.

(** X24. While it routes an event, the listener of ['message'] asks
    little of the client, whatever is registered and whatever the handlers
    answer: it sends only to the debug chat, and only when one is set (the
    unauthorized-access report and the report of an exception); it
    deletes only the message of the event itself, and only when the
    wrapper knows its user name; it acknowledges no query and starts no
    timer. *)
Theorem routing_io_confined (this : TeleWrapper) (msg : Message) :
  Forall (routing_io this msg) (trace (on_message msg this)).
Proof.
  set (I := same_identity this). set (P := routing_io this msg).
  assert (Hgate : forall chatIDs rx, triple I P (validCommand msg chatIDs rx) anything)
    by (intros; apply validCommand_io).
  assert (H : triple I P (on_message msg) anything).
  { unfold on_message, message_stages. apply triple_try_catch.
    - eapply triple_bind with (Q := anything).
      { unfold command_stage, ICommand_callback, commandBase, call_command.
        triples; try done; first [apply deleteIfMentioned_io | apply Hgate]. }
      intros h1 _. eapply triple_bind with (Q := anything).
      { unfold regex_stage, regex_step, IRegexCmd_callback, regexBase, call_regex.
        triples; try done; first [apply deleteIfMentioned_io | apply Hgate]. }
      intros h2 _. eapply triple_bind.
      + apply audio_stage_flag. by intros.
      + intros _ _. apply any_stage_flag. by intros.
    - intros error. eapply triple_bind; [apply sendError_io|].
      intros _ _. by apply (triple_ret _ _ _ anything). }
  by destruct (H this (conj eq_refl eq_refl)) as (_ & ? & _).
Qed.

(** ** Buttons *)

Section Decimal.

Lemma decimal_inj (a b : Z) : decimal a = decimal b -> a = b.
Proof.
  unfold decimal. intros H.
  assert (Hnn : forall z, Z.to_int z <> Decimal.Pos Decimal.Nil /\
                          Z.to_int z <> Decimal.Neg Decimal.Nil).
  { intros [|p|p]; cbn; split; try discriminate;
      intros [= E]; by apply DecimalPos.Unsigned.to_uint_nonnil in E. }
  apply (f_equal DecimalString.NilZero.int_of_string) in H.
  rewrite !DecimalString.NilZero.isi in H by apply Hnn.
  injection H as H. apply (f_equal Z.of_int) in H. by rewrite !DecimalZ.of_to in H.
Qed.

Lemma uint_free_of_underscore (d : Decimal.uint) :
  free_of "_" (DecimalString.NilEmpty.string_of_uint d) = true.
Proof. induction d; cbn; done. Qed.

Lemma decimal_free_of_underscore (n : Z) : free_of "_" (decimal n) = true.
Proof.
  assert (H : forall d, free_of "_" (DecimalString.NilZero.string_of_uint d) = true).
  { intros d. destruct d; [reflexivity | ..];
      match goal with
      | |- free_of _ (DecimalString.NilZero.string_of_uint ?x) = _ =>
          exact (uint_free_of_underscore x)
      end. }
  unfold decimal, DecimalString.NilZero.string_of_int.
  destruct (Z.to_int n) as [d|d]; [apply H|].
  cbn [free_of]. rewrite H. reflexivity.
Qed.

Lemma prefix_before_underscore (a a' r r' : string) :
  free_of "_" a = true -> free_of "_" a' = true ->
  a +:+ String "_" r = a' +:+ String "_" r' -> a = a'.
Proof.
  revert a'. induction a as [|c a IH]; intros [|c' a'] Ha Ha' H.
  - done.
  - change (String "_" r = String c' (a' +:+ String "_" r')) in H.
    injection H as <- _. cbn in Ha'. discriminate Ha'.
  - change (String c (a +:+ String "_" r) = String "_" r') in H.
    injection H as -> _. cbn in Ha. discriminate Ha.
  - change (String c (a +:+ String "_" r) = String c' (a' +:+ String "_" r')) in H.
    injection H as -> H.
    cbn [free_of] in Ha, Ha'. apply andb_prop in Ha as [_ Ha]. apply andb_prop in Ha' as [_ Ha'].
    f_equal. by apply IH.
Qed.

(** The identifier of a button tells the counter it was made with. *)
Lemma button_data_counter (c c' t t' : Z) : button_data c t = button_data c' t' -> c = c'.
Proof.
  unfold button_data. intros H.
  change ("btn_" +:+ decimal c +:+ "_t" +:+ decimal t)
    with (String "b" (String "t" (String "n" (String "_"
            (decimal c +:+ String "_" (String "t" (decimal t))))))) in H.
  change ("btn_" +:+ decimal c' +:+ "_t" +:+ decimal t')
    with (String "b" (String "t" (String "n" (String "_"
            (decimal c' +:+ String "_" (String "t" (decimal t'))))))) in H.
  injection H as H.
  apply decimal_inj.
  eapply prefix_before_underscore; [apply decimal_free_of_underscore.. | exact H].
Qed.

End Decimal.

(** X25. A button made by [iButton] carries the text given and an
    identifier under which [buttonList] holds the action given. The
    identifier tells the value of the counter, so that the registration
    touches no identifier made with another counter value: buttons made by
    successive calls, which count upwards, never replace one another, also
    within one millisecond. *)
Theorem iButton_registers_fresh (counter now : Z) (name : string) (action : ButtonCallback)
    (this : TeleWrapper) :
  let r := iButton counter now name action this in
  let data := button_data (counter + 1) now in
  outcome r = Returns ({| ikb_text := name; ikb_callback_data := data |}, counter + 1) /\
  trace r = [] /\
  buttonList (final r) !! data = Some {| btn_name := data; btn_callback := action |} /\
  (forall c t, c <> counter + 1 ->
     buttonList (final r) !! button_data c t = buttonList this !! button_data c t).
Proof.
  cbn zeta. unfold iButton.
  assert (Hreg : forall data,
            onButton data action this =
              {| outcome := Returns tt;
                 final := set_buttonList
                            (<[data := {| btn_name := data; btn_callback := action |}]>
                               (buttonList this)) this;
                 trace := [] |}) by reflexivity.
  rewrite (bind_returns _ _ _ _ _ _ (Hreg _)).
  cbn [outcome final trace app ret].
  assert (Hb : forall m, buttonList (set_buttonList m this) = m) by (by destruct this).
  rewrite Hb. repeat split.
  - apply lookup_insert_eq.
  - intros c t Hc. apply lookup_insert_ne. intros E. apply button_data_counter in E. lia.
Qed.

Lemma iButton_registers_fresh_witness :
  buttonList (final (iButton 1 1700000000000 "More" Scenario.breaks Scenario.with_buttons))
    !! button_data 1 1700000000000 =
  buttonList Scenario.with_buttons !! button_data 1 1700000000000.
Proof.
  apply (iButton_registers_fresh 1 1700000000000 "More" Scenario.breaks Scenario.with_buttons).
  lia.
Defined.

Lemma bind_throws {A B : Type} (m : M A) (k : A -> M B) (this s : TeleWrapper) (e : string)
    (t : list Effect) :
  m this = {| outcome := Throws e; final := s; trace := t |} ->
  (m ≫= k) this = {| outcome := Throws e; final := s; trace := t |}.
Proof. intros E. unfold mbind, M_bind, bind. by rewrite E. Qed.

Lemma try_catch_throws {A : Type} (m : M A) (h : string -> M A) (this s : TeleWrapper)
    (e : string) (t : list Effect) :
  m this = {| outcome := Throws e; final := s; trace := t |} ->
  try_catch m h this =
    {| outcome := outcome (h e s); final := final (h e s); trace := t ++ trace (h e s) |}.
Proof. intros E. unfold try_catch. by rewrite E. Qed.

(** X26. [onButton] and the listener of ['callback_query'] fit together,
    and the last registration under an identifier is the one that counts:
    a press of the identifier just registered calls the callback just
    registered, first, and no other callback of the user. *)
Theorem registered_button_is_called (name : string) (callback : ButtonCallback)
    (query : CallbackQuery) (this : TeleWrapper) :
  query_data query = name ->
  exists rest,
    trace (on_callback_query query (final (onButton name callback this))) =
      CallButton (bc_name callback) query :: rest /\
    Forall (fun e => callee e = None) rest.
Proof.
  intros Hdata.
  set (s := final (onButton name callback this)).
  assert (Hget : Js.js_get (buttonList s) (query_data query) =
                 Js.Own {| btn_name := name; btn_callback := callback |}).
  { unfold s, onButton. rewrite get_bind. cbn [final put]. unfold Js.js_get.
    assert (Hb : forall m, buttonList (set_buttonList m this) = m) by (by destruct this).
    by rewrite Hb, Hdata, lookup_insert_eq. }
  unfold on_callback_query, async. cbn [trace].
  destruct (bc_run callback query) as [res|error] eqn:Hrun.
  - exists [CoreAnswerCallbackQuery (query_id query) (answer_text (answer_of res))
              (answer_show_alert (answer_of res))].
    split; [|by repeat constructor].
    assert (Hinner : (emit (CallButton (bc_name callback) query);;
                      lift (bc_run callback query)) s =
              {| outcome := Returns res; final := s;
                 trace := [CallButton (bc_name callback) query] |}).
    { erewrite bind_returns by reflexivity. unfold lift. by rewrite Hrun. }
    match goal with
    | |- trace (try_catch ?m ?h s) = _ =>
        assert (Hbody : m s =
                  {| outcome := Returns tt; final := s;
                     trace := [CallButton (bc_name callback) query;
                               CoreAnswerCallbackQuery (query_id query)
                                 (answer_text (answer_of res))
                                 (answer_show_alert (answer_of res))] |})
    end.
    { rewrite get_bind, Hget. cbn [Js.truthy btn_callback].
      by rewrite (bind_returns _ _ _ _ _ _ Hinner). }
    rewrite (try_catch_returns _ _ _ tt) by (by rewrite Hbody). by rewrite Hbody.
  - assert (Hinner : (emit (CallButton (bc_name callback) query);;
                      lift (bc_run callback query)) s =
              {| outcome := Throws error; final := s;
                 trace := [CallButton (bc_name callback) query] |}).
    { erewrite bind_returns by reflexivity. unfold lift. by rewrite Hrun. }
    match goal with
    | |- context [try_catch ?m ?h s] =>
        assert (Hbody : m s =
                  {| outcome := Throws error; final := s;
                     trace := [CallButton (bc_name callback) query] |})
    end.
    { rewrite get_bind, Hget. cbn [Js.truthy btn_callback].
      by apply bind_throws. }
    rewrite (try_catch_throws _ _ _ _ _ _ Hbody). cbn [trace app].
    eexists. split; [reflexivity|].
    set (I := fun _ : TeleWrapper => True).
    assert (HI : forall l s', I s' -> I (set_messageList l s')) by done.
    assert (HP : forall e, is_io e -> callee e = None) by (by intros []).
    assert (H : triple I (fun e => callee e = None)
                  (sendError ("query error with button " +:+ query_data query) (Some error);;
                   ret tt) anything).
    { eapply triple_bind; [by apply sendError_triple|].
      intros _ _. by apply (triple_ret _ _ _ anything). }
    by destruct (H s Logic.I) as (_ & ? & _).
Qed.

Lemma registered_button_is_called_witness :
  exists rest,
    trace (on_callback_query (Scenario.press "btn_1")
             (final (onButton "btn_1" Scenario.breaks Scenario.with_buttons))) =
      CallButton "breaks" (Scenario.press "btn_1") :: rest /\
    Forall (fun e => callee e = None) rest.
Proof.
  apply (registered_button_is_called "btn_1" Scenario.breaks (Scenario.press "btn_1")
           Scenario.with_buttons).
  reflexivity.
Defined.

(** ** The running time *)

(** *** Rounding to binary64 *)

Section Rounding.

Import QArith Qround Qpower Qabs Lqa.
Import Binary64.

Local Open Scope Q_scope.

Lemma pow2_pos (e : Z) : 0 < 2 ^ e.
Proof. by apply Qpower_0_lt. Qed.

Lemma pow2_add (a b : Z) : 2 ^ (a + b) == 2 ^ a * 2 ^ b.
Proof. by apply Qpower_plus. Qed.

Lemma pow2_Z (k : Z) : (0 <= k)%Z -> inject_Z (2 ^ k) == 2 ^ k.
Proof. intros H. by rewrite Zpower_Qpower. Qed.

Lemma pow2_le (a b : Z) : (a <= b)%Z -> 2 ^ a <= 2 ^ b.
Proof. intros H. by apply Qpower_le_compat_l. Qed.

Lemma Qfloor_unique (x : Q) (k : Z) :
  inject_Z k <= x -> x < inject_Z (k + 1) -> Qfloor x = k.
Proof.
  intros Hl Hu.
  pose proof (Qfloor_resp_le _ _ Hl) as H1. rewrite Qfloor_Z in H1.
  pose proof (Qfloor_le x) as H2.
  assert (H3 : inject_Z (Qfloor x) < inject_Z (k + 1)) by lra.
  rewrite <- Zlt_Qlt in H3. lia.
Qed.

Lemma binade_spec (x : Q) : 0 < x -> 2 ^ binade x <= x /\ x < 2 ^ (binade x + 1).
Proof.
  intros Hx. destruct x as [n d].
  assert (Hn : (0 < n)%Z) by (unfold Qlt in Hx; simpl in Hx; lia).
  unfold binade. cbn [Qnum Qden].
  set (a := Z.log2 n). set (b := Z.log2 (Z.pos d)).
  pose proof (Z.log2_spec n Hn) as [Ha1 Ha2]. fold a in Ha1, Ha2.
  pose proof (Z.log2_spec (Z.pos d) ltac:(lia)) as [Hb1 Hb2]. fold b in Hb1, Hb2.
  assert (Ha0 : (0 <= a)%Z) by apply Z.log2_nonneg.
  assert (Hb0 : (0 <= b)%Z) by apply Z.log2_nonneg.
  set (x := n # d) in *.
  assert (Hxd : x * inject_Z (Z.pos d) == inject_Z n).
  { unfold x, Qeq, Qmult, inject_Z. simpl. lia. }
  rewrite Zle_Qle, pow2_Z in Ha1 by lia.
  rewrite Zlt_Qlt, pow2_Z in Ha2 by lia.
  rewrite Zle_Qle, pow2_Z in Hb1 by lia.
  rewrite Zlt_Qlt, pow2_Z in Hb2 by lia.
  replace (Z.succ a) with (a + 1)%Z in Ha2 by lia.
  replace (Z.succ b) with (b + 1)%Z in Hb2 by lia.
  rewrite pow2_add in Ha2, Hb2. change (2 ^ 1) with 2 in *.
  pose proof (pow2_pos a). pose proof (pow2_pos b). pose proof (pow2_pos (a - b)).
  assert (Hab : 2 ^ (a - b) * 2 ^ b == 2 ^ a).
  { rewrite <- pow2_add. by replace (a - b + b)%Z with a by lia. }
  set (N := inject_Z n) in *. set (D := inject_Z (Z.pos d)) in *.
  set (A := 2 ^ a) in *. set (B := 2 ^ b) in *.
  destruct (Qle_bool (2 ^ (a - b)) x) eqn:E.
  - apply Qle_bool_iff in E. split; [done|].
    replace (a - b + 1)%Z with ((a - b) + 1)%Z by lia. rewrite pow2_add. change (2 ^ 1) with 2.
    set (C := 2 ^ (a - b)) in *. nra.
  - assert (E' : x < 2 ^ (a - b)).
    { apply Qnot_le_lt. intros Hle. apply Qle_bool_iff in Hle. congruence. }
    replace (a - b - 1 + 1)%Z with (a - b)%Z by lia. split; [|done].
    assert (Hc : 2 ^ (a - b - 1) * 2 == 2 ^ (a - b)).
    { change 2 with (2 ^ 1) at 2. rewrite <- pow2_add.
      by replace (a - b - 1 + 1)%Z with (a - b)%Z by lia. }
    pose proof (pow2_pos (a - b - 1)).
    set (C := 2 ^ (a - b)) in *. set (C' := 2 ^ (a - b - 1)) in *. nra.
Qed.


Lemma round_half_even_ge (z : Q) (m : Z) :
  inject_Z m <= z -> (m <= round_half_even z)%Z.
Proof.
  intros H. pose proof (Qfloor_resp_le _ _ H) as Hf. rewrite Qfloor_Z in Hf.
  unfold round_half_even. destruct (Qcompare _ _); [destruct (Z.even _)| |]; lia.
Qed.

Lemma round_half_even_le (z : Q) (m : Z) :
  z <= inject_Z m -> (round_half_even z <= m)%Z.
Proof.
  intros H. pose proof (Qfloor_resp_le _ _ H) as Hf. rewrite Qfloor_Z in Hf.
  pose proof (Qfloor_le z) as Hz.
  unfold round_half_even.
  destruct (Z.eq_dec (Qfloor z) m) as [E|E].
  - destruct (Qcompare_spec (z - inject_Z (Qfloor z)) (1 # 2)) as [Hc|Hc|Hc];
      rewrite E in *; [lra | lia | lra].
  - destruct (Qcompare _ _); [destruct (Z.even _)| |]; lia.
Qed.

(** A multiple of the unit in the last place below [x] stays below the
    rounded [x], and one above stays above. *)
Lemma round_between (x : Q) :
  0 < x ->
  let ulp := 2 ^ (binade (Qabs x) - 52) in
  0 < ulp /\ inject_Z (2 ^ 52) * ulp <= x /\ x < inject_Z (2 ^ 53) * ulp /\
  round x == inject_Z (round_half_even (x / ulp)) * ulp /\
  (forall m : Z, inject_Z m * ulp <= x -> inject_Z m * ulp <= round x) /\
  (forall m : Z, x <= inject_Z m * ulp -> round x <= inject_Z m * ulp).
Proof.
  intros Hx ulp.
  assert (Habs : Qabs x = x).
  { destruct x as [[|n|n] d]; try done. }
  assert (Hu : 0 < ulp) by apply pow2_pos.
  destruct (binade_spec x Hx) as [Hlo Hhi].
  assert (Hround : round x = inject_Z (round_half_even (x / ulp)) * ulp).
  { unfold round. destruct (Qeq_bool x 0) eqn:E; [|done].
    apply Qeq_bool_iff in E. lra. }
  assert (H52 : inject_Z (2 ^ 52) * ulp == 2 ^ binade x).
  { unfold ulp. rewrite Habs, pow2_Z, <- pow2_add by lia.
    by replace (52 + (binade x - 52))%Z with (binade x) by lia. }
  assert (H53 : inject_Z (2 ^ 53) * ulp == 2 ^ (binade x + 1)).
  { unfold ulp. rewrite Habs, pow2_Z, <- pow2_add by lia.
    by replace (53 + (binade x - 52))%Z with (binade x + 1)%Z by lia. }
  split; [done|]. split; [by rewrite H52|]. split; [by rewrite H53|].
  split; [by rewrite Hround|]. rewrite Hround. clearbody ulp. split.
  - intros m Hm.
    assert (Hz : inject_Z m <= x / ulp) by (by apply Qle_shift_div_l).
    apply round_half_even_ge in Hz. rewrite Zle_Qle in Hz. nra.
  - intros m Hm.
    assert (Hz : x / ulp <= inject_Z m) by (by apply Qle_shift_div_r).
    apply round_half_even_le in Hz. rewrite Zle_Qle in Hz. nra.
Qed.

(** A number of at most 53 significant bits below [x] stays below the
    rounded [x]. *)
Lemma round_ge (n k : Z) (x : Q) :
  (0 <= n < 2 ^ 53)%Z ->
  inject_Z n * 2 ^ k <= x ->
  inject_Z n * 2 ^ k <= round x.
Proof.
  intros Hn Hx.
  pose proof (pow2_pos k) as Hk.
  assert (Hn0 : 0 <= inject_Z n) by (rewrite Zle_Qle in Hn; tauto).
  destruct (Qlt_le_dec 0 x) as [Hpos|Hneg].
  2:{ assert (E : x == 0) by nra.
      unfold round. apply Qeq_bool_iff in E as E'. rewrite E'. lra. }
  destruct (round_between x Hpos) as (Hu & H52 & H53 & _ & Hge & _).
  set (e := binade (Qabs x)) in *. set (ulp := 2 ^ (e - 52)) in *.
  destruct (Z_le_gt_dec (e - 52) k) as [Hfine|Hcoarse].
  - (* a multiple of the unit *)
    assert (E : inject_Z n * 2 ^ k == inject_Z (n * 2 ^ (k - (e - 52))) * ulp).
    { rewrite inject_Z_mult, pow2_Z by lia. unfold ulp.
      rewrite <- Qmult_assoc, <- pow2_add.
      by replace (k - (e - 52) + (e - 52))%Z with k by lia. }
    rewrite E in *. by apply Hge.
  - (* below the binade of [x] *)
    apply Qle_trans with (inject_Z (2 ^ 52) * ulp); [|by apply Hge].
    assert (E : inject_Z (2 ^ 52) * ulp == 2 ^ 53 * 2 ^ (e - 53)).
    { unfold ulp. rewrite pow2_Z, <- !pow2_add by lia. 
      by replace (52 + (e - 52))%Z with (53 + (e - 53))%Z by lia. }
    rewrite E.
    assert (Hle : 2 ^ k <= 2 ^ (e - 53)) by (apply pow2_le; lia).
    assert (Hn53 : inject_Z n <= 2 ^ 53).
    { rewrite <- pow2_Z by lia. rewrite <- Zle_Qle. lia. }
    pose proof (pow2_pos (e - 53)).
    set (X := 2 ^ k) in *. set (Y := 2 ^ (e - 53)) in *. set (Z53 := 2 ^ 53) in *.
    set (N := inject_Z n) in *. nra.
Qed.

Lemma round_le (n k : Z) (x : Q) :
  (0 <= n < 2 ^ 53)%Z ->
  0 <= x ->
  x <= inject_Z n * 2 ^ k ->
  round x <= inject_Z n * 2 ^ k.
Proof.
  intros Hn Hx0 Hx.
  pose proof (pow2_pos k) as Hk.
  assert (Hn0 : 0 <= inject_Z n) by (rewrite Zle_Qle in Hn; tauto).
  destruct (Qlt_le_dec 0 x) as [Hpos|Hneg].
  2:{ assert (E : x == 0) by lra.
      unfold round. apply Qeq_bool_iff in E as E'. rewrite E'. nra. }
  destruct (round_between x Hpos) as (Hu & H52 & H53 & _ & _ & Hle).
  set (e := binade (Qabs x)) in *. set (ulp := 2 ^ (e - 52)) in *.
  destruct (Z_le_gt_dec (e - 52) k) as [Hfine|Hcoarse].
  - assert (E : inject_Z n * 2 ^ k == inject_Z (n * 2 ^ (k - (e - 52))) * ulp).
    { rewrite inject_Z_mult, pow2_Z by lia. unfold ulp.
      rewrite <- Qmult_assoc, <- pow2_add.
      by replace (k - (e - 52) + (e - 52))%Z with k by lia. }
    rewrite E in *. by apply Hle.
  - (* impossible: the bound would lie below the binade of [x] *)
    exfalso.
    assert (E : inject_Z (2 ^ 52) * ulp == 2 ^ 53 * 2 ^ (e - 53)).
    { unfold ulp. rewrite pow2_Z, <- !pow2_add by lia. 
      by replace (52 + (e - 52))%Z with (53 + (e - 53))%Z by lia. }
    rewrite E in H52.
    assert (Hle' : 2 ^ k <= 2 ^ (e - 53)) by (apply pow2_le; lia).
    assert (Hn53 : inject_Z n + 1 <= 2 ^ 53).
    { rewrite <- pow2_Z by lia. change 1 with (inject_Z 1).
      rewrite <- inject_Z_plus, <- Zle_Qle. lia. }
    pose proof (pow2_pos (e - 53)).
    set (X := 2 ^ k) in *. set (Y := 2 ^ (e - 53)) in *. set (Z53 := 2 ^ 53) in *.
    set (N := inject_Z n) in *. nra.
Qed.

Lemma round_exact (n : Z) : (0 <= n < 2 ^ 53)%Z -> round (inject_Z n) == inject_Z n.
Proof.
  intros Hn.
  assert (H0 : 0 <= inject_Z n) by (rewrite Zle_Qle in Hn; tauto).
  pose proof (round_ge n 0 (inject_Z n) Hn) as Hge.
  pose proof (round_le n 0 (inject_Z n) Hn H0) as Hle.
  change (2 ^ 0) with 1 in *. lra.
Qed.

Lemma trunc_nonneg (x : Q) : 0 <= x -> trunc x = Qfloor x.
Proof. intros H. unfold trunc. apply Qle_bool_iff in H. by rewrite H. Qed.

(** The seconds since the start, as the code has them: within one part in
    1024 below the next whole second. *)
Lemma passed_bounds (now : Z) (this : TeleWrapper) :
  (0 <= now - startTime this <= 2 ^ 52)%Z ->
  let S := ((now - startTime this) / 1000)%Z in
  inject_Z S <= passed now this /\ passed now this <= inject_Z S + 1 - (1 # 1024).
Proof.
  intros Hd S. unfold passed.
  set (d := (now - startTime this)%Z) in *.
  pose proof (Z.div_mod d 1000 ltac:(lia)) as Hdm.
  pose proof (Z.mod_pos_bound d 1000 ltac:(lia)) as Hr.
  fold S in Hdm. set (r := (d mod 1000)%Z) in *.
  assert (HS : (0 <= S <= 4503599627370)%Z).
  { clearbody S r. lia. }
  assert (HD : round (inject_Z d) == inject_Z d) by (apply round_exact; lia).
  assert (Hq : inject_Z d == 1000 * inject_Z S + inject_Z r).
  { rewrite Hdm, inject_Z_plus, inject_Z_mult. reflexivity. }
  assert (Hr0 : 0 <= inject_Z r <= 999).
  { split; [change 0 with (inject_Z 0) | change 999 with (inject_Z 999)];
      rewrite <- Zle_Qle; lia. }
  assert (HS0 : 0 <= inject_Z S).
  { change 0 with (inject_Z 0). rewrite <- Zle_Qle. lia. }
  set (x := round (inject_Z d) / 1000).
  assert (Hx : x * 1000 == round (inject_Z d)) by (unfold x; field).
  split.
  - pose proof (round_ge S 0 x ltac:(lia)) as H. change (2 ^ 0) with 1 in H.
    assert (inject_Z S * 1 <= round x) by (apply H; lra). lra.
  - pose proof (round_le ((S + 1) * 1024 - 1) (-10) x ltac:(lia)) as H.
    assert (E : inject_Z ((S + 1) * 1024 - 1) * 2 ^ (-10) == inject_Z S + 1 - (1 # 1024)).
    { unfold Z.sub. rewrite inject_Z_plus, inject_Z_mult, inject_Z_plus.
      change (2 ^ (-10)) with (1 # 1024). change (inject_Z 1) with 1.
      change (inject_Z 1024) with 1024. change (inject_Z (- (1))) with (-1). field. }
    rewrite E in H. apply H; lra.
Qed.


Lemma inject_Z_bounds (a n b : Z) :
  (a <= n <= b)%Z -> inject_Z a <= inject_Z n /\ inject_Z n <= inject_Z b.
Proof. intros [? ?]. by rewrite <- !Zle_Qle. Qed.

(** Up to [2^52] milliseconds after the start, the three roundings of
    [botRunningTime] do not cross a whole number: the hours, the minutes
    and the seconds are those of the integer division. *)
Lemma running_time_split (now h m s : Z) (this : TeleWrapper) :
  (startTime this <= now)%Z ->
  (now - startTime this <= 2 ^ 52)%Z ->
  (0 <= m < 60)%Z ->
  (0 <= s < 60)%Z ->
  (3600 * h + 60 * m + s = (now - startTime this) / 1000)%Z ->
  running_hours now this = h /\ running_minutes now this = m /\
  running_seconds now this = s.
Proof.
  intros Hnow Hmax Hm Hs Hsplit.
  unfold running_hours, running_minutes, running_seconds.
  destruct (passed_bounds now this ltac:(lia)) as [Hlo Hhi]. cbv zeta in Hlo, Hhi.
  assert (Hh : (0 <= h <= 1250999896)%Z).
  { assert (0 <= (now - startTime this) / 1000 <= 4503599627370)%Z; [|lia].
    pose proof (Z.div_mod (now - startTime this) 1000 ltac:(lia)).
    pose proof (Z.mod_pos_bound (now - startTime this) 1000 ltac:(lia)).
    set (S := ((now - startTime this) / 1000)%Z) in *. clearbody S. lia. }
  rewrite <- Hsplit in Hlo, Hhi. clear Hsplit.
  rewrite !inject_Z_plus, !inject_Z_mult in Hlo, Hhi.
  change (inject_Z 3600) with 3600 in *. change (inject_Z 60) with 60 in *.
  pose proof (inject_Z_bounds 0 h 1250999896 Hh) as Hhq.
  pose proof (inject_Z_bounds 0 m 59 ltac:(lia)) as Hmq.
  pose proof (inject_Z_bounds 0 s 59 ltac:(lia)) as Hsq.
  change (inject_Z 0) with 0 in *. change (inject_Z 59) with 59 in *.
  change (inject_Z 1250999896) with 1250999896 in *.
  set (P := passed now this) in *. clearbody P.
  (* the hours *)
  assert (Hhours : Qfloor (round (P / 3600)) = h).
  { set (x := P / 3600).
    assert (Hx : x * 3600 == P) by (unfold x; field).
    pose proof (round_ge h 0 x ltac:(lia)) as Hge. change (2 ^ 0) with 1 in Hge.
    pose proof (round_le ((h + 1) * 4194304 - 1) (-22) x ltac:(lia)) as Hle.
    assert (E : inject_Z ((h + 1) * 4194304 - 1) * 2 ^ (-22) == inject_Z h + 1 - (1 # 4194304)).
    { unfold Z.sub. rewrite inject_Z_plus, inject_Z_mult, inject_Z_plus.
      change (2 ^ (-22)) with (1 # 4194304). change (inject_Z 1) with 1.
      change (inject_Z 4194304) with 4194304. change (inject_Z (- (1))) with (-1). field. }
    rewrite E in Hle.
    apply Qfloor_unique.
    - assert (inject_Z h * 1 <= round x) by (apply Hge; lra). lra.
    - rewrite inject_Z_plus. change (inject_Z 1) with 1.
      assert (round x <= inject_Z h + 1 - (1 # 4194304)) by (apply Hle; lra). lra. }
  (* the minutes *)
  assert (Hminutes : Qfloor (round (rem P 3600 / 60)) = m).
  { unfold rem.
    assert (Hq : trunc (P / 3600) = h).
    { rewrite trunc_nonneg.
      - apply Qfloor_unique.
        + apply Qle_shift_div_l; lra.
        + rewrite inject_Z_plus. change (inject_Z 1) with 1. apply Qlt_shift_div_r; lra.
      - apply Qle_shift_div_l; lra. }
    rewrite Hq.
    set (x := (P - 3600 * inject_Z h) / 60).
    assert (Hx : x * 60 == P - 3600 * inject_Z h) by (unfold x; field).
    pose proof (round_ge m 0 x ltac:(lia)) as Hge. change (2 ^ 0) with 1 in Hge.
    pose proof (round_le ((m + 1) * 65536 - 1) (-16) x ltac:(lia)) as Hle.
    assert (E : inject_Z ((m + 1) * 65536 - 1) * 2 ^ (-16) == inject_Z m + 1 - (1 # 65536)).
    { unfold Z.sub. rewrite inject_Z_plus, inject_Z_mult, inject_Z_plus.
      change (2 ^ (-16)) with (1 # 65536). change (inject_Z 1) with 1.
      change (inject_Z 65536) with 65536. change (inject_Z (- (1))) with (-1). field. }
    rewrite E in Hle.
    apply Qfloor_unique.
    - assert (inject_Z m * 1 <= round x) by (apply Hge; lra). lra.
    - rewrite inject_Z_plus. change (inject_Z 1) with 1.
      assert (round x <= inject_Z m + 1 - (1 # 65536)) by (apply Hle; lra). lra. }
  (* the seconds *)
  assert (Hseconds : Qfloor (rem P 60) = s).
  { unfold rem.
    assert (Hq : trunc (P / 60) = (60 * h + m)%Z).
    { rewrite trunc_nonneg.
      - apply Qfloor_unique.
        + rewrite inject_Z_plus, inject_Z_mult. change (inject_Z 60) with 60.
          apply Qle_shift_div_l; lra.
        + rewrite !inject_Z_plus, inject_Z_mult. change (inject_Z 60) with 60.
          change (inject_Z 1) with 1. apply Qlt_shift_div_r; lra.
      - apply Qle_shift_div_l; lra. }
    rewrite Hq, inject_Z_plus, inject_Z_mult. change (inject_Z 60) with 60.
    apply Qfloor_unique.
    - lra.
    - rewrite inject_Z_plus. change (inject_Z 1) with 1. lra. }
  done.
Qed.

End Rounding.

(** Beyond [2^53] milliseconds the difference of the two time values is
    itself rounded: one millisecond short of 4800000000 hours prints as
    4800000000 hours. Before the start, the three numbers are negative. *)
Example botRunningTime_rounds :
  botRunningTime 8640000000000000
    (new_TeleWrapper Scenario.client (-8639999999999999)) =
    "Bot status:" +:+ String (ascii_of_nat 10)
      "Running time: 4800000000 hours 0 minutes 0 seconds" /\
  botRunningTime 0 (new_TeleWrapper Scenario.client 500) =
    "Bot status:" +:+ String (ascii_of_nat 10)
      "Running time: -1 hours -1 minutes -1 seconds".
Proof. split; vm_compute; reflexivity. Qed.

(** X27. [botRunningTime] splits the whole seconds since the start into
    hours, minutes below 60 and seconds below 60, when the clock has not
    gone back behind the start and at most [2^52] milliseconds have
    passed since: for the one such split [h], [m], [s] of the elapsed
    seconds, the text is
    ['Bot status:\nRunning time: h hours m minutes s seconds']. The
    numbers are those of the binary64 arithmetic of the code. *)
Theorem botRunningTime_decomposition (now h m s : Z) (this : TeleWrapper) :
  startTime this <= now ->
  now - startTime this <= 2 ^ 52 ->
  0 <= m < 60 ->
  0 <= s < 60 ->
  3600 * h + 60 * m + s = (now - startTime this) / 1000 ->
  botRunningTime now this =
    "Bot status:" +:+ String (ascii_of_nat 10) "Running time: " +:+
    decimal h +:+ " hours " +:+ decimal m +:+ " minutes " +:+ decimal s +:+ " seconds".
Proof.
  intros Hnow Hmax Hm Hs Hsplit. unfold botRunningTime.
  destruct (running_time_split now h m s this Hnow Hmax Hm Hs Hsplit) as (Hh & Hmin & Hsec).
  by rewrite Hh, Hmin, Hsec.
Qed.

Lemma botRunningTime_decomposition_witness :
  botRunningTime (1000000 + 3725500) Scenario.bot =
    "Bot status:" +:+ String (ascii_of_nat 10) "Running time: " +:+
    decimal 1 +:+ " hours " +:+ decimal 2 +:+ " minutes " +:+ decimal 5 +:+ " seconds".
Proof.
  apply botRunningTime_decomposition.
  - vm_compute. discriminate.
  - vm_compute. discriminate.
  - lia.
  - lia.
  - reflexivity.
Defined.

(** ** The debug chat *)

(** X28. The debug chat is authorized without being in the authorized
    list: after [setDebugChat(c)], for [c] other than 0, [getValidChats]
    answers [c] in front of the list, which is left as it was, and a
    message for [c] is handed to the client. [setDebugChat(0)] takes the
    debug chat away again. *)
Theorem debug_chat_is_authorized (chatID : Z) (text : Text) (this : TeleWrapper) :
  let s := final (setDebugChat chatID this) in
  validChats s = validChats this /\
  (chatID <> 0 ->
     getValidChats s = chatID :: validChats this /\
     trace (sendMessage text chatID s) = [CoreSendMessage chatID text]) /\
  (chatID = 0 -> getValidChats s = validChats this).
Proof.
  cbn zeta. unfold setDebugChat. rewrite get_bind. cbn [final put].
  assert (Hs : validChats (set_debugChat chatID this) = validChats this /\
               debugChat (set_debugChat chatID this) = chatID) by (by destruct this).
  destruct Hs as [Hv Hd]. split; [done|]. split.
  - intros Hne.
    assert (Hg : getValidChats (set_debugChat chatID this) = chatID :: validChats this).
    { unfold getValidChats. rewrite Hv, Hd. by destruct (Z.eqb_spec chatID 0). }
    split; [done|].
    unfold sendMessage, sendMessageBase, async, mbind, M_bind, bind. cbn.
    rewrite Hg. unfold Js.includes_num. rewrite bool_decide_eq_true_2 by left. cbn.
    by destruct (sendMessage_settles _ _ _).
  - intros ->. unfold getValidChats. by rewrite Hv, Hd.
Qed.

Lemma debug_chat_is_authorized_witness :
  getValidChats (final (setDebugChat 900 Scenario.guarded)) = 900 :: validChats Scenario.guarded.
Proof.
  apply (debug_chat_is_authorized 900 (Literal "hi") Scenario.guarded). lia.
Defined.

(** ** Tokens and keys *)

Lemma take_word_all_word (s : string) : Js.all_word (Js.take_word s) = true.
Proof.
  induction s as [|c s IH]; [done|]. cbn [Js.take_word].
  destruct (Js.is_word c) eqn:E; [|done]. cbn [Js.all_word]. by rewrite E, IH.
Qed.

Lemma take_word_prefix (s : string) : Js.starts_with (Js.take_word s) s = true.
Proof.
  induction s as [|c s IH]; [done|]. cbn [Js.take_word].
  destruct (Js.is_word c); [|done]. cbn [Js.starts_with]. by rewrite Ascii.eqb_refl.
Qed.

(** X29. What [extractCommand] returns holds word characters only, so
    that every token the dispatcher looks up passes the check of
    [onCommand]; and a token that is not empty stands in the text, right
    after the leading [/]. *)
Theorem extracted_token_is_registrable (text : string) :
  Js.has_non_word (extractCommand text) = false /\
  (extractCommand text <> EmptyString ->
   Js.starts_with ("/" +:+ extractCommand text) text = true).
Proof.
  unfold extractCommand, Js.exec_command_regex, Js.has_non_word.
  destruct text as [|c r]; [done|].
  destruct (Ascii.eqb_spec c "/") as [->|Hc].
  - pose proof (take_word_all_word r) as Ha. pose proof (take_word_prefix r) as Hp.
    destruct (Js.take_word r) as [|a w] eqn:E; [done|].
    cbn [Js.substring_from_1]. rewrite Ha. split; [done|]. intros _.
    change ("/" +:+ String a w) with (String "/" (String a w)).
    cbn [Js.starts_with] in *. by rewrite Ascii.eqb_refl.
  - assert (H : match String c r with
                | String "/"%char r0 =>
                    match Js.take_word r0 with
                    | EmptyString => None
                    | String a s => Some (String "/" (String a s))
                    end
                | _ => None
                end = None).
    { destruct c as [[] [] [] [] [] [] [] []]; try reflexivity. by destruct Hc. }
    by rewrite H.
Qed.

Lemma extracted_token_is_registrable_witness :
  Js.starts_with ("/" +:+ extractCommand "/ping@bot now") "/ping@bot now" = true.
Proof.
  apply (extracted_token_is_registrable "/ping@bot now"). discriminate.
Defined.

Lemma onBase_keeps_commands (chatIDs : ChatIDs) (this : TeleWrapper) (k : unit -> M unit) :
  commandList (final ((onBase chatIDs ≫= k) this)) =
    commandList (final (k tt (final (onBase chatIDs this)))).
Proof. by rewrite (final_bind _ _ _ tt (onBase_returns chatIDs this)). Qed.

Lemma js_get_own {V : Type} `{Js.Fields V} (obj : gmap string V) (key : string) (v : V) :
  Js.js_get obj key = Js.Own v <-> obj !! key = Some v.
Proof.
  unfold Js.js_get. destruct (obj !! key) as [w|].
  - split; congruence.
  - destruct (_ || _); split; discriminate.
Qed.

(** A token that folds to ['__proto__'] passes the checks of [onCommand]
    when it has a capital letter: its descriptor becomes the prototype of
    [commandList]. From then on a read answers the descriptor under
    ['__proto__'], and answers its truthy fields, which are no
    descriptors, under their names: [isCommand] holds of the text
    [/desc], a command of that name is taken for a duplicate, and the
    dispatcher fails on the callback it does not find. *)
Example prototype_replacement :
  let s := final (onCommand "__PROTO__" (OneChat 100) Scenario.on_ping None Scenario.bot) in
  let named := Scenario.text_event 100 2000 "/__proto__ now" in
  let field := Scenario.text_event 100 2000 "/desc" in
  Js.js_get (commandList s) "__proto__" =
    Js.Own {| command := "__PROTO__"; cmd_chatIDs := [100]; cmd_desc := "(empty)";
              cmd_callback := Scenario.on_ping |} /\
  Js.js_get (commandList s) "desc" = Js.Inherited /\
  Js.js_get (commandList Scenario.bot) "desc" = Js.Undefined /\
  isCommand field s = true /\
  trace (on_message named s) =
    [InvokeCommand "__proto__" named; CallCommand "on_ping" named "now"] /\
  trace (on_message field s) =
    [LoggerLog (ErrorText "message error"
       (Some "TypeError: this.commandList[command].callback is not a function"))] /\
  trace (onCommand "desc" (OneChat 100) Scenario.on_admin None s) =
    [LoggerLog (Literal "Command 'desc' already exists")].
Proof. repeat split; vm_compute; reflexivity. Qed.

(** X30. Every descriptor that a read of [commandList] answers is
    answered under the case-folded form of its own token, and that token
    holds word characters only: this is so for a wrapper as the
    constructor leaves it, and every registration keeps it so, also one
    whose token folds to ['__proto__'] and whose descriptor becomes the
    prototype of [commandList]. (What a read answers besides, out of the
    prototype chain, is no descriptor: see [prototype_replacement].) *)
Theorem command_keys_are_folded (this : TeleWrapper) :
  (forall client now, wf_commands (new_TeleWrapper client now)) /\
  (wf_commands this ->
   (forall name chatIDs callback desc,
      wf_commands (final (onCommand name chatIDs callback desc this))) /\
   (forall rx chatIDs callback desc,
      wf_commands (final (onRegex rx chatIDs callback desc this))) /\
   (forall chatIDs callback, wf_commands (final (onAny chatIDs callback this))) /\
   (forall chatIDs callback, wf_commands (final (onAudio chatIDs callback this))) /\
   (forall name callback, wf_commands (final (onButton name callback this))) /\
   (forall callback, wf_commands (final (onInvalid callback this)))).
Proof.
  split.
  { intros client now key c H. apply js_get_own in H.
    cbn [commandList new_TeleWrapper] in H. by rewrite lookup_empty in H. }
  intros Hwf.
  assert (Hsame : forall s, commandList s = commandList this -> wf_commands s).
  { intros s Hs key c. rewrite Hs. apply Hwf. }
  assert (Hbase : forall chatIDs (k : M unit),
            (forall s, commandList (final (k s)) = commandList s) ->
            commandList (final ((onBase chatIDs;; k) this)) = commandList this).
  { intros chatIDs k Hk. rewrite onBase_keeps_commands, Hk. apply onBase_commandList. }
  split; [|split; [|split; [|split; [|split]]]].
  - intros name chatIDs callback desc key c. rewrite onCommand_commandList.
    destruct (Js.has_non_word name) eqn:Hname; cbn [orb]; [apply Hwf|].
    destruct (Js.truthy _); [apply Hwf|].
    rewrite js_get_own, lookup_insert.
    destruct (decide (Js.toLocaleLowerCase name = key)) as [<-|Hne].
    + by intros [= <-].
    + intros H. apply Hwf. by apply js_get_own.
  - intros rx chatIDs callback desc. apply Hsame. unfold onRegex. apply Hbase.
    intros s. rewrite get_bind. by destruct s.
  - intros chatIDs callback. apply Hsame. unfold onAny. apply Hbase.
    intros s. rewrite get_bind. by destruct s.
  - intros chatIDs callback. apply Hsame. unfold onAudio. apply Hbase.
    intros s. rewrite get_bind. by destruct s.
  - intros name callback. apply Hsame. unfold onButton. rewrite get_bind. by destruct this.
  - intros callback. apply Hsame. unfold onInvalid. rewrite get_bind. by destruct this.
Qed.

Lemma command_keys_are_folded_witness :
  wf_commands
    (final (onCommand "__PROTO__" (OneChat 100) Scenario.on_ping None Scenario.bot)).
Proof.
  destruct (command_keys_are_folded Scenario.bot) as [Hnew Hkeep].
  destruct (Hkeep (Hnew Scenario.client 1000000)) as [Hcommand _].
  exact (Hcommand "__PROTO__" (OneChat 100) Scenario.on_ping None).
Defined.

(** ** Button presses: the three branches *)

Section UnknownButton.

Context (this : TeleWrapper) (query : CallbackQuery) (m : Message).
Hypothesis has_message : query_message query = Some m.
Hypothesis has_chat : msg_chat_id m <> 0.

(** The branch of an unknown identifier, when the notice is delivered. *)
Lemma unknown_button_delivered (sent : Message) :
  msg_chat_id m ∈ getValidChats this ->
  sendMessage_settles (core this) (msg_chat_id m) (Literal "Sorry, an error has occurred") =
    Returns sent ->
  exists s,
    unknown_button query this =
      {| outcome := Returns tt; final := s;
         trace := [ delete_call m;
                    CoreSendMessage (msg_chat_id m) (Literal "Sorry, an error has occurred");
                    Timer 3000;
                    delete_call sent ] |}.
Proof.
  intros Hvalid Hsent. eexists. unfold unknown_button. rewrite has_message.
  destruct (Z.eqb_spec (msg_chat_id m) 0) as [E|_]; [done|]. cbn [negb].
  erewrite bind_returns by apply deleteMessage_single_run.
  erewrite bind_returns.
  2:{ erewrite bind_returns by (by apply sendMessage_delivered).
      erewrite bind_returns by reflexivity. reflexivity. }
  cbn [outcome final trace].
  erewrite bind_returns by reflexivity.
  erewrite bind_returns by apply deleteMessage_single_run.
  reflexivity.
Qed.

(** The same branch, for a message of a chat that is not authorized: the
    send is refused, and the refusal leaves the branch as an exception. *)
Lemma unknown_button_refused :
  msg_chat_id m ∉ getValidChats this ->
  unknown_button query this =
    {| outcome := Throws "Invalid chat id when sending message";
       final := final (sendError "trying to send a message to an invalid chat id"
                         (Some "stack") this);
       trace := delete_call m ::
                error_effects this "trying to send a message to an invalid chat id"
                  (Some "stack") |}.
Proof.
  intros Hout. unfold unknown_button. rewrite has_message.
  destruct (Z.eqb_spec (msg_chat_id m) 0) as [E|_]; [done|]. cbn [negb].
  erewrite bind_returns by apply deleteMessage_single_run.
  pose proof (sendMessage_refused (Literal "Sorry, an error has occurred") (msg_chat_id m)
                this Hout) as Hsend.
  rewrite sendError_trace in Hsend. fold (error_effects this
    "trying to send a message to an invalid chat id" (Some "stack")) in Hsend.
  set (s := final (sendError "trying to send a message to an invalid chat id"
                       (Some "stack") this)) in *.
  assert (Hmid : (p ← sendMessage (Literal "Sorry, an error has occurred") (msg_chat_id m);
                  sent ← await p; ret (Some sent)) this =
            {| outcome := Throws "Invalid chat id when sending message"; final := s;
               trace := error_effects this "trying to send a message to an invalid chat id"
                          (Some "stack") |}).
  { erewrite bind_returns by exact Hsend.
    rewrite (bind_throws (await (Throws "Invalid chat id when sending message")) _ s s
               "Invalid chat id when sending message" [] eq_refl).
    cbn [outcome final trace]. by rewrite app_nil_r. }
  rewrite (bind_throws _ _ this _ _ _ Hmid). reflexivity.
Qed.

End UnknownButton.

(** C6, as the code has it. The query is acknowledged when its identifier
    is in [buttonList] and the callback returns: the listener calls the
    callback and then [answerCallbackQuery] with the id of the query, the
    text without its leading [!], and the alert flag. When the identifier
    is not in [buttonList], or the callback throws, no acknowledgement is
    sent; a callback that throws is followed by the report of its error
    and by no other call. What an identifier that is no property of
    [buttonList] gets instead depends on the message of the query. For a
    message of an authorized chat, when the client delivers the notice:
    the deletion of the message is asked for, the notice is sent to its
    chat, and after three seconds the deletion of the notice is asked
    for. For a message of a chat that is not authorized: the deletion of
    the message is asked for, the send is refused and reported, and the
    exception of the refusal is reported as an error of the query;
    nothing is sent to the chat. For a query without message, on a
    wrapper without debug chat, the log of the error is the only call
    made. *)
Theorem acknowledgement_when_handled (this : TeleWrapper) (query : CallbackQuery) :
  let r := on_callback_query query this in
  let notice := Literal "Sorry, an error has occurred" in
  (forall b res,
     buttonList this !! query_data query = Some b ->
     bc_run (btn_callback b) query = Returns res ->
     trace r =
       [ CallButton (bc_name (btn_callback b)) query;
         CoreAnswerCallbackQuery (query_id query) (answer_text (answer_of res))
           (answer_show_alert (answer_of res)) ]) /\
  (buttonList this !! query_data query = None \/
   (exists b error, buttonList this !! query_data query = Some b /\
                    bc_run (btn_callback b) query = Throws error) ->
   Forall (fun e => ~ is_answer e) (trace r)) /\
  (forall b error,
     buttonList this !! query_data query = Some b ->
     bc_run (btn_callback b) query = Throws error ->
     trace r =
       CallButton (bc_name (btn_callback b)) query ::
       error_effects this ("query error with button " +:+ query_data query) (Some error)) /\
  (Js.js_get (buttonList this) (query_data query) = Js.Undefined ->
   (forall m sent,
      query_message query = Some m ->
      msg_chat_id m <> 0 ->
      msg_chat_id m ∈ getValidChats this ->
      sendMessage_settles (core this) (msg_chat_id m) notice = Returns sent ->
      trace r =
        [ delete_call m; CoreSendMessage (msg_chat_id m) notice; Timer 3000;
          delete_call sent ]) /\
   (forall m,
      query_message query = Some m ->
      msg_chat_id m <> 0 ->
      msg_chat_id m ∉ getValidChats this ->
      trace r =
        delete_call m ::
        error_effects this "trying to send a message to an invalid chat id" (Some "stack") ++
        error_effects this ("query error with button " +:+ query_data query)
          (Some "Invalid chat id when sending message")) /\
   (query_message query = None ->
    debugChat this = 0 ->
    trace r =
      [LoggerLog (ErrorText "Sorry, an error has occurred in an unknown query" None)])).
Proof.
  intros r notice. subst r notice. split; [|split; [|split]].
  - intros b res Hb Hres.
    unfold on_callback_query, async, try_catch, mbind, M_bind, bind, Js.js_get. cbn.
    rewrite Hb. cbn. rewrite Hres. reflexivity.
  - intros Hcase.
    set (I := fun s => buttonList s = buttonList this).
    set (P := fun e => ~ is_answer e).
    assert (HI : forall l s, I s -> I (set_messageList l s)) by done.
    assert (HP : forall e, is_io e -> P e) by (intros []; unfold P; cbn; tauto).
    assert (H : triple I P (on_callback_query query) anything).
    { unfold on_callback_query. eapply triple_async, triple_try_catch.
      - eapply triple_bind; [apply triple_get|]. intros s Hs. unfold Js.js_get. rewrite Hs.
        destruct Hcase as [Hnone | (b & error & Hb & Hthrow)].
        + rewrite Hnone. destruct (_ || _); cbn [Js.truthy].
          * eapply triple_bind; [apply (triple_throw _ _ _ (fun _ => False))|].
            intros res [].
          * by apply unknown_button_triple.
        + rewrite Hb. cbn [Js.truthy].
          eapply triple_bind.
          * eapply triple_bind; [apply triple_emit; unfold P; cbn; tauto|].
            intros _ _. apply triple_lift.
          * intros res Hres. rewrite Hthrow in Hres. discriminate Hres.
      - intros error. triples. by apply sendError_triple. }
    by destruct (H this eq_refl) as (_ & Htrace & _).
  - intros b error Hb Hthrow.
    unfold on_callback_query, async. cbn [trace].
    erewrite try_catch_throws.
    2:{ rewrite get_bind. unfold Js.js_get. rewrite Hb. cbn [Js.truthy].
        apply bind_throws. erewrite bind_returns by reflexivity.
        unfold lift. rewrite Hthrow. reflexivity. }
    cbn [app]. f_equal.
    destruct (sendError_returns ("query error with button " +:+ query_data query)
                (Some error) this) as [p Hp].
    rewrite (trace_bind _ _ _ p Hp). cbn [trace]. by rewrite app_nil_r, sendError_trace.
  - intros Hunknown.
    assert (Hbody : forall h : string -> M unit,
              try_catch (this' ← get;
                         if Js.truthy (Js.js_get (buttonList this') (query_data query))
                         then res ← match Js.js_get (buttonList this') (query_data query) with
                                    | Js.Own b =>
                                        emit (CallButton (bc_name (btn_callback b)) query);;
                                        lift (bc_run (btn_callback b) query)
                                    | _ => throw
                                        "TypeError: this.buttonList[query.data].callback is not a function"
                                    end;
                              emit (CoreAnswerCallbackQuery (query_id query)
                                      (answer_text (answer_of res))
                                      (answer_show_alert (answer_of res)))
                         else unknown_button query) h this =
              try_catch (unknown_button query) h this).
    { intros h. unfold try_catch. by rewrite get_bind, Hunknown. }
    unfold on_callback_query, async. cbn [trace]. rewrite Hbody.
    split; [|split].
    + intros m sent Hm Hchat Hvalid Hsent.
      destruct (unknown_button_delivered this query m Hm Hchat sent Hvalid Hsent) as [s Hrun].
      rewrite (try_catch_returns _ _ _ tt) by (by rewrite Hrun). by rewrite Hrun.
    + intros m Hm Hchat Hout.
      rewrite (try_catch_throws _ _ _ _ _ _ (unknown_button_refused this query m Hm Hchat Hout)).
      cbn [trace app]. f_equal. f_equal.
      destruct (sendError_chats "trying to send a message to an invalid chat id"
                  (Some "stack") this) as (_ & Hd & _).
      destruct (sendError_returns ("query error with button " +:+ query_data query)
                  (Some "Invalid chat id when sending message")
                  (final (sendError "trying to send a message to an invalid chat id"
                            (Some "stack") this))) as [p Hp].
      rewrite (trace_bind _ _ _ p Hp). cbn [trace]. rewrite app_nil_r, sendError_trace, Hd.
      reflexivity.
    + intros Hm Hd.
      assert (Hrun : unknown_button query this =
                {| outcome := Returns tt; final := this;
                   trace := [LoggerLog (ErrorText
                               "Sorry, an error has occurred in an unknown query" None)] |}).
      { unfold unknown_button. rewrite Hm.
        erewrite bind_returns by reflexivity.
        assert (Herr : sendError "Sorry, an error has occurred in an unknown query" None this =
                  {| outcome := Returns (Returns None); final := this;
                     trace := [LoggerLog (ErrorText
                                 "Sorry, an error has occurred in an unknown query" None)] |}).
        { unfold sendError, async. erewrite bind_returns by reflexivity.
          rewrite get_bind, Hd. reflexivity. }
        erewrite bind_returns.
        2:{ erewrite bind_returns by exact Herr. reflexivity. }
        reflexivity. }
      rewrite (try_catch_returns _ _ _ tt) by (by rewrite Hrun). by rewrite Hrun.
Qed.

Lemma acknowledgement_when_handled_witness :
  let stray := {| query_id := "q2"; query_data := "btn_999";
                  query_message := Some (Scenario.entry 555 7) |} in
  let bare := {| query_id := "q3"; query_data := "btn_999"; query_message := None |} in
  trace (on_callback_query (Scenario.press "btn_1") Scenario.with_buttons) =
    [ CallButton "says_done" (Scenario.press "btn_1");
      CoreAnswerCallbackQuery "q1" (Some "done") (Some true) ] /\
  Forall (fun e => ~ is_answer e)
    (trace (on_callback_query (Scenario.press "btn_999") Scenario.with_buttons)) /\
  Forall (fun e => ~ is_answer e)
    (trace (on_callback_query (Scenario.press "btn_2") Scenario.with_buttons)) /\
  trace (on_callback_query (Scenario.press "btn_2") Scenario.with_buttons) =
    [ CallButton "breaks" (Scenario.press "btn_2");
      LoggerLog (ErrorText "query error with button btn_2" (Some "Error: boom")) ] /\
  trace (on_callback_query (Scenario.press "btn_999") Scenario.with_buttons) =
    [ delete_call (Scenario.entry 100 7);
      CoreSendMessage 100 (Literal "Sorry, an error has occurred");
      Timer 3000;
      delete_call (Scenario.entry 100 9000) ] /\
  trace (on_callback_query stray Scenario.with_buttons) =
    [ delete_call (Scenario.entry 555 7);
      LoggerLog (ErrorText "trying to send a message to an invalid chat id" (Some "stack"));
      LoggerLog (ErrorText "query error with button btn_999"
                   (Some "Invalid chat id when sending message")) ] /\
  trace (on_callback_query bare Scenario.with_buttons) =
    [LoggerLog (ErrorText "Sorry, an error has occurred in an unknown query" None)].
Proof.
  intros stray bare. split; [|split; [|split; [|split; [|split; [|split]]]]].
  - apply (proj1 (acknowledgement_when_handled Scenario.with_buttons (Scenario.press "btn_1"))
             {| btn_name := "btn_1"; btn_callback := Scenario.says_done |}
             (ResString "!done")); reflexivity.
  - apply (proj1 (proj2 (acknowledgement_when_handled Scenario.with_buttons
                           (Scenario.press "btn_999")))).
    left. reflexivity.
  - apply (proj1 (proj2 (acknowledgement_when_handled Scenario.with_buttons
                           (Scenario.press "btn_2")))).
    right. exists {| btn_name := "btn_2"; btn_callback := Scenario.breaks |}, "Error: boom".
    split; reflexivity.
  - apply (proj1 (proj2 (proj2 (acknowledgement_when_handled Scenario.with_buttons
                                  (Scenario.press "btn_2"))))
             {| btn_name := "btn_2"; btn_callback := Scenario.breaks |} "Error: boom");
      reflexivity.
  - destruct (proj2 (proj2 (proj2 (acknowledgement_when_handled Scenario.with_buttons
                              (Scenario.press "btn_999")))) eq_refl) as [Hsent _].
    apply (Hsent (Scenario.entry 100 7) (Scenario.entry 100 9000)).
    + reflexivity.
    + discriminate.
    + apply (bool_decide_unpack _). vm_compute. exact Logic.I.
    + reflexivity.
  - destruct (proj2 (proj2 (proj2 (acknowledgement_when_handled Scenario.with_buttons
                                     stray))) eq_refl) as (_ & Hrefused & _).
    apply (Hrefused (Scenario.entry 555 7)).
    + reflexivity.
    + discriminate.
    + intros H. apply (bool_decide_pack _) in H. vm_compute in H. exact H.
  - destruct (proj2 (proj2 (proj2 (acknowledgement_when_handled Scenario.with_buttons
                                     bare))) eq_refl) as (_ & _ & Hbare).
    apply Hbare; reflexivity.
Defined.

(** ** Commands before patterns: the callbacks of the user *)

Lemma trace_bind_split {A B : Type} (m : M A) (k : A -> M B) (this : TeleWrapper) :
  trace ((m ≫= k) this) =
    trace (m this) ++
    match outcome (m this) with
    | Returns a => trace (k a (final (m this)))
    | Throws _ => []
    end.
Proof.
  unfold mbind, M_bind, bind. destruct (outcome (m this)); cbn; [done|].
  by rewrite app_nil_r.
Qed.

Lemma trace_try_catch_split {A : Type} (m : M A) (h : string -> M A) (this : TeleWrapper) :
  trace (try_catch m h this) =
    trace (m this) ++
    match outcome (m this) with
    | Returns _ => []
    | Throws e => trace (h e (final (m this)))
    end.
Proof.
  unfold try_catch. destruct (outcome (m this)); cbn; [|done].
  by rewrite app_nil_r.
Qed.

Lemma filter_none (f : Effect -> bool) (t : list Effect) :
  Forall (fun e => f e = false) t -> List.filter f t = [].
Proof. induction 1 as [|e t He _ IH]; [done|]. cbn. by rewrite He. Qed.

Lemma gate_open_spec (msg : Message) (ids : list Z) (this : TeleWrapper) :
  gate_open msg ids this = true <-> ~ stale msg this /\ allowed msg ids this.
Proof.
  unfold gate_open, stale, allowed, Js.includes_num.
  rewrite andb_true_iff, orb_true_iff, andb_true_iff, negb_true_iff, Z.ltb_ge,
    !bool_decide_eq_true, Nat.eqb_eq.
  split.
  - intros [Hfresh [Hin | [Hin Hlen]]]; (split; [lia|]); [by left|].
    right. split; [|done]. by destruct ids.
  - intros [Hfresh [Hin | [-> Hin]]]; (split; [lia|]); [by left | by right].
Qed.

Lemma gate_open_same (msg : Message) (ids : list Z) (this s : TeleWrapper) :
  same_gate this s -> gate_open msg ids s = gate_open msg ids this.
Proof.
  intros (Ht & Hv & Hd). unfold gate_open, getValidChats. by rewrite Ht, Hv, Hd.
Qed.

Lemma validCommand_open (msg : Message) (ids : list Z) (rx : bool) (this : TeleWrapper) :
  gate_open msg ids this = true ->
  validCommand msg (ChatList ids) rx this =
    {| outcome := Returns true; final := this; trace := [] |}.
Proof. intros H. apply gate_open_spec in H as [? ?]. by apply validCommand_allows. Qed.

Lemma validCommand_closed (msg : Message) (ids : list Z) (rx : bool) (this : TeleWrapper) :
  gate_open msg ids this = false ->
  outcome (validCommand msg (ChatList ids) rx this) <> Returns true.
Proof.
  unfold gate_open, validCommand. rewrite get_bind. cbn [to_ids].
  destruct (msg_date msg * 1000 <? startTime this); [done|]. cbn [negb andb]. cbv zeta.
  intros H. apply orb_false_elim in H as [Hin Hvalid]. rewrite Hin, Hvalid.
  destruct (_ && rx); [done|].
  intros H. apply bind_inv in H as (h & _ & H & _).
  apply bind_inv in H as ([] & _ & H & _). discriminate H.
Qed.

Lemma deleteIfMentioned_final (msg : Message) (this : TeleWrapper) :
  final (deleteIfMentioned msg this) = this.
Proof.
  unfold deleteIfMentioned. rewrite get_bind.
  destruct (botInfo this); [|done].
  match goal with |- context [if ?b then _ else _] => destruct b end; [|done].
  erewrite bind_returns by apply deleteMessage_single_run. reflexivity.
Qed.

Section Callbacks.

Context (this : TeleWrapper) (msg : Message).

Lemma same_gate_outbox (l : list Message) (s : TeleWrapper) :
  same_gate this s -> same_gate this (set_messageList l s).
Proof. done. Qed.

(** What the bound callback of a command records of the user's: the call
    of the callback when the gate is open, and nothing otherwise. *)
Lemma commandBase_calls (ids : list Z) (callback : CommandCallback) :
  command_calls (trace (commandBase (ChatList ids) callback msg this)) =
    if gate_open msg ids this then [CallCommand (cc_name callback) msg (content_of msg)]
    else [].
Proof.
  unfold commandBase. destruct (gate_open msg ids this) eqn:Hgate.
  - erewrite bind_returns by (by apply validCommand_open). reflexivity.
  - rewrite trace_bind_split. unfold command_calls. rewrite List.filter_app.
    assert (Hv : triple (fun _ => True) (fun e => is_call_command e = false)
                   (validCommand msg (ChatList ids) false) anything).
    { apply validCommand_triple; [done | by intros [] | by intros []]. }
    destruct (Hv this Logic.I) as (_ & Htrace & _).
    rewrite (filter_none _ _ Htrace).
    pose proof (validCommand_closed msg ids false this Hgate) as Hne.
    destruct (outcome (validCommand msg (ChatList ids) false this)) as [[|]|]; done.
Qed.

Lemma regexBase_calls (ids : list Z) (callback : RegexCallback) (handled : bool)
    (result : RegExpExecArray) (s : TeleWrapper) :
  same_gate this s ->
  regex_calls (trace (regexBase (ChatList ids) callback msg handled result s)) =
    if gate_open msg ids this then [CallRegex (rc_name callback) msg handled result] else [].
Proof.
  intros Hs. rewrite <- (gate_open_same msg ids this s Hs).
  unfold regexBase. destruct (gate_open msg ids s) eqn:Hgate.
  - erewrite bind_returns by (by apply validCommand_open). reflexivity.
  - rewrite trace_bind_split. unfold regex_calls. rewrite List.filter_app.
    assert (Hv : triple (fun _ => True) (fun e => is_call_regex e = false)
                   (validCommand msg (ChatList ids) true) anything).
    { apply validCommand_triple; [done | by intros [] | by intros []]. }
    destruct (Hv s Logic.I) as (_ & Htrace & _).
    rewrite (filter_none _ _ Htrace).
    pose proof (validCommand_closed msg ids true s Hgate) as Hne.
    destruct (outcome (validCommand msg (ChatList ids) true s)) as [[|]|]; done.
Qed.

Lemma pattern_callbacks_true (found : list (IRegexCmd * RegExpExecArray)) :
  pattern_callbacks this msg true found = flat_map (callback_if_open this msg true) found.
Proof. by destruct found. Qed.

(** The loop over the patterns, when it runs to its end: the user
    callbacks called are those of the matching patterns whose gate is
    open. *)
Lemma regex_loop_callbacks (entries : list (nat * IRegexCmd)) (handled after : bool)
    (s : TeleWrapper) :
  same_gate this s ->
  outcome (foldM entries (regex_step msg) handled s) = Returns after ->
  regex_calls (trace (foldM entries (regex_step msg) handled s)) =
    pattern_callbacks this msg handled (matches msg entries).
Proof.
  revert handled s. induction entries as [|[key value] entries IH]; intros handled s Hs H.
  - done.
  - cbn [foldM] in *. apply bind_inv in H as (h & Hstep & Hrest & -> & _).
    assert (Hstate : same_gate this (final (regex_step msg handled (key, value) s))).
    { assert (Ht : triple (same_gate this) (fun _ => True)
                     (regex_step msg handled (key, value)) anything)
        by (by apply regex_step_triple).
      by destruct (Ht s Hs) as (? & _). }
    unfold regex_calls in *. rewrite List.filter_app, (IH _ _ Hstate Hrest). clear IH Hrest Hstate.
    unfold matches. cbn [omap list_omap fst snd]. fold (matches msg entries).
    unfold regex_step in *.
    destruct (exec (regex value) (text_of msg)) as [result|] eqn:E;
      cbn [fmap option_fmap option_map].
    + apply bind_inv in Hstep as ([] & _ & Hstep & -> & _).
      apply bind_inv in Hstep as ([] & _ & Hstep & -> & _).
      apply bind_inv in Hstep as ([] & _ & Hstep & -> & _).
      cbn in Hstep. injection Hstep as <-.
      rewrite !List.filter_app.
      assert (Hd : triple (fun _ => True) (fun e => is_call_regex e = false)
                     (deleteIfMentioned msg) anything)
        by (apply deleteIfMentioned_triple; by intros []).
      rewrite (filter_none _ (trace (deleteIfMentioned msg s)))
        by (by destruct (Hd s Logic.I) as (_ & ? & _)).
      rewrite !deleteIfMentioned_final. cbn [emit final trace List.filter is_call_regex app].
      unfold IRegexCmd_callback. fold (regex_calls (trace (regexBase (ChatList (rx_chatIDs value))
        (rx_callback value) msg handled result s))).
      rewrite (regexBase_calls _ _ _ _ s Hs).
      rewrite app_nil_r, pattern_callbacks_true.
      unfold pattern_callbacks, callback_if_open. cbn [fst snd]. reflexivity.
    + cbn in Hstep. injection Hstep as <-. cbn. reflexivity.
Qed.

End Callbacks.

Section CommandHit.

Context (this : TeleWrapper) (msg : Message) (c : ICommand).
Hypothesis with_text : has_text msg = true.
Hypothesis stored : commandList this !! token_of msg = Some c.

Lemma command_stage_hit :
  command_stage msg this =
    (deleteIfMentioned msg;;
     (emit (InvokeCommand (token_of msg) msg);; ICommand_callback c msg);;
     ret true) this.
Proof.
  unfold command_stage. rewrite get_bind. fold (token_of msg).
  unfold Js.js_get. by rewrite stored, with_text.
Qed.

Lemma command_stage_hit_flag (h : bool) :
  outcome (command_stage msg this) = Returns h -> h = true.
Proof.
  rewrite command_stage_hit. intros H.
  apply bind_inv in H as ([] & _ & H & _).
  apply bind_inv in H as ([] & _ & H & _). by injection H as <-.
Qed.

(** After a command, the later stages call no command callback. *)
Lemma later_stages_no_command (s : TeleWrapper) :
  command_calls (trace ((handled ← regex_stage msg true;
                         audio_stage msg handled;; any_stage msg handled) s)) = [].
Proof.
  apply filter_none.
  assert (H : triple (fun _ => True) (fun e => is_call_command e = false)
                (handled ← regex_stage msg true;
                 audio_stage msg handled;; any_stage msg handled) anything).
  { unfold regex_stage. rewrite with_text. cbn [negb andb]. triples.
    - by apply audio_stage_triple.
    - by apply any_stage_triple. }
  by destruct (H s Logic.I) as (_ & ? & _).
Qed.

(** A stored command: the callback of the user is called when the gate
    of the command is open, and not otherwise. *)
Lemma command_hit_calls :
  command_calls (trace (on_message msg this)) =
    if gate_open msg (cmd_chatIDs c) this
    then [CallCommand (cc_name (cmd_callback c)) msg (content_of msg)]
    else [].
Proof.
  unfold on_message, command_calls. rewrite trace_try_catch_split, List.filter_app.
  assert (Hcatch : List.filter is_call_command
                     match outcome (message_stages msg this) with
                     | Returns _ => []
                     | Throws e =>
                         trace ((sendError "message error" (Some e);; ret tt)
                                  (final (message_stages msg this)))
                     end = []).
  { destruct (outcome (message_stages msg this)) as [|e]; [done|].
    apply filter_none.
    assert (H : triple (fun _ => True) (fun e => is_call_command e = false)
                  (sendError "message error" (Some e);; ret tt) anything).
    { triples. apply sendError_triple; [done | by intros []]. }
    by edestruct H as (_ & ? & _). }
  rewrite Hcatch, app_nil_r. clear Hcatch.
  unfold message_stages. rewrite trace_bind_split, List.filter_app.
  assert (Hlater : List.filter is_call_command
                     match outcome (command_stage msg this) with
                     | Returns a =>
                         trace ((handled ← regex_stage msg a;
                                 audio_stage msg handled;; any_stage msg handled)
                                  (final (command_stage msg this)))
                     | Throws _ => []
                     end = []).
  { destruct (outcome (command_stage msg this)) as [a|e] eqn:E; [|done].
    rewrite (command_stage_hit_flag a E). apply later_stages_no_command. }
  rewrite Hlater, app_nil_r. clear Hlater.
  rewrite command_stage_hit, trace_bind_split, deleteIfMentioned_returns,
    deleteIfMentioned_final, List.filter_app.
  assert (Hd : triple (fun _ => True) (fun e => is_call_command e = false)
                 (deleteIfMentioned msg) anything)
    by (apply deleteIfMentioned_triple; by intros []).
  rewrite (filter_none _ (trace (deleteIfMentioned msg this)))
    by (by destruct (Hd this Logic.I) as (_ & ? & _)).
  rewrite trace_bind_split, List.filter_app.
  rewrite (trace_bind (emit (InvokeCommand (token_of msg) msg)) _ this tt eq_refl).
  cbn [emit trace final app List.filter is_call_command].
  unfold ICommand_callback.
  fold (command_calls (trace (commandBase (ChatList (cmd_chatIDs c)) (cmd_callback c) msg this))).
  rewrite commandBase_calls.
  by destruct (outcome _), (gate_open _ _ _).
Qed.

(** A stored command: no pattern is tried, and no pattern callback of the
    user is called. *)
Lemma command_hit_no_regex :
  regex_calls (trace (on_message msg this)) = [].
Proof.
  apply filter_none.
  set (I := fun s => commandList s = commandList this).
  set (P := fun e => is_call_regex e = false).
  assert (HI : forall l s, I s -> I (set_messageList l s)) by done.
  assert (HP : forall e, is_io e -> P e) by (by intros []).
  assert (HG : forall e, gate_effect e -> P e) by (by intros []).
  assert (H : triple I P (on_message msg) anything).
  { unfold on_message, message_stages. apply triple_try_catch.
    - eapply triple_bind with (Q := fun handled => handled = true).
      + unfold command_stage. eapply triple_bind; [apply triple_get|].
        intros s Hs. fold (token_of msg). unfold Js.js_get.
        rewrite Hs, stored, with_text. cbn [andb Js.truthy].
        eapply triple_bind; [by apply deleteIfMentioned_triple|]. intros _ _.
        eapply triple_bind; [|intros; by apply triple_ret].
        eapply triple_bind; [by apply triple_emit|]. intros _ _.
        by apply commandBase_triple.
      + intros handled ->. unfold regex_stage. rewrite with_text. cbn [negb andb].
        triples.
        * apply audio_stage_triple. done.
        * apply any_stage_triple. done.
    - intros error. triples. by apply sendError_triple. }
  by destruct (H this eq_refl) as (_ & ? & _).
Qed.

End CommandHit.

(** C7, as the code has it, for an event with text. When the case-folded
    token is a key of [commandList], the stored callback of that command
    is invoked, and the callback of the user behind it is called, once and
    with the text minus its first token, exactly when the gate of the
    command is open for the event: the event is not older than the start,
    and its chat is in the scope of the command, or the scope is empty and
    the chat is authorized. No pattern is tried and no pattern callback is
    called, whether the gate is open or not. When the token is not a
    property of [commandList] and no exception cuts the processing short,
    the stored callbacks of the patterns that match the text are invoked,
    all of them, in registration order: the first with the flag [false],
    the later ones with [true], each with its own match result. The
    callbacks of the user that are called are those of the matching
    patterns whose gate is open, in the same order, with the same flags
    and results; no command callback is called. *)
Theorem command_precedes_patterns (this : TeleWrapper) (msg : Message) :
  has_text msg = true ->
  let r := on_message msg this in
  (forall c, commandList this !! token_of msg = Some c ->
     (InvokeCommand (token_of msg) msg ∈ trace r) /\
     command_calls (trace r) =
       (if gate_open msg (cmd_chatIDs c) this
        then [CallCommand (cc_name (cmd_callback c)) msg (content_of msg)]
        else []) /\
     pattern_calls (trace r) = [] /\
     regex_calls (trace r) = []) /\
  (Js.js_get (commandList this) (token_of msg) = Js.Undefined ->
   completes msg this ->
   pattern_calls (trace r) =
     invocations msg false (matching msg (imap pair (regexList this))) /\
   regex_calls (trace r) =
     pattern_callbacks this msg false (matches msg (imap pair (regexList this))) /\
   command_calls (trace r) = [] /\
   (forall key m, InvokeCommand key m ∉ trace r)).
Proof.
  intros Htext r. subst r. split.
  - intros c Hc. split; [|split; [|split]].
    + unfold on_message, message_stages.
      apply elem_trace_try_catch, elem_trace_bind.
      rewrite (command_stage_hit this msg c Htext Hc).
      eapply elem_trace_bind_r; [apply deleteIfMentioned_returns|].
      apply elem_trace_bind, elem_trace_bind. cbn. left.
    + by apply command_hit_calls.
    + by apply (command_hit_no_patterns this msg c).
    + by apply (command_hit_no_regex this msg c).
  - intros Hnone Hdone.
    unfold on_message. rewrite (try_catch_returns _ _ _ _ Hdone).
    unfold completes, message_stages in *.
    assert (Hcmd : command_stage msg this =
              {| outcome := Returns false; final := this; trace := [] |}).
    { unfold command_stage. rewrite get_bind. fold (token_of msg).
      rewrite Hnone. cbn [Js.truthy]. by rewrite andb_false_r. }
    rewrite (bind_returns _ _ _ _ _ _ Hcmd) in *. cbn [outcome trace app] in *.
    apply bind_inv in Hdone as (h2 & H2 & Hdone & -> & _).
    apply bind_inv in Hdone as ([] & H3 & Hdone & -> & _).
    assert (Hloop : regex_stage msg false this =
              foldM (imap pair (regexList this)) (regex_step msg) false this).
    { unfold regex_stage. rewrite get_bind, Htext. done. }
    rewrite Hloop in *.
    assert (Hlater : forall P : Effect -> Prop,
              (forall n m h, P (CallAudio n m h)) -> (forall n m h, P (CallAny n m h)) ->
              forall s s', Forall P (trace (audio_stage msg h2 s) ++ trace (any_stage msg h2 s'))).
    { intros P Haudio Hany s s'.
      assert (Ha : triple (fun _ => True) P (audio_stage msg h2) anything)
        by (by apply audio_stage_triple).
      assert (Hb : triple (fun _ => True) P (any_stage msg h2) anything)
        by (by apply any_stage_triple).
      apply Forall_app. split.
      - by destruct (Ha s Logic.I) as (_ & ? & _).
      - by destruct (Hb s' Logic.I) as (_ & ? & _). }
    split; [|split; [|split]].
    + rewrite pattern_calls_app, (regex_loop_calls _ _ _ _ _ H2).
      rewrite (pattern_calls_none (_ ++ _)) by (by apply Hlater).
      by rewrite app_nil_r.
    + unfold regex_calls. rewrite List.filter_app.
      rewrite (filter_none _ (_ ++ _)) by (by apply Hlater).
      rewrite app_nil_r.
      apply (regex_loop_callbacks this msg _ false h2 this); [by repeat split | exact H2].
    + unfold command_calls. rewrite List.filter_app.
      rewrite (filter_none _ (_ ++ _)) by (by apply Hlater).
      rewrite app_nil_r. apply filter_none.
      assert (Hr : triple (fun _ => True) (fun e => is_call_command e = false)
                     (foldM (imap pair (regexList this)) (regex_step msg) false) anything).
      { triples. apply regex_step_triple; [done | by intros [] | by intros []]. }
      by destruct (Hr this Logic.I) as (_ & ? & _).
    + intros key m Hin.
      set (P := fun e => match e with InvokeCommand _ _ => False | _ => True end).
      assert (HP : forall e, is_io e -> P e) by (by intros []).
      assert (Hr : triple (fun _ => True) P
                     (foldM (imap pair (regexList this)) (regex_step msg) false) anything).
      { triples. apply regex_step_triple; [done | done | by intros []]. }
      destruct (Hr this Logic.I) as (_ & Hr' & _).
      apply elem_of_app in Hin as [Hin | Hin].
      * rewrite Forall_forall in Hr'. exact (Hr' _ Hin).
      * pose proof (Hlater P (fun _ _ _ => Logic.I) (fun _ _ _ => Logic.I)) as Hall.
        exact (proj1 (Forall_forall _ _) (Hall _ _) _ Hin).
Qed.

Lemma command_precedes_patterns_witness :
  let press := Scenario.text_event 100 2000 "/ping" in
  let outsider := Scenario.text_event 200 2000 "/ping" in
  let talk := Scenario.text_event 100 2000 "hello" in
  let stranger := Scenario.text_event 200 2000 "hello" in
  ((InvokeCommand "ping" press ∈ trace (on_message press Scenario.with_patterns)) /\
   command_calls (trace (on_message press Scenario.with_patterns)) =
     [CallCommand "on_ping" press EmptyString] /\
   pattern_calls (trace (on_message press Scenario.with_patterns)) = [] /\
   regex_calls (trace (on_message press Scenario.with_patterns)) = []) /\
  ((InvokeCommand "ping" outsider ∈ trace (on_message outsider Scenario.with_patterns)) /\
   command_calls (trace (on_message outsider Scenario.with_patterns)) = [] /\
   regex_calls (trace (on_message outsider Scenario.with_patterns)) = []) /\
  (pattern_calls (trace (on_message talk Scenario.with_patterns)) =
     [InvokePattern 0 talk false ["hello"]; InvokePattern 1 talk true ["hello"]] /\
   regex_calls (trace (on_message talk Scenario.with_patterns)) =
     [CallRegex "second" talk false ["hello"]; CallRegex "third" talk true ["hello"]] /\
   command_calls (trace (on_message talk Scenario.with_patterns)) = [] /\
   (forall key m, InvokeCommand key m ∉ trace (on_message talk Scenario.with_patterns))) /\
  (pattern_calls (trace (on_message stranger Scenario.with_patterns)) =
     [InvokePattern 0 stranger false ["hello"]; InvokePattern 1 stranger true ["hello"]] /\
   regex_calls (trace (on_message stranger Scenario.with_patterns)) = []).
Proof.
  intros press outsider talk stranger.
  pose (ping := {| command := "ping"; cmd_chatIDs := [100]; cmd_desc := "(empty)";
                   cmd_callback := Scenario.on_ping |}).
  split; [|split; [|split]].
  - destruct (proj1 (command_precedes_patterns Scenario.with_patterns press eq_refl) ping)
      as (Hinvoke & Hcalls & Hpatterns & Hregex).
    { vm_compute. reflexivity. }
    split; [exact Hinvoke|]. split; [|by split].
    etrans; [exact Hcalls|]. vm_compute. reflexivity.
  - destruct (proj1 (command_precedes_patterns Scenario.with_patterns outsider eq_refl) ping)
      as (Hinvoke & Hcalls & _ & Hregex).
    { vm_compute. reflexivity. }
    split; [exact Hinvoke|]. split; [|exact Hregex].
    etrans; [exact Hcalls|]. vm_compute. reflexivity.
  - destruct (proj2 (command_precedes_patterns Scenario.with_patterns talk eq_refl))
      as (Hpatterns & Hregex & Hcalls & Hnone).
    { vm_compute. reflexivity. }
    { vm_compute. reflexivity. }
    split; [|split; [|by split]].
    + etrans; [exact Hpatterns|]. vm_compute. reflexivity.
    + etrans; [exact Hregex|]. vm_compute. reflexivity.
  - destruct (proj2 (command_precedes_patterns Scenario.with_patterns stranger eq_refl))
      as (Hpatterns & Hregex & _).
    { vm_compute. reflexivity. }
    { vm_compute. reflexivity. }
    split.
    + etrans; [exact Hpatterns|]. vm_compute. reflexivity.
    + etrans; [exact Hregex|]. vm_compute. reflexivity.
Defined.
